(** * Eight-puzzle solver (Eight_Puzzle_Problem.py): shallow embedding and
      verification of its A* search.

    The Python program is embedded as follows.
    - A grid is a Python list of lists of integers: [list (list Z)].
    - Indexing a list can raise [IndexError], unpacking [None] raises
      [TypeError]: fallible code lives in the [result] monad.
    - [heapq.heappush] / [heapq.heappop] are the array-based binary heap of
      the Python standard library, embedded on [list] with lookup and
      insert by index.
    - [closed_list] is a Python [set] of tuples of tuples: a [gset] of grids.
    - The [while open_list] loop of [solve_puzzle] is a step function
      iterated by a fuel-indexed driver.
    - The statements that end the module, the call of [solve_puzzle] and
      the printing of its result, are embedded by the lines they print. *)

From stdpp Require Import base option list list_tactics sets gmap pmap strings pretty.
From Stdlib Require Import ZArith Lia Btauto.

#[local] Arguments Nat.div : simpl never.
#[local] Arguments Nat.modulo : simpl never.

Local Open Scope Z_scope.

(** ** Python exceptions and the result monad *)

Inductive exn : Type := IndexError | TypeError.

Inductive result (A : Type) : Type :=
| Ok (a : A)
| Raise (e : exn).
Arguments Ok {A} a.
Arguments Raise {A} e.

#[global] Instance result_ret : MRet result := fun A a => Ok a.
#[global] Instance result_bind : MBind result := fun A B f m =>
  match m with
  | Ok a => f a
  | Raise e => Raise e
  end.

(** [for x in xs: acc = body(acc, x)], stopping at the first exception. *)
Fixpoint for_fold {A B : Type} (body : B -> A -> result B) (acc : B)
    (xs : list A) : result B :=
  match xs with
  | [] => Ok acc
  | x :: xs' => acc' ← body acc x; for_fold body acc' xs'
  end.

(** [l[i]] with Python's index rules: a negative index counts from the end,
    an index outside [-len, len) raises [IndexError]. *)
Definition py_norm_index {A : Type} (l : list A) (i : Z) : option nat :=
  let n := Z.of_nat (length l) in
  let k := if i <? 0 then i + n else i in
  if (k <? 0) || (n <=? k) then None else Some (Z.to_nat k).

Definition py_getitem {A : Type} (l : list A) (i : Z) : result A :=
  match py_norm_index l i with
  | None => Raise IndexError
  | Some k =>
      match l !! k with
      | Some x => Ok x
      | None => Raise IndexError
      end
  end.

(** [l[i] = v]. *)
Definition py_setitem {A : Type} (l : list A) (i : Z) (v : A) : result (list A) :=
  match py_norm_index l i with
  | None => Raise IndexError
  | Some k => Ok (<[k := v]> l)
  end.

(** [range(3)] *)
Definition range3 : list Z := [0; 1; 2].

(** ** Grids *)

Abbreviation grid := (list (list Z)).

(** [state[i][j]] *)
Definition cell (state : grid) (i j : Z) : result Z :=
  row ← py_getitem state i; py_getitem row j.

(** [state[i][j] = v] on a grid whose rows are separate lists: row [i]
    alone changes.  The grids written to are deep copies, whose rows are
    separate when those of the grid copied are; the rows of a valid grid
    are, since they differ. *)
Definition set_cell (state : grid) (i j : Z) (v : Z) : result grid :=
  row ← py_getitem state i;
  row' ← py_setitem row j v;
  py_setitem state i row'.

(** The module-level grids. *)
Definition initial_state : grid := [[2; 1; 7]; [8; 0; 6]; [3; 4; 5]].
Definition goal_state : grid := [[2; 3; 4]; [7; 0; 1]; [8; 5; 6]].

(** ** manhattan_distance *)

Definition manhattan_cell (state : grid) (i j : Z) (distance : Z) : result Z :=
  v ← cell state i j;
  if bool_decide (v ≠ 0) then
    let x := (v - 1) `div` 3 in
    let y := (v - 1) `mod` 3 in
    Ok (distance + (Z.abs (x - i) + Z.abs (y - j)))
  else Ok distance.

Definition manhattan_distance (state : grid) : result Z :=
  for_fold (fun distance i =>
    for_fold (fun distance j => manhattan_cell state i j distance)
             distance range3) 0 range3.

(** ** get_blank_position *)

Fixpoint blank_in_row (state : grid) (i : Z) (js : list Z) : result (option (Z * Z)) :=
  match js with
  | [] => Ok None
  | j :: js' =>
      v ← cell state i j;
      if bool_decide (v = 0) then Ok (Some (i, j)) else blank_in_row state i js'
  end.

Fixpoint blank_in_rows (state : grid) (rows : list Z) : result (option (Z * Z)) :=
  match rows with
  | [] => Ok None
  | i :: rows' =>
      r ← blank_in_row state i range3;
      match r with
      | Some p => Ok (Some p)
      | None => blank_in_rows state rows'
      end
  end.

(** Falls off the end, returning [None], when no cell holds 0. *)
Definition get_blank_position (state : grid) : result (option (Z * Z)) :=
  blank_in_rows state range3.

(** ** get_neighbors *)

Definition moves : list (Z * Z) := [(1, 0); (-1, 0); (0, 1); (0, -1)].

(** [new_state[i][j], new_state[new_i][new_j] =
       new_state[new_i][new_j], new_state[i][j]] on the deep copy:
    both right-hand sides are read first, then the two cells are written
    from left to right. *)
Definition swap_cells (state : grid) (i j new_i new_j : Z) : result grid :=
  a ← cell state new_i new_j;
  b ← cell state i j;
  s1 ← set_cell state i j a;
  set_cell s1 new_i new_j b.

Definition in_bounds (new_i new_j : Z) : bool :=
  (0 <=? new_i) && (new_i <? 3) && (0 <=? new_j) && (new_j <? 3).

Definition neighbor_step (state : grid) (i j : Z) (neighbors : list grid)
    (move : Z * Z) : result (list grid) :=
  let new_i := i + move.1 in
  let new_j := j + move.2 in
  if in_bounds new_i new_j then
    new_state ← swap_cells state i j new_i new_j;
    Ok (neighbors ++ [new_state])
  else Ok neighbors.

(** [i, j = get_blank_position(state)] raises [TypeError] on [None]. *)
Definition get_neighbors (state : grid) : result (list grid) :=
  p ← get_blank_position state;
  match p with
  | None => Raise TypeError
  | Some (i, j) => for_fold (neighbor_step state i j) [] moves
  end.

(** ** heapq on a Python list *)

Section Heapq.
Context {A : Type}.
(** [a < b], the element type's [__lt__]. *)
Variable lt : A -> A -> bool.

(** The [while pos > startpos] loop of [_siftdown]. Every iteration
    replaces [pos] by [(pos - 1) >> 1 < pos], so [pos] iterations are
    enough: with no fuel left [pos = 0] and the loop has ended
    ([siftdown_loop_fuel]). [heappush] and [heappop] only read indices
    inside the list, where Python would raise [IndexError] otherwise. *)
Fixpoint _siftdown_loop (fuel : nat) (heap : list A) (newitem : A)
    (startpos pos : nat) : list A :=
  match fuel with
  | O => <[pos := newitem]> heap
  | S fuel' =>
      if bool_decide (startpos < pos)%nat then
        let parentpos := ((pos - 1) / 2)%nat in
        match heap !! parentpos with
        | Some parent =>
            if lt newitem parent
            then _siftdown_loop fuel' (<[pos := parent]> heap) newitem startpos parentpos
            else <[pos := newitem]> heap
        | None => <[pos := newitem]> heap
        end
      else <[pos := newitem]> heap
  end.

Definition _siftdown (heap : list A) (startpos pos : nat) : list A :=
  match heap !! pos with
  | Some newitem => _siftdown_loop pos heap newitem startpos pos
  | None => heap
  end.

(** The [while childpos < endpos] loop of [_siftup]: the smaller child
    moves up until the hole is a leaf; returns the heap and the leaf.
    [pos] grows at every iteration, so [endpos] iterations are enough
    ([siftup_loop_fuel]). *)
Fixpoint _siftup_loop (fuel : nat) (heap : list A) (pos : nat) : list A * nat :=
  match fuel with
  | O => (heap, pos)
  | S fuel' =>
      let endpos := length heap in
      let childpos := (2 * pos + 1)%nat in
      if bool_decide (childpos < endpos)%nat then
        let rightpos := (childpos + 1)%nat in
        let childpos' :=
          match heap !! childpos, heap !! rightpos with
          | Some l, Some r => if negb (lt l r) then rightpos else childpos
          | _, _ => childpos
          end in
        match heap !! childpos' with
        | Some c => _siftup_loop fuel' (<[pos := c]> heap) childpos'
        | None => (heap, pos)
        end
      else (heap, pos)
  end.

Definition _siftup (heap : list A) (pos : nat) : list A :=
  match heap !! pos with
  | Some newitem =>
      let '(heap', leaf) := _siftup_loop (length heap) heap pos in
      _siftdown (<[leaf := newitem]> heap') pos leaf
  | None => heap
  end.

(** [heapq.heappush(heap, item)] *)
Definition heappush (heap : list A) (item : A) : list A :=
  let heap' := heap ++ [item] in
  _siftdown heap' 0 (length heap' - 1).

(** [heapq.heappop(heap)]: the popped item and the heap left.
    [heap.pop()] on an empty list raises [IndexError]. *)
Definition heappop (heap : list A) : result (A * list A) :=
  match last heap with
  | None => Raise IndexError
  | Some lastelt =>
      let heap' := removelast heap in
      match heap' with
      | [] => Ok (lastelt, [])
      | returnitem :: _ => Ok (returnitem, _siftup (<[0%nat := lastelt]> heap') 0)
      end
  end.
End Heapq.

(** ** PuzzleNode *)

#[warnings="-register-all"]
Inductive PuzzleNode : Type :=
  mkNode { state : grid; parent : option PuzzleNode; g : Z; h : Z }.

(** [PuzzleNode.__lt__] *)
Definition node_lt (self other : PuzzleNode) : bool :=
  (g self + h self) <? (g other + h other).

(** ** solve_puzzle *)

(** [while current_node: path.append(current_node.state);
       current_node = current_node.parent] *)
Fixpoint path_to_root (n : PuzzleNode) : list grid :=
  state n :: match parent n with
             | Some p => path_to_root p
             | None => []
             end.

(** The body of [for neighbor_state in get_neighbors(...)]. *)
Definition push_neighbor (closed_list : gset grid) (current_node : PuzzleNode)
    (open_list : list PuzzleNode) (neighbor_state : grid) : result (list PuzzleNode) :=
  if bool_decide (neighbor_state ∉ closed_list) then
    hn ← manhattan_distance neighbor_state;
    Ok (heappush node_lt open_list
          (mkNode neighbor_state (Some current_node) (g current_node + 1) hn))
  else Ok open_list.

(** What one iteration of the [while open_list] loop does. *)
Inductive step_result : Type :=
| Done (path : list grid)
| Continue (open_list : list PuzzleNode) (closed_list : gset grid).

Definition step (open_list : list PuzzleNode) (closed_list : gset grid)
    : result step_result :=
  '(current_node, open_list) ← heappop node_lt open_list;
  if bool_decide (state current_node = goal_state) then
    Ok (Done (reverse (path_to_root current_node)))
  else
    let closed_list := {[state current_node]} ∪ closed_list in
    ns ← get_neighbors (state current_node);
    open_list ← for_fold (push_neighbor closed_list current_node) open_list ns;
    Ok (Continue open_list closed_list).

(** The result of running the loop with a bound on its iterations. *)
Inductive outcome : Type :=
| Returned (r : option (list grid))
| Raised (e : exn)
| OutOfFuel.

Fixpoint solve_loop (fuel : nat) (open_list : list PuzzleNode)
    (closed_list : gset grid) : outcome :=
  match open_list with
  | [] => Returned None
  | _ :: _ =>
      match fuel with
      | O => OutOfFuel
      | S fuel' =>
          match step open_list closed_list with
          | Raise e => Raised e
          | Ok (Done path) => Returned (Some path)
          | Ok (Continue open_list' closed_list') =>
              solve_loop fuel' open_list' closed_list'
          end
      end
  end.

Definition solve_puzzle (fuel : nat) (initial_state : grid) : outcome :=
  match manhattan_distance initial_state with
  | Raise e => Raised e
  | Ok h0 => solve_loop fuel [mkNode initial_state None 0 h0] ∅
  end.

(** The loop state [(open_list, closed_list)] at the head of the [while],
    after [k] complete iterations; [None] when the loop has returned or
    raised before. *)
Fixpoint run_loop (k : nat) (open_list : list PuzzleNode)
    (closed_list : gset grid) : option (list PuzzleNode * gset grid) :=
  match k with
  | O => Some (open_list, closed_list)
  | S k' =>
      match open_list with
      | [] => None
      | _ :: _ =>
          match step open_list closed_list with
          | Ok (Continue open_list' closed_list') => run_loop k' open_list' closed_list'
          | _ => None
          end
      end
  end.

Definition loop_state (k : nat) (initial_state : grid)
    : option (list PuzzleNode * gset grid) :=
  match manhattan_distance initial_state with
  | Raise _ => None
  | Ok h0 => run_loop k [mkNode initial_state None 0 h0] ∅
  end.

(** The module's [if solution:] test on the value [solve_puzzle] returned:
    [None] and the empty list are false, a non-empty list is true. *)
Definition py_truthy (solution : option (list grid)) : bool :=
  match solution with
  | None => false
  | Some [] => false
  | Some (_ :: _) => true
  end.

(** ** The module's script *)

(** [print(row)] for a row of integers: Python's text of a list. *)
Definition py_list_repr (row : list Z) : string :=
  "[" +:+ String.concat ", " (pretty <$> row) +:+ "]".

(** One round of [for step, state in enumerate(solution)]: the lines it
    prints. *)
Definition print_step (step : nat) (state : grid) : list string :=
  ("Step " +:+ pretty (Z.of_nat step + 1) +:+ ":") ::
  (py_list_repr <$> state) ++ [""].



(** * Specification vocabulary *)

(** ** Grids and moves *)

(** A 3x3 grid holding each of 0..8 exactly once. *)
Definition valid_grid (s : grid) : Prop :=
  length s = 3%nat /\ Forall (fun row => length row = 3%nat) s /\
  concat s ≡ₚ [0; 1; 2; 3; 4; 5; 6; 7; 8].

Definition on_board (i j : Z) : Prop := 0 <= i < 3 /\ 0 <= j < 3.

Definition adjacent (i j ni nj : Z) : Prop := Z.abs (i - ni) + Z.abs (j - nj) = 1.

(** [t] is [s] after one legal move: the blank at [(i, j)] and the tile
    [v] at an axis-adjacent cell [(ni, nj)] have changed places, every other
    cell is as it was. *)
Definition is_move (s t : grid) : Prop :=
  exists i j ni nj v,
    on_board i j /\ on_board ni nj /\ adjacent i j ni nj /\
    cell s i j = Ok 0 /\ cell s ni nj = Ok v /\ v ≠ 0 /\
    length t = 3%nat /\ Forall (fun row => length row = 3%nat) t /\
    forall r c, on_board r c ->
      cell t r c =
        if bool_decide ((r, c) = (i, j)) then Ok v
        else if bool_decide ((r, c) = (ni, nj)) then Ok 0
        else cell s r c.

(** [moves_to k s t]: [t] is reached from [s] by [k] legal moves. *)
Inductive moves_to : nat -> grid -> grid -> Prop :=
| moves_to_O s : moves_to 0 s s
| moves_to_S k s t u : is_move s t -> moves_to k t u -> moves_to (S k) s u.

(** Every pair of consecutive grids of [path] is one legal move. *)
Fixpoint legal_path (path : list grid) : Prop :=
  match path with
  | s :: (t :: _) as rest => is_move s t /\ legal_path rest
  | _ => True
  end.

(** A checker for a sequence of grids, by the program's own
    [get_neighbors]. *)
Fixpoint check_path (s : grid) (rest : list grid) : bool :=
  match rest with
  | [] => true
  | t :: rest' =>
      match get_neighbors s with
      | Ok l => bool_decide (t ∈ l) && check_path t rest'
      | Raise _ => false
      end
  end.

(** Number of neighbours by blank position: centre 4, corner 2, edge 3. *)
Definition expected_neighbors (bi bj : Z) : nat :=
  if bool_decide (bi = 1 /\ bj = 1) then 4%nat
  else if bool_decide (bi ≠ 1 /\ bj ≠ 1) then 2%nat
  else 3%nat.

Definition move_in_bounds (bi bj : Z) (m : Z * Z) : bool :=
  in_bounds (bi + m.1) (bj + m.2).

(** ** The heuristic *)

(** What the cell [(i, j)] holding [v] adds to [manhattan_distance]. *)
Definition md_term (v i j : Z) : Z :=
  if bool_decide (v ≠ 0)
  then Z.abs ((v - 1) `div` 3 - i) + Z.abs ((v - 1) `mod` 3 - j)
  else 0.

(** The configuration in which tile [v] sits at [divmod(v - 1, 3)]. *)
Definition standard_goal : grid := [[1; 2; 3]; [4; 5; 6]; [7; 8; 0]].

(** The position of value [v] in [goal], found by scanning [goal] row by
    row. *)
Definition position_in (goal : grid) (v : Z) : option (Z * Z) :=
  head (omap (fun p : Z * Z =>
                match cell goal p.1 p.2 with
                | Ok w => if bool_decide (w = v) then Some p else None
                | Raise _ => None
                end)
             (i ← range3; j ← range3; [(i, j)])).

(** The L1 distance from [(i, j)] to the position of [v] in [goal]; the
    blank adds nothing. *)
Definition l1_term (goal : grid) (v i j : Z) : Z :=
  if bool_decide (v ≠ 0) then
    match position_in goal v with
    | Some (x, y) => Z.abs (x - i) + Z.abs (y - j)
    | None => 0
    end
  else 0.

(** Sum over the non-blank cells of a 3x3 grid of the L1 distance between
    the cell and the position of its value in [goal]. *)
Definition l1_distance_to (goal s : grid) : Z :=
  foldr Z.add 0
    ((fun p : Z * Z =>
        match cell s p.1 p.2 with
        | Ok v => l1_term goal v p.1 p.2
        | Raise _ => 0
        end) <$> (i ← range3; j ← range3; [(i, j)])).

(** ** Heap order *)

Section HeapOrder.
Context {A : Type}.
Variable key : A -> Z.

(** Every element is at least its parent, the element at [(i - 1) / 2]. *)
Definition heap_ok (heap : list A) : Prop :=
  forall i x p, (0 < i)%nat ->
    heap !! i = Some x -> heap !! ((i - 1) / 2)%nat = Some p -> key p <= key x.

(** Heap order at every index but [pos]. *)
Definition heap_but (heap : list A) (pos : nat) : Prop :=
  forall i x p, (0 < i)%nat -> i ≠ pos ->
    heap !! i = Some x -> heap !! ((i - 1) / 2)%nat = Some p -> key p <= key x.

(** Heap order at every index whose parent is not [pos]. *)
Definition heap_below (heap : list A) (pos : nat) : Prop :=
  forall i x p, (0 < i)%nat -> ((i - 1) / 2)%nat ≠ pos ->
    heap !! i = Some x -> heap !! ((i - 1) / 2)%nat = Some p -> key p <= key x.

(** The children of [pos] are not below [bound]. *)
Definition children_ge (heap : list A) (pos : nat) (bound : Z) : Prop :=
  forall c x, (0 < c)%nat -> ((c - 1) / 2)%nat = pos -> heap !! c = Some x ->
    bound <= key x.
End HeapOrder.

(** ** Search nodes and the loop invariant *)

(** [f = g + h], the key [PuzzleNode.__lt__] compares. *)
Definition node_f (n : PuzzleNode) : Z := g n + h n.

(** Nodes the search can create from [init]: the root, and children one
    legal move away from a node already created. *)
Inductive node_ok (init : grid) : PuzzleNode -> Prop :=
| node_ok_root h0 :
    manhattan_distance init = Ok h0 -> node_ok init (mkNode init None 0 h0)
| node_ok_child p t ht :
    node_ok init p -> is_move (state p) t -> manhattan_distance t = Ok ht ->
    node_ok init (mkNode t (Some p) (g p + 1) ht).

Record search_inv (init : grid) (open_list : list PuzzleNode)
    (closed_list : gset grid) : Prop := {
  inv_heap : heap_ok node_f open_list;
  inv_nodes : forall n, n ∈ open_list -> node_ok init n;
  inv_closed : forall c, c ∈ closed_list -> exists k, moves_to k init c;
  inv_goal : goal_state ∉ closed_list;
  inv_init : init ∈ closed_list \/
             exists n, n ∈ open_list /\ state n = init /\ g n = 0;
  inv_front : forall c k t, c ∈ closed_list -> moves_to k init c -> is_move c t ->
              t ∈ closed_list \/
              exists n, n ∈ open_list /\ state n = t /\ g n <= Z.of_nat k + 1
}.

(** What the loop may return when started from [init]: a path of a node
    whose grid is the goal and whose cost no path to the goal beats, or
    [None] when no sequence of moves reaches the goal. *)
Definition result_ok (init : grid) (r : option (list grid)) : Prop :=
  match r with
  | Some path =>
      exists n, node_ok init n /\ state n = goal_state /\
        path = reverse (path_to_root n) /\
        forall k, moves_to k init goal_state -> g n <= Z.of_nat k
  | None => forall k, ~ moves_to k init goal_state
  end.

(** ** Termination measure *)

Definition grid_of_list (l : list Z) : grid :=
  match l with
  | [a; b; c; d; e; f; g; h; i] => [[a; b; c]; [d; e; f]; [g; h; i]]
  | _ => []
  end.

(** Every valid grid, as a finite set. *)
Definition all_grids : gset grid :=
  list_to_set (grid_of_list <$> permutations [0; 1; 2; 3; 4; 5; 6; 7; 8]).

(** Valid grids not explored yet. *)
Definition unexplored (closed_list : gset grid) : nat :=
  size (all_grids ∖ closed_list).

(** Frontier nodes whose grid is explored already. *)
Definition stale (open_list : list PuzzleNode) (closed_list : gset grid) : nat :=
  length (filter (fun n => state n ∈ closed_list) open_list).

(** ** Grids of any content *)

(** A 3x3 grid holding the cells of [init], rearranged. *)
Definition rearranged (init t : grid) : Prop :=
  length t = 3%nat /\ Forall (fun row => length row = 3%nat) t /\
  concat t ≡ₚ concat init.

(** The 3x3 grids made of the cells of [init], as a finite set. *)
Definition rearrangements (init : grid) : gset grid :=
  list_to_set (grid_of_list <$> permutations (concat init)).

(** ** Solvability *)

(** Parity of the number of inversions of [l]. *)
Fixpoint inv_parity (l : list Z) : bool :=
  match l with
  | [] => false
  | x :: r => xorb (foldr (fun y acc => xorb (y <? x) acc) false r) (inv_parity r)
  end.

(** The tiles of a grid in reading order, the blank left out. *)
Definition tiles (s : grid) : list Z := filter (fun x => x ≠ 0) (concat s).

Definition grid_parity (s : grid) : bool := inv_parity (tiles s).

(** The arrangements of 0..8 whose tiles have inversion parity [p]. *)
Definition lists_of_parity (p : bool) : list (list Z) :=
  filter (fun l => inv_parity (filter (fun x => x ≠ 0) l) = p)
         (permutations [0; 1; 2; 3; 4; 5; 6; 7; 8]).

(** The valid grids of inversion parity [p]. *)
Definition grids_of_parity (p : bool) : list grid :=
  grid_of_list <$> lists_of_parity p.

(** The number of lists of [ls] of parity [p], counted in [Z]. *)
Definition count_parity (p : bool) (ls : list (list Z)) : Z :=
  foldr (fun l acc =>
           if bool_decide (inv_parity (filter (fun x => x ≠ 0) l) = p)
           then 1 + acc else acc) 0 ls.

(** The goal with tiles 2 and 3 exchanged: a valid grid from which the goal
    cannot be reached. *)
Definition unsolvable_state : grid := [[3; 2; 4]; [7; 0; 1]; [8; 5; 6]].

(** A valid grid whose run pops, in its 13th iteration, a node whose grid
    is explored already. *)
Definition duplicate_start : grid := [[0; 4; 3]; [2; 1; 6]; [7; 8; 5]].

(** A 3x3 grid that is not a permutation of 0..8. *)
Definition repeated_tiles : grid := [[1; 1; 1]; [1; 0; 1]; [1; 1; 1]].

(** A sequence of 18 moves from the module's initial grid to its goal. *)
Definition initial_to_goal : list grid :=
  [[[2; 1; 7]; [8; 4; 6]; [3; 0; 5]]; [[2; 1; 7]; [8; 4; 6]; [3; 5; 0]];
   [[2; 1; 7]; [8; 4; 0]; [3; 5; 6]]; [[2; 1; 0]; [8; 4; 7]; [3; 5; 6]];
   [[2; 0; 1]; [8; 4; 7]; [3; 5; 6]]; [[2; 4; 1]; [8; 0; 7]; [3; 5; 6]];
   [[2; 4; 1]; [8; 7; 0]; [3; 5; 6]]; [[2; 4; 1]; [8; 7; 6]; [3; 5; 0]];
   [[2; 4; 1]; [8; 7; 6]; [3; 0; 5]]; [[2; 4; 1]; [8; 7; 6]; [0; 3; 5]];
   [[2; 4; 1]; [0; 7; 6]; [8; 3; 5]]; [[2; 4; 1]; [7; 0; 6]; [8; 3; 5]];
   [[2; 4; 1]; [7; 3; 6]; [8; 0; 5]]; [[2; 4; 1]; [7; 3; 6]; [8; 5; 0]];
   [[2; 4; 1]; [7; 3; 0]; [8; 5; 6]]; [[2; 4; 0]; [7; 3; 1]; [8; 5; 6]];
   [[2; 0; 4]; [7; 3; 1]; [8; 5; 6]]; [[2; 3; 4]; [7; 0; 1]; [8; 5; 6]]].

(** ** Enumerating the grids from which the goal is reached *)

(** A number for a grid, the key under which the enumeration stores it. *)
Definition grid_code (s : grid) : positive :=
  foldl (fun acc v => (acc * 9 + Z.to_pos (v + 1))%positive) 1%positive (concat s).

(** Breadth-first enumeration by the program's own [get_neighbors]:
    [visited] maps the code of a grid found to the grid, the first component
    collects the grids found for the first time. *)
Definition bfs_visit (acc : list grid * Pmap grid) (t : grid) : list grid * Pmap grid :=
  match acc.2 !! grid_code t with
  | Some _ => acc
  | None => (t :: acc.1, <[grid_code t := t]> acc.2)
  end.

Definition bfs_expand (acc : list grid * Pmap grid) (s : grid) : list grid * Pmap grid :=
  match get_neighbors s with
  | Ok ns => foldl bfs_visit acc ns
  | Raise _ => acc
  end.

Fixpoint bfs (fuel : nat) (frontier : list grid) (visited : Pmap grid) : Pmap grid :=
  match fuel with
  | O => visited
  | S fuel' =>
      match frontier with
      | [] => visited
      | _ :: _ =>
          let '(next, visited') := foldl bfs_expand ([], visited) frontier in
          bfs fuel' next visited'
      end
  end.

(** The grids found within 30 rounds from the goal. *)
Definition goal_reach : Pmap grid :=
  bfs 30 [goal_state] {[grid_code goal_state := goal_state]}.

(** Every grid of [l] is stored in [visited]. *)
Definition covers (visited : Pmap grid) (l : list grid) : bool :=
  forallb (fun s => bool_decide (visited !! grid_code s = Some s)) l.

(** [t] is a valid grid at most [d] moves away from the goal. *)
Definition within (d : nat) (t : grid) : Prop :=
  valid_grid t /\ exists k, (k <= d)%nat /\ moves_to k goal_state t.

(** ** Observing a run *)

(** The frontier, the explored set and the node about to be popped after
    [k] iterations. *)
Definition frontier_at (k : nat) (init : grid) : list PuzzleNode :=
  match loop_state k init with
  | Some (open_list, _) => open_list
  | None => []
  end.

Definition explored_at (k : nat) (init : grid) : gset grid :=
  match loop_state k init with
  | Some (_, closed_list) => closed_list
  | None => ∅
  end.

Definition popped_at (k : nat) (init : grid) : option (PuzzleNode * list PuzzleNode) :=
  match heappop node_lt (frontier_at k init) with
  | Ok p => Some p
  | Raise _ => None
  end.

(** * Verification *)

(** Arithmetic with the parent index [(i - 1) / 2]. *)
Ltac div2_lia :=
  repeat match goal with
  | |- context [(?a / 2)%nat] =>
      pose proof (Nat.div_mod_eq a 2); pose proof (Nat.mod_upper_bound a 2);
      generalize dependent (a / 2)%nat; generalize dependent (a mod 2)%nat; intros
  | H : context [(?a / 2)%nat] |- _ =>
      pose proof (Nat.div_mod_eq a 2); pose proof (Nat.mod_upper_bound a 2);
      generalize dependent (a / 2)%nat; generalize dependent (a mod 2)%nat; intros
  end; lia.

(** ** heapq keeps the heap order and the elements *)

Section HeapqFacts.
Context {A : Type}.
Variable lt : A -> A -> bool.
Variable key : A -> Z.
Hypothesis lt_key : forall a b, lt a b = bool_decide (key a < key b)%Z.

Lemma insert_swap_perm (heap : list A) (i j : nat) (q n : A) :
  heap !! j = Some q -> i ≠ j -> (i < length heap)%nat ->
  <[j := n]> (<[i := q]> heap) ≡ₚ <[i := n]> heap.
Proof.
  intros Hj Hij Hi.
  rewrite <- (list_insert_insert_eq heap i q n).
  apply Permutation_insert_swap.
  - by apply list_lookup_insert_eq.
  - by rewrite list_lookup_insert_ne.
Qed.

Lemma siftdown_loop_length fuel : forall (heap : list A) newitem startpos pos,
  length (_siftdown_loop lt fuel heap newitem startpos pos) = length heap.
Proof.
  induction fuel as [|fuel IH]; intros heap newitem startpos pos; simpl.
  - by rewrite length_insert.
  - case_bool_decide; [|by rewrite length_insert].
    destruct (heap !! _) as [p|]; [|by rewrite length_insert].
    destruct (lt newitem p); [|by rewrite length_insert].
    by rewrite IH, length_insert.
Qed.

(** More fuel than [pos] changes nothing: the loop of [_siftdown] is never
    cut short. *)
Lemma siftdown_loop_fuel fuel : forall (heap : list A) newitem startpos pos,
  (pos <= fuel)%nat ->
  _siftdown_loop lt (S fuel) heap newitem startpos pos =
  _siftdown_loop lt fuel heap newitem startpos pos.
Proof.
  induction fuel as [|fuel IH]; intros heap newitem startpos pos Hle.
  - assert (pos = 0)%nat as -> by lia. cbn [_siftdown_loop].
    by rewrite bool_decide_false by lia.
  - change (_siftdown_loop lt (S (S fuel)) heap newitem startpos pos) with
      (if bool_decide (startpos < pos)%nat then
         match heap !! ((pos - 1) / 2)%nat with
         | Some parent =>
             if lt newitem parent
             then _siftdown_loop lt (S fuel) (<[pos := parent]> heap) newitem
                    startpos ((pos - 1) / 2)%nat
             else <[pos := newitem]> heap
         | None => <[pos := newitem]> heap
         end
       else <[pos := newitem]> heap).
    change (_siftdown_loop lt (S fuel) heap newitem startpos pos) with
      (if bool_decide (startpos < pos)%nat then
         match heap !! ((pos - 1) / 2)%nat with
         | Some parent =>
             if lt newitem parent
             then _siftdown_loop lt fuel (<[pos := parent]> heap) newitem
                    startpos ((pos - 1) / 2)%nat
             else <[pos := newitem]> heap
         | None => <[pos := newitem]> heap
         end
       else <[pos := newitem]> heap).
    case_bool_decide as Hlt; [|done].
    destruct (heap !! _) as [parent|]; [|done].
    destruct (lt newitem parent); [|done].
    apply IH. div2_lia.
Qed.

Lemma siftdown_loop_perm fuel : forall (heap : list A) newitem startpos pos,
  (pos < length heap)%nat ->
  _siftdown_loop lt fuel heap newitem startpos pos ≡ₚ <[pos := newitem]> heap.
Proof.
  induction fuel as [|fuel IH]; intros heap newitem startpos pos Hpos; simpl; [done|].
  case_bool_decide as Hlt; [|done].
  destruct (heap !! _) as [p|] eqn:Hp; [|done].
  destruct (lt newitem p); [|done].
  rewrite IH by (rewrite length_insert; div2_lia).
  apply insert_swap_perm; [done| div2_lia | done].
Qed.

Lemma siftdown_loop_heap fuel : forall (heap : list A) newitem pos,
  (pos <= fuel)%nat -> (pos < length heap)%nat ->
  heap_but key heap pos ->
  children_ge key heap pos (key newitem) ->
  (forall p, (0 < pos)%nat -> heap !! ((pos - 1) / 2)%nat = Some p ->
     children_ge key heap pos (key p)) ->
  heap_ok key (_siftdown_loop lt fuel heap newitem 0 pos).
Proof.
  induction fuel as [|fuel IH]; intros heap newitem pos Hfuel Hpos Hbut Hch Hgr; simpl.
  - assert (pos = 0)%nat as -> by lia.
    intros i x p Hi Hx Hp.
    rewrite list_lookup_insert_ne in Hx by lia.
    destruct (decide ((i - 1) / 2 = 0)%nat) as [E|E].
    + rewrite E in Hp. rewrite list_lookup_insert_eq in Hp by done.
      simplify_eq. by eapply Hch.
    + rewrite list_lookup_insert_ne in Hp by done.
      eapply Hbut; [| |exact Hx|exact Hp]; lia.
  - case_bool_decide as Hlt.
    + destruct (lookup_lt_is_Some_2 heap ((pos - 1) / 2)%nat) as [q Hq]; [div2_lia|].
      rewrite Hq. rewrite lt_key. case_bool_decide as Hk.
      * apply IH.
        -- div2_lia.
        -- rewrite length_insert. div2_lia.
        -- intros i x p Hi Hne Hx Hp.
           destruct (decide (i = pos)) as [->|Hip].
           ++ rewrite list_lookup_insert_eq in Hx by done.
              rewrite list_lookup_insert_ne in Hp by div2_lia.
              simplify_eq. lia.
           ++ rewrite list_lookup_insert_ne in Hx by done.
              destruct (decide ((i - 1) / 2 = pos)%nat) as [E|E].
              ** rewrite E in Hp. rewrite list_lookup_insert_eq in Hp by done.
                 assert (p = q) as -> by congruence. apply (Hgr _ ltac:(lia) Hq i x Hi E Hx).
              ** rewrite list_lookup_insert_ne in Hp by done.
                 eapply Hbut; [| |exact Hx|exact Hp]; done.
        -- intros c x Hc Hpar Hx.
           destruct (decide (c = pos)) as [->|Hcp].
           ++ rewrite list_lookup_insert_eq in Hx by done. simplify_eq. lia.
           ++ rewrite list_lookup_insert_ne in Hx by done.
              assert (key q <= key x)%Z; [|lia].
              eapply Hbut; [| |exact Hx|]; [lia|done|]. by rewrite Hpar.
        -- intros p Hpp Hp c x Hc Hpar Hx.
           rewrite list_lookup_insert_ne in Hp by div2_lia.
           assert (key p <= key q)%Z as Hpq.
           { eapply Hbut; [| |exact Hq|exact Hp]; [lia|div2_lia]. }
           destruct (decide (c = pos)) as [->|Hcp].
           ++ rewrite list_lookup_insert_eq in Hx by done. simplify_eq. lia.
           ++ rewrite list_lookup_insert_ne in Hx by done.
              assert (key q <= key x)%Z; [|lia].
              eapply Hbut; [| |exact Hx|]; [lia|done|]. by rewrite Hpar.
      * intros i x p Hi Hx Hp.
        destruct (decide (i = pos)) as [->|Hip].
        -- rewrite list_lookup_insert_eq in Hx by done.
           rewrite list_lookup_insert_ne in Hp by div2_lia.
           simplify_eq. lia.
        -- rewrite list_lookup_insert_ne in Hx by done.
           destruct (decide ((i - 1) / 2 = pos)%nat) as [E|E].
           ++ rewrite E in Hp. rewrite list_lookup_insert_eq in Hp by done.
              simplify_eq. by eapply Hch.
           ++ rewrite list_lookup_insert_ne in Hp by done.
              eapply Hbut; [| |exact Hx|exact Hp]; done.
    + assert (pos = 0)%nat as -> by lia.
      intros i x p Hi Hx Hp.
      rewrite list_lookup_insert_ne in Hx by lia.
      destruct (decide ((i - 1) / 2 = 0)%nat) as [E|E].
      * rewrite E in Hp. rewrite list_lookup_insert_eq in Hp by done.
        simplify_eq. by eapply Hch.
      * rewrite list_lookup_insert_ne in Hp by done.
        eapply Hbut; [| |exact Hx|exact Hp]; lia.
Qed.

Lemma siftup_loop_S fuel (heap : list A) pos :
  _siftup_loop lt (S fuel) heap pos =
  if bool_decide (2 * pos + 1 < length heap)%nat then
    match heap !! (match heap !! (2 * pos + 1)%nat, heap !! (2 * pos + 1 + 1)%nat with
                   | Some l, Some r => if negb (lt l r) then (2 * pos + 1 + 1)%nat
                                       else (2 * pos + 1)%nat
                   | _, _ => (2 * pos + 1)%nat
                   end) with
    | Some c => _siftup_loop lt fuel (<[pos := c]> heap)
                  (match heap !! (2 * pos + 1)%nat, heap !! (2 * pos + 1 + 1)%nat with
                   | Some l, Some r => if negb (lt l r) then (2 * pos + 1 + 1)%nat
                                       else (2 * pos + 1)%nat
                   | _, _ => (2 * pos + 1)%nat
                   end)
    | None => (heap, pos)
    end
  else (heap, pos).
Proof. reflexivity. Qed.

(** More fuel than [length heap - pos] changes nothing: the loop of
    [_siftup] is never cut short. *)
Lemma siftup_loop_fuel fuel : forall (heap : list A) pos,
  (length heap - pos <= fuel)%nat ->
  _siftup_loop lt (S fuel) heap pos = _siftup_loop lt fuel heap pos.
Proof.
  induction fuel as [|fuel IH]; intros heap pos Hle.
  - rewrite siftup_loop_S. by rewrite bool_decide_false by lia.
  - rewrite (siftup_loop_S (S fuel)), (siftup_loop_S fuel).
    case_bool_decide as Hlt; [|done].
    destruct (heap !! (2 * pos + 1)%nat) as [l|] eqn:Hl.
    2:{ apply lookup_ge_None in Hl. lia. }
    destruct (heap !! (2 * pos + 1 + 1)%nat) as [r|] eqn:Hr.
    + destruct (negb (lt l r)).
      * rewrite Hr. apply IH. rewrite length_insert. lia.
      * rewrite Hl. apply IH. rewrite length_insert. lia.
    + rewrite Hl. apply IH. rewrite length_insert. lia.
Qed.

Lemma siftup_loop_spec fuel : forall (heap : list A) pos heap' leaf,
  _siftup_loop lt fuel heap pos = (heap', leaf) ->
  (length heap - pos <= fuel)%nat -> (pos < length heap)%nat ->
  heap_below key heap pos ->
  (forall p, (0 < pos)%nat -> heap !! ((pos - 1) / 2)%nat = Some p ->
     children_ge key heap pos (key p)) ->
  length heap' = length heap /\ (leaf < length heap)%nat /\
  (length heap <= 2 * leaf + 1)%nat /\
  heap_below key heap' leaf /\
  (forall n, <[leaf := n]> heap' ≡ₚ <[pos := n]> heap).
Proof.
  induction fuel as [|fuel IH]; intros heap pos heap' leaf Hrun Hfuel Hpos Hbelow Hgr;
    [lia|].
  rewrite siftup_loop_S in Hrun. case_bool_decide as Hchild.
  2:{ inversion Hrun; subst. repeat split; try done; lia. }
  destruct (lookup_lt_is_Some_2 heap (2 * pos + 1)%nat) as [l Hl]; [lia|].
  set (childpos' := match heap !! (2 * pos + 1)%nat, heap !! (2 * pos + 1 + 1)%nat with
                    | Some l, Some r => if negb (lt l r) then (2 * pos + 1 + 1)%nat
                                        else (2 * pos + 1)%nat
                    | _, _ => (2 * pos + 1)%nat
                    end) in *.
  assert (exists c, heap !! childpos' = Some c /\
            (childpos' = 2 * pos + 1 \/ childpos' = 2 * pos + 2)%nat /\
            forall i x, (i = 2 * pos + 1 \/ i = 2 * pos + 2)%nat ->
              heap !! i = Some x -> (key c <= key x)%Z) as (c & Hc & Hcp & Hmin).
  { subst childpos'. rewrite Hl.
    destruct (heap !! (2 * pos + 1 + 1)%nat) as [r|] eqn:Hr.
    - rewrite lt_key. case_bool_decide as Hk; cbn [negb].
      + exists l. split; [done|]. split; [lia|].
        intros i x [->| ->] Hx.
        * assert (x = l) as -> by congruence. lia.
        * replace (2 * pos + 2)%nat with (2 * pos + 1 + 1)%nat in Hx by lia.
          assert (x = r) as -> by congruence. lia.
      + exists r. split; [done|]. split; [lia|].
        intros i x [->| ->] Hx.
        * assert (x = l) as -> by congruence. lia.
        * replace (2 * pos + 2)%nat with (2 * pos + 1 + 1)%nat in Hx by lia.
          assert (x = r) as -> by congruence. lia.
    - exists l. split; [done|]. split; [lia|].
      intros i x [->| ->] Hx.
      + assert (x = l) as -> by congruence. lia.
      + replace (2 * pos + 2)%nat with (2 * pos + 1 + 1)%nat in Hx by lia.
        congruence. }
  rewrite Hc in Hrun.
  apply IH in Hrun.
  - destruct Hrun as (Hlen & Hleaf & Hend & Hb & Hperm).
    rewrite length_insert in Hlen, Hleaf, Hend.
    repeat split; try done.
    intros n. rewrite Hperm.
    apply insert_swap_perm; [done|lia|done].
  - rewrite length_insert. lia.
  - rewrite length_insert. apply lookup_lt_Some in Hc. done.
  - intros i x p Hi Hne Hx Hp.
    destruct (decide (i = pos)) as [->|Hip].
    + rewrite list_lookup_insert_eq in Hx by done.
      rewrite list_lookup_insert_ne in Hp by div2_lia.
      assert (x = c) as -> by congruence.
      eapply (Hgr p Hi Hp childpos'); [lia|div2_lia|done].
    + rewrite list_lookup_insert_ne in Hx by done.
      destruct (decide ((i - 1) / 2 = pos)%nat) as [E|E].
      * rewrite E in Hp. rewrite list_lookup_insert_eq in Hp by done.
        assert (p = c) as -> by congruence.
        apply (Hmin i); [div2_lia|done].
      * rewrite list_lookup_insert_ne in Hp by done.
        by eapply Hbelow.
  - intros p Hcpos Hp i x Hi Hpar Hx.
    replace ((childpos' - 1) / 2)%nat with pos in Hp by div2_lia.
    rewrite list_lookup_insert_eq in Hp by done.
    assert (p = c) as -> by congruence.
    rewrite list_lookup_insert_ne in Hx by div2_lia.
    eapply Hbelow; [exact Hi| |exact Hx|by rewrite Hpar]. lia.
Qed.

Lemma heap_ok_root (heap : list A) (r : A) :
  heap_ok key heap -> heap !! 0%nat = Some r ->
  forall i x, heap !! i = Some x -> (key r <= key x)%Z.
Proof.
  intros Hok Hr i. induction (lt_wf i) as [i _ IH]. intros x Hx.
  destruct (decide (i = 0)%nat) as [->|Hi]; [by simplify_eq|].
  destruct (lookup_lt_is_Some_2 heap ((i - 1) / 2)%nat) as [p Hp].
  { apply lookup_lt_Some in Hx. div2_lia. }
  assert (key r <= key p)%Z by (eapply (IH ((i - 1) / 2)%nat); [div2_lia|done]).
  assert (key p <= key x)%Z by (eapply Hok; [|done..]; lia).
  lia.
Qed.

Lemma siftdown_leaf_heap (heap : list A) (leaf : nat) (newitem : A) :
  (leaf < length heap)%nat -> (length heap <= 2 * leaf + 1)%nat ->
  heap_but key heap leaf ->
  heap_ok key (_siftdown lt (<[leaf := newitem]> heap) 0 leaf).
Proof.
  intros Hleaf Hend Hbut. unfold _siftdown.
  rewrite list_lookup_insert_eq by done.
  apply siftdown_loop_heap; [done|by rewrite length_insert|..].
  - intros i x p Hi Hne Hx Hp.
    rewrite list_lookup_insert_ne in Hx by done.
    destruct (decide ((i - 1) / 2 = leaf)%nat) as [E|E].
    + apply lookup_lt_Some in Hx. div2_lia.
    + rewrite list_lookup_insert_ne in Hp by done. by eapply Hbut.
  - intros c x Hc Hpar Hx. apply lookup_lt_Some in Hx.
    rewrite length_insert in Hx. div2_lia.
  - intros p _ _ c x Hc Hpar Hx. apply lookup_lt_Some in Hx.
    rewrite length_insert in Hx. div2_lia.
Qed.

Lemma siftdown_leaf_perm (heap : list A) (leaf : nat) (newitem : A) :
  (leaf < length heap)%nat ->
  _siftdown lt (<[leaf := newitem]> heap) 0 leaf ≡ₚ <[leaf := newitem]> heap.
Proof.
  intros Hleaf. unfold _siftdown. rewrite list_lookup_insert_eq by done.
  rewrite siftdown_loop_perm by (by rewrite length_insert).
  by rewrite list_insert_insert_eq.
Qed.

Lemma heappush_perm (heap : list A) (item : A) :
  heappush lt heap item ≡ₚ item :: heap.
Proof.
  unfold heappush.
  replace (heap ++ [item]) with (<[length heap := item]> (heap ++ [item])) at 1.
  2:{ rewrite insert_app_r_alt by lia. by rewrite Nat.sub_diag. }
  replace (length (heap ++ [item]) - 1)%nat with (length heap)
    by (rewrite length_app; simpl; lia).
  rewrite siftdown_leaf_perm by (rewrite length_app; simpl; lia).
  rewrite insert_app_r_alt by lia. rewrite Nat.sub_diag. simpl.
  by rewrite Permutation_app_comm.
Qed.

Lemma heappush_heap (heap : list A) (item : A) :
  heap_ok key heap -> heap_ok key (heappush lt heap item).
Proof.
  intros Hok. unfold heappush.
  replace (heap ++ [item]) with (<[length heap := item]> (heap ++ [item])) at 1.
  2:{ rewrite insert_app_r_alt by lia. by rewrite Nat.sub_diag. }
  replace (length (heap ++ [item]) - 1)%nat with (length heap)
    by (rewrite length_app; simpl; lia).
  apply siftdown_leaf_heap; [rewrite length_app; simpl; lia..|].
  intros i x p Hi Hne Hx Hp.
  assert ((i - 1) / 2 < length heap)%nat as Hlt.
  { apply lookup_lt_Some in Hx. rewrite length_app in Hx. simpl in Hx.
    clear Hp. div2_lia. }
  rewrite lookup_app_l in Hp by done.
  destruct (decide (i < length heap)%nat) as [Hin|Hout].
  - rewrite lookup_app_l in Hx by done. by eapply Hok.
  - apply lookup_lt_Some in Hx. rewrite length_app in Hx. simpl in Hx. lia.
Qed.

Lemma siftup_root_spec (newitem : A) (t : list A) :
  heap_below key (newitem :: t) 0 ->
  _siftup lt (newitem :: t) 0 ≡ₚ newitem :: t /\
  heap_ok key (_siftup lt (newitem :: t) 0).
Proof.
  intros Hb. unfold _siftup.
  change ((newitem :: t) !! 0%nat) with (Some newitem).
  destruct (_siftup_loop lt (length (newitem :: t)) (newitem :: t) 0)
    as [heap' leaf] eqn:Hrun.
  apply siftup_loop_spec in Hrun; [|lia|simpl; lia|done|intros; lia].
  destruct Hrun as (Hlen & Hleaf & Hend & Hbelow & Hperm).
  split.
  - rewrite siftdown_leaf_perm by lia. by rewrite Hperm.
  - apply siftdown_leaf_heap; [lia..|].
    intros i x p Hi Hil Hx Hp.
    destruct (decide ((i - 1) / 2 = leaf)%nat) as [E|E].
    + apply lookup_lt_Some in Hx. div2_lia.
    + by eapply Hbelow.
Qed.

Lemma heappop_spec (heap : list A) :
  heap_ok key heap -> heap ≠ [] ->
  exists x rest, heappop lt heap = Ok (x, rest) /\
    heap ≡ₚ x :: rest /\ heap_ok key rest /\
    (forall y, y ∈ heap -> (key x <= key y)%Z).
Proof.
  intros Hok Hne. unfold heappop.
  destruct (last heap) as [lastelt|] eqn:Hlast.
  2:{ apply last_None in Hlast. done. }
  apply last_Some in Hlast as [front ->].
  rewrite removelast_last.
  destruct front as [|ret t].
  - exists lastelt, []. repeat split; [done| |].
    + intros i x p Hi Hx. by destruct i.
    + intros y Hy. apply list_elem_of_singleton in Hy as ->. lia.
  - change (<[0%nat := lastelt]> (ret :: t)) with (lastelt :: t).
    eexists ret, _. split; [done|].
    assert (forall y, y ∈ (ret :: t) ++ [lastelt] -> (key ret <= key y)%Z) as Hmin.
    { intros y Hy. apply list_elem_of_lookup in Hy as [i Hi].
      by eapply (heap_ok_root _ ret Hok). }
    destruct (siftup_root_spec lastelt t) as [Hperm Hheap].
    { intros i x p Hi Hpar Hx Hp.
      destruct i as [|i]; [lia|].
      destruct ((S i - 1) / 2)%nat as [|j] eqn:Hj; [done|].
      change ((lastelt :: t) !! S i) with (t !! i) in Hx.
      change ((lastelt :: t) !! S j) with (t !! j) in Hp.
      eapply (Hok (S i) x p); [lia|..].
      - change (((ret :: t) ++ [lastelt]) !! S i) with ((t ++ [lastelt]) !! i).
        rewrite lookup_app_l; [done|]. by eapply lookup_lt_Some.
      - rewrite Hj.
        change (((ret :: t) ++ [lastelt]) !! S j) with ((t ++ [lastelt]) !! j).
        rewrite lookup_app_l; [done|]. by eapply lookup_lt_Some. }
    repeat split; [|done..].
    rewrite Hperm. simpl. apply perm_skip.
    symmetry. apply Permutation_cons_append.
Qed.
End HeapqFacts.

(** ** Grids, moves and the heuristic *)

Lemma valid_grid_shape s :
  valid_grid s ->
  exists a b c d e f g h i,
    s = [[a; b; c]; [d; e; f]; [g; h; i]] /\
    [a; b; c; d; e; f; g; h; i] ≡ₚ [0; 1; 2; 3; 4; 5; 6; 7; 8].
Proof.
  intros (Hlen & Hrows & Hperm).
  destruct s as [|r1 [|r2 [|r3 [|]]]]; try discriminate.
  apply Forall_cons in Hrows as [H1 Hrows].
  apply Forall_cons in Hrows as [H2 Hrows].
  apply Forall_cons in Hrows as [H3 _].
  destruct r1 as [|a [|b [|c [|]]]]; try discriminate.
  destruct r2 as [|d [|e [|f [|]]]]; try discriminate.
  destruct r3 as [|g [|h [|i [|]]]]; try discriminate.
  by exists a, b, c, d, e, f, g, h, i.
Qed.

Lemma shape_3x3 (s : grid) :
  length s = 3%nat -> Forall (fun row => length row = 3%nat) s ->
  exists a b c d e f g h i, s = [[a; b; c]; [d; e; f]; [g; h; i]].
Proof.
  intros Hlen Hrows.
  destruct s as [|r1 [|r2 [|r3 [|]]]]; try discriminate.
  apply Forall_cons in Hrows as [H1 Hrows].
  apply Forall_cons in Hrows as [H2 Hrows].
  apply Forall_cons in Hrows as [H3 _].
  destruct r1 as [|a [|b [|c [|]]]]; try discriminate.
  destruct r2 as [|d [|e [|f [|]]]]; try discriminate.
  destruct r3 as [|g [|h [|i [|]]]]; try discriminate.
  by exists a, b, c, d, e, f, g, h, i.
Qed.

Section Grid3.
Variables a b c d e f g h i : Z.

Lemma cell_00 : cell [[a; b; c]; [d; e; f]; [g; h; i]] 0 0 = Ok a. Proof. reflexivity. Qed.
Lemma cell_01 : cell [[a; b; c]; [d; e; f]; [g; h; i]] 0 1 = Ok b. Proof. reflexivity. Qed.
Lemma cell_02 : cell [[a; b; c]; [d; e; f]; [g; h; i]] 0 2 = Ok c. Proof. reflexivity. Qed.
Lemma cell_10 : cell [[a; b; c]; [d; e; f]; [g; h; i]] 1 0 = Ok d. Proof. reflexivity. Qed.
Lemma cell_11 : cell [[a; b; c]; [d; e; f]; [g; h; i]] 1 1 = Ok e. Proof. reflexivity. Qed.
Lemma cell_12 : cell [[a; b; c]; [d; e; f]; [g; h; i]] 1 2 = Ok f. Proof. reflexivity. Qed.
Lemma cell_20 : cell [[a; b; c]; [d; e; f]; [g; h; i]] 2 0 = Ok g. Proof. reflexivity. Qed.
Lemma cell_21 : cell [[a; b; c]; [d; e; f]; [g; h; i]] 2 1 = Ok h. Proof. reflexivity. Qed.
Lemma cell_22 : cell [[a; b; c]; [d; e; f]; [g; h; i]] 2 2 = Ok i. Proof. reflexivity. Qed.

Lemma manhattan_distance_3x3 :
  manhattan_distance [[a; b; c]; [d; e; f]; [g; h; i]] =
  Ok (0 + md_term a 0 0 + md_term b 0 1 + md_term c 0 2
        + md_term d 1 0 + md_term e 1 1 + md_term f 1 2
        + md_term g 2 0 + md_term h 2 1 + md_term i 2 2).
Proof.
  assert (forall v r k acc, cell [[a; b; c]; [d; e; f]; [g; h; i]] r k = Ok v ->
            manhattan_cell [[a; b; c]; [d; e; f]; [g; h; i]] r k acc = Ok (acc + md_term v r k)) as Hcell.
  { intros v r k acc Hv. unfold manhattan_cell, md_term. rewrite Hv. simpl.
    case_bool_decide; [done|]. f_equal. lia. }
  unfold manhattan_distance, range3. cbn [for_fold].
  rewrite (Hcell a 0 0) by done. cbn [mbind result_bind].
  rewrite (Hcell b 0 1) by done. cbn [mbind result_bind].
  rewrite (Hcell c 0 2) by done. cbn [mbind result_bind].
  rewrite (Hcell d 1 0) by done. cbn [mbind result_bind].
  rewrite (Hcell e 1 1) by done. cbn [mbind result_bind].
  rewrite (Hcell f 1 2) by done. cbn [mbind result_bind].
  rewrite (Hcell g 2 0) by done. cbn [mbind result_bind].
  rewrite (Hcell h 2 1) by done. cbn [mbind result_bind].
  rewrite (Hcell i 2 2) by done. cbn [mbind result_bind].
  done.
Qed.
End Grid3.

Lemma on_board_cases i j :
  on_board i j -> (i = 0 \/ i = 1 \/ i = 2) /\ (j = 0 \/ j = 1 \/ j = 2).
Proof. unfold on_board. lia. Qed.

(** Splits a goal about board positions [(i, j)] and [(ni, nj)] into the
    24 adjacent pairs. *)
Ltac board_cases Hb Hn Hadj :=
  apply on_board_cases in Hb as [[-> | [-> | ->]] [-> | [-> | ->]]];
  apply on_board_cases in Hn as [[-> | [-> | ->]] [-> | [-> | ->]]];
  try (exfalso; unfold adjacent in Hadj; clear - Hadj; lia).

Lemma NoDup_9 (a b c d e f g h i : Z) :
  NoDup [a; b; c; d; e; f; g; h; i] ->
  (a ≠ b /\ a ≠ c /\ a ≠ d /\ a ≠ e /\ a ≠ f /\ a ≠ g /\ a ≠ h /\ a ≠ i) /\
  (b ≠ c /\ b ≠ d /\ b ≠ e /\ b ≠ f /\ b ≠ g /\ b ≠ h /\ b ≠ i) /\
  (c ≠ d /\ c ≠ e /\ c ≠ f /\ c ≠ g /\ c ≠ h /\ c ≠ i) /\
  (d ≠ e /\ d ≠ f /\ d ≠ g /\ d ≠ h /\ d ≠ i) /\
  (e ≠ f /\ e ≠ g /\ e ≠ h /\ e ≠ i) /\
  (f ≠ g /\ f ≠ h /\ f ≠ i) /\ (g ≠ h /\ g ≠ i) /\ h ≠ i.
Proof.
  intros Hnd.
  repeat (apply NoDup_cons in Hnd as [?%not_elem_of_cons Hnd]).
  repeat match goal with
         | H : _ ∉ _ :: _ |- _ => apply not_elem_of_cons in H
         | H : _ /\ _ |- _ => destruct H
         end.
  repeat split; assumption.
Qed.

Lemma swap_cells_spec (a b c d e f g h i : Z) (bi bj ni nj : Z) :
  let s := [[a; b; c]; [d; e; f]; [g; h; i]] in
  on_board bi bj -> on_board ni nj -> adjacent bi bj ni nj ->
  exists a' b' c' d' e' f' g' h' i',
    swap_cells s bi bj ni nj = Ok [[a'; b'; c']; [d'; e'; f']; [g'; h'; i']] /\
    [a'; b'; c'; d'; e'; f'; g'; h'; i'] ≡ₚ [a; b; c; d; e; f; g; h; i] /\
    forall r k, on_board r k ->
      cell [[a'; b'; c']; [d'; e'; f']; [g'; h'; i']] r k =
        if bool_decide ((r, k) = (bi, bj)) then cell s ni nj
        else if bool_decide ((r, k) = (ni, nj)) then cell s bi bj
        else cell s r k.
Proof.
  intros s Hb Hn Hadj. subst s.
  board_cases Hb Hn Hadj;
    (do 9 eexists; split; [reflexivity|]; split; [solve_Permutation|];
     intros r k Hrk;
     apply on_board_cases in Hrk as [[-> | [-> | ->]] [-> | [-> | ->]]];
     reflexivity).
Qed.

Lemma cells_3x3_eq (a b c d e f g h i a' b' c' d' e' f' g' h' i' : Z) :
  (forall r k, on_board r k ->
     cell [[a; b; c]; [d; e; f]; [g; h; i]] r k =
     cell [[a'; b'; c']; [d'; e'; f']; [g'; h'; i']] r k) ->
  [[a; b; c]; [d; e; f]; [g; h; i]] = [[a'; b'; c']; [d'; e'; f']; [g'; h'; i']].
Proof.
  intros Hcells.
  pose proof (Hcells 0 0 ltac:(unfold on_board; lia)) as H00.
  pose proof (Hcells 0 1 ltac:(unfold on_board; lia)) as H01.
  pose proof (Hcells 0 2 ltac:(unfold on_board; lia)) as H02.
  pose proof (Hcells 1 0 ltac:(unfold on_board; lia)) as H10.
  pose proof (Hcells 1 1 ltac:(unfold on_board; lia)) as H11.
  pose proof (Hcells 1 2 ltac:(unfold on_board; lia)) as H12.
  pose proof (Hcells 2 0 ltac:(unfold on_board; lia)) as H20.
  pose proof (Hcells 2 1 ltac:(unfold on_board; lia)) as H21.
  pose proof (Hcells 2 2 ltac:(unfold on_board; lia)) as H22.
  rewrite cell_00 in H00. rewrite cell_01 in H01. rewrite cell_02 in H02.
  rewrite cell_10 in H10. rewrite cell_11 in H11. rewrite cell_12 in H12.
  rewrite cell_20 in H20. rewrite cell_21 in H21. rewrite cell_22 in H22.
  rewrite cell_00 in H00. rewrite cell_01 in H01. rewrite cell_02 in H02.
  rewrite cell_10 in H10. rewrite cell_11 in H11. rewrite cell_12 in H12.
  rewrite cell_20 in H20. rewrite cell_21 in H21. rewrite cell_22 in H22.
  congruence.
Qed.

Lemma cell_3x3_elem (a b c d e f g h i : Z) r k v :
  on_board r k ->
  cell [[a; b; c]; [d; e; f]; [g; h; i]] r k = Ok v ->
  [a; b; c; d; e; f; g; h; i] !! Z.to_nat (3 * r + k) = Some v.
Proof.
  intros Hrk Hv.
  apply on_board_cases in Hrk as [[-> | [-> | ->]] [-> | [-> | ->]]];
    cbv in Hv; by simplify_eq.
Qed.

Lemma cell_3x3_total (a b c d e f g h i : Z) r k :
  on_board r k -> exists v, cell [[a; b; c]; [d; e; f]; [g; h; i]] r k = Ok v.
Proof.
  intros Hrk.
  apply on_board_cases in Hrk as [[-> | [-> | ->]] [-> | [-> | ->]]];
    by eexists.
Qed.

(** On a valid grid the blank is at one position only. *)
Lemma blank_unique s r k r' k' :
  valid_grid s -> on_board r k -> on_board r' k' ->
  cell s r k = Ok 0 -> cell s r' k' = Ok 0 -> r = r' /\ k = k'.
Proof.
  intros (a & b & c & d & e & f & g & h & i & -> & Hperm)%valid_grid_shape
    Hrk Hrk' H1 H2.
  apply cell_3x3_elem in H1, H2; [|done..].
  assert (NoDup [a; b; c; d; e; f; g; h; i]) as Hnd.
  { rewrite Hperm. compute_done. }
  pose proof (NoDup_lookup _ _ _ _ Hnd H1 H2) as Heq.
  unfold on_board in *. lia.
Qed.

Lemma is_move_swap s t :
  length s = 3%nat -> Forall (fun row => length row = 3%nat) s ->
  is_move s t <->
  exists bi bj ni nj v,
    on_board bi bj /\ on_board ni nj /\ adjacent bi bj ni nj /\
    cell s bi bj = Ok 0 /\ cell s ni nj = Ok v /\ v ≠ 0 /\
    swap_cells s bi bj ni nj = Ok t.
Proof.
  intros Hlen Hrows.
  destruct (shape_3x3 s Hlen Hrows) as (a & b & c & d & e & f & g & h & i & ->).
  split.
  - intros (bi & bj & ni & nj & v & Hb & Hn & Hadj & H0 & Hv & Hv0 & Htl & Htr & Hcells).
    exists bi, bj, ni, nj, v. split_and!; try done.
    destruct (shape_3x3 t Htl Htr) as (a1 & b1 & c1 & d1 & e1 & f1 & g1 & h1 & i1 & ->).
    destruct (swap_cells_spec a b c d e f g h i bi bj ni nj Hb Hn Hadj)
      as (a2 & b2 & c2 & d2 & e2 & f2 & g2 & h2 & i2 & Hswap & _ & Hcells2).
    rewrite Hswap. f_equal. symmetry. apply cells_3x3_eq.
    intros r k Hrk. rewrite Hcells, Hcells2 by done. by rewrite H0, Hv.
  - intros (bi & bj & ni & nj & v & Hb & Hn & Hadj & H0 & Hv & Hv0 & Hswap).
    exists bi, bj, ni, nj, v. split_and!; try done.
    all: destruct (swap_cells_spec a b c d e f g h i bi bj ni nj Hb Hn Hadj)
      as (a2 & b2 & c2 & d2 & e2 & f2 & g2 & h2 & i2 & Hswap2 & _ & Hcells2).
    all: rewrite Hswap in Hswap2; injection Hswap2 as ->.
    + done.
    + repeat constructor.
    + intros r k Hrk. rewrite Hcells2 by done. by rewrite H0, Hv.
Qed.

Lemma is_move_valid s t : valid_grid s -> is_move s t -> valid_grid t.
Proof.
  intros Hs Hmove. pose proof Hs as (Hlen & Hrows & _).
  apply is_move_swap in Hmove as (bi & bj & ni & nj & v & Hb & Hn & Hadj & _ & _ & _ & Hswap);
    [|done..].
  apply valid_grid_shape in Hs as (a & b & c & d & e & f & g & h & i & -> & Hperm).
  destruct (swap_cells_spec a b c d e f g h i bi bj ni nj Hb Hn Hadj)
    as (a2 & b2 & c2 & d2 & e2 & f2 & g2 & h2 & i2 & Hswap2 & Hperm2 & _).
  rewrite Hswap in Hswap2. injection Hswap2 as ->.
  repeat split; [repeat constructor|]. simpl. by rewrite Hperm2.
Qed.

Lemma md_term_0 i j : md_term 0 i j = 0.
Proof. reflexivity. Qed.

Lemma md_term_adjacent v i j ni nj :
  adjacent i j ni nj -> Z.abs (md_term v i j - md_term v ni nj) <= 1.
Proof. unfold adjacent, md_term. case_bool_decide; lia. Qed.

(** One move changes the heuristic by at most one. *)
Lemma manhattan_distance_move s t :
  length s = 3%nat -> Forall (fun row => length row = 3%nat) s ->
  is_move s t ->
  exists hs ht, manhattan_distance s = Ok hs /\ manhattan_distance t = Ok ht /\
    Z.abs (hs - ht) <= 1.
Proof.
  intros Hlen Hrows Hmove.
  apply is_move_swap in Hmove as (bi & bj & ni & nj & v & Hb & Hn & Hadj & H0 & Hv & _ & Hswap);
    [|done..].
  destruct (shape_3x3 s Hlen Hrows) as (a & b & c & d & e & f & g & h & i & ->).
  board_cases Hb Hn Hadj;
    vm_compute in Hswap; injection Hswap as <-;
    cbv in H0; injection H0 as ->;
    cbv in Hv; injection Hv as ->;
    (do 2 eexists; split; [apply manhattan_distance_3x3|];
     split; [apply manhattan_distance_3x3|]);
    rewrite !md_term_0;
    match goal with
    | |- context [md_term v ?i ?j] =>
        match goal with
        | |- context [md_term v ?i' ?j'] =>
            assert_fails (constr_eq i i'; constr_eq j j');
            pose proof (md_term_adjacent v i j i' j' ltac:(unfold adjacent; lia))
        end
    end; lia.
Qed.

(** Case analysis on the first cell that holds the blank. *)
Ltac blank_at x :=
  destruct (decide (x = 0)) as [->|?];
  [do 2 eexists; (split; [reflexivity|]);
   (split; [unfold on_board; lia|reflexivity])
  |rewrite (bool_decide_false (x = 0)) by done; cbn [mbind result_bind]].

Lemma get_blank_position_spec s :
  valid_grid s ->
  exists bi bj, get_blank_position s = Ok (Some (bi, bj)) /\
    on_board bi bj /\ cell s bi bj = Ok 0.
Proof.
  intros (a & b & c & d & e & f & g & h & i & -> & Hperm)%valid_grid_shape.
  assert (0 ∈ [a; b; c; d; e; f; g; h; i]) as Hin.
  { rewrite Hperm. set_solver. }
  unfold get_blank_position. cbn [blank_in_rows blank_in_row range3].
  rewrite cell_00, cell_01, cell_02, cell_10, cell_11, cell_12,
    cell_20, cell_21, cell_22.
  cbn [mbind result_bind].
  blank_at a. blank_at b. blank_at c. blank_at d. blank_at e.
  blank_at f. blank_at g. blank_at h. blank_at i.
  exfalso.
  repeat (apply elem_of_cons in Hin as [Hin|Hin]; [congruence|]).
  by apply elem_of_nil in Hin.
Qed.

Lemma neighbor_step_eq (s : grid) bi bj acc m :
  neighbor_step s bi bj acc m =
  if move_in_bounds bi bj m
  then new_state ← swap_cells s bi bj (bi + m.1) (bj + m.2); Ok (acc ++ [new_state])
  else Ok acc.
Proof. reflexivity. Qed.

Lemma neighbor_fold_spec (s : grid) bi bj :
  length s = 3%nat -> Forall (fun row => length row = 3%nat) s ->
  on_board bi bj ->
  forall ms acc,
    (forall m, m ∈ ms -> Z.abs m.1 + Z.abs m.2 = 1) ->
    exists l, for_fold (neighbor_step s bi bj) acc ms = Ok (acc ++ l) /\
      length l = length (filter (fun m => move_in_bounds bi bj m = true) ms) /\
      forall t, t ∈ l <->
        exists m, m ∈ ms /\ move_in_bounds bi bj m = true /\
          swap_cells s bi bj (bi + m.1) (bj + m.2) = Ok t.
Proof.
  intros Hlen Hrows Hb.
  destruct (shape_3x3 s Hlen Hrows) as (a & b & c & d & e & f & g & h & i & ->).
  induction ms as [|m ms IH]; intros acc Hms.
  - exists []. rewrite app_nil_r. split; [done|]. split; [done|].
    intros t. split; [by intros ?%elem_of_nil|]. by intros (? & ?%elem_of_nil & _).
  - cbn [for_fold]. rewrite neighbor_step_eq, filter_cons.
    destruct (move_in_bounds bi bj m) eqn:Hin.
    + rewrite decide_True by done.
      assert (on_board (bi + m.1) (bj + m.2)) as Hn.
      { unfold move_in_bounds, in_bounds in Hin. unfold on_board. lia. }
      assert (adjacent bi bj (bi + m.1) (bj + m.2)) as Hadj.
      { unfold adjacent. specialize (Hms m ltac:(left)). lia. }
      destruct (swap_cells_spec a b c d e f g h i _ _ _ _ Hb Hn Hadj)
        as (a2 & b2 & c2 & d2 & e2 & f2 & g2 & h2 & i2 & Hswap & _ & _).
      rewrite Hswap. cbn [mbind result_bind].
      destruct (IH (acc ++ [[[a2; b2; c2]; [d2; e2; f2]; [g2; h2; i2]]]))
        as (l & Hl & Hlenl & Hmem).
      { intros m' Hm'. apply Hms. by right. }
      exists ([[a2; b2; c2]; [d2; e2; f2]; [g2; h2; i2]] :: l).
      rewrite Hl. split; [by rewrite <- app_assoc|]. split; [simpl; by rewrite Hlenl|].
      intros t. rewrite elem_of_cons, Hmem. split.
      * intros [-> | (m' & Hm' & Hin' & Hsw')].
        -- exists m. split; [left|done].
        -- exists m'. split; [by right|done].
      * intros (m' & [-> | Hm']%elem_of_cons & Hin' & Hsw').
        -- left. congruence.
        -- right. by exists m'.
    + rewrite decide_False by done. cbn [mbind result_bind].
      destruct (IH acc) as (l & Hl & Hlenl & Hmem).
      { intros m' Hm'. apply Hms. by right. }
      exists l. split; [done|]. split; [done|].
      intros t. rewrite Hmem. split.
      * intros (m' & Hm' & Hin' & Hsw'). exists m'. split; [by right|done].
      * intros (m' & [-> | Hm']%elem_of_cons & Hin' & Hsw'); [congruence|].
        by exists m'.
Qed.

Lemma get_neighbors_spec s :
  valid_grid s ->
  exists l bi bj, get_neighbors s = Ok l /\
    on_board bi bj /\ cell s bi bj = Ok 0 /\
    length l = expected_neighbors bi bj /\
    forall t, t ∈ l <-> is_move s t.
Proof.
  intros Hs. pose proof Hs as (Hlen & Hrows & _).
  destruct (get_blank_position_spec s Hs) as (bi & bj & Hpos & Hb & H0).
  destruct (neighbor_fold_spec s bi bj Hlen Hrows Hb moves []) as (l & Hl & Hlenl & Hmem).
  { intros m Hm. unfold moves in Hm. set_unfold in Hm.
    destruct Hm as [-> | [-> | [-> | [-> | []]]]]; done. }
  exists l, bi, bj. unfold get_neighbors. rewrite Hpos. cbn [mbind result_bind].
  split; [done|]. split; [done|]. split; [done|]. split.
  - rewrite Hlenl. clear -Hb.
    apply on_board_cases in Hb as [[-> | [-> | ->]] [-> | [-> | ->]]]; reflexivity.
  - intros t. rewrite Hmem, is_move_swap by done. split.
    + intros (m & Hm & Hin & Hsw).
      assert (on_board (bi + m.1) (bj + m.2)) as Hn.
      { unfold move_in_bounds, in_bounds in Hin. unfold on_board. lia. }
      assert (Z.abs m.1 + Z.abs m.2 = 1) as Habs.
      { unfold moves in Hm. set_unfold in Hm.
        destruct Hm as [-> | [-> | [-> | [-> | []]]]]; done. }
      destruct (shape_3x3 s Hlen Hrows) as (a & b & c & d & e & f & g & h & i & Hshape).
      destruct (cell_3x3_total a b c d e f g h i _ _ Hn) as [v Hv].
      rewrite <- Hshape in Hv.
      exists bi, bj, (bi + m.1), (bj + m.2), v. split_and!; try done.
      * unfold adjacent. lia.
      * intros ->. destruct (blank_unique s _ _ _ _ Hs Hb Hn H0 Hv). lia.
    + intros (bi' & bj' & ni & nj & v & Hb' & Hn & Hadj & H0' & Hv & Hv0 & Hsw).
      destruct (blank_unique s _ _ _ _ Hs Hb Hb' H0 H0') as [<- <-].
      exists (ni - bi, nj - bj). simpl.
      replace (bi + (ni - bi)) with ni by lia.
      replace (bj + (nj - bj)) with nj by lia.
      split_and!; try done.
      * unfold adjacent in Hadj. unfold moves. set_unfold.
        assert ((ni - bi = 1 /\ nj - bj = 0) \/ (ni - bi = -1 /\ nj - bj = 0) \/
                (ni - bi = 0 /\ nj - bj = 1) \/ (ni - bi = 0 /\ nj - bj = -1))
          as [[-> ->] | [[-> ->] | [[-> ->] | [-> ->]]]] by lia; auto.
      * unfold move_in_bounds, in_bounds. simpl.
        replace (bi + (ni - bi)) with ni by lia.
        replace (bj + (nj - bj)) with nj by lia.
        unfold on_board in Hn. lia.
Qed.

(** ** The search loop *)

Lemma node_lt_key a b : node_lt a b = bool_decide (node_f a < node_f b).
Proof.
  unfold node_lt, node_f. case_bool_decide; lia.
Qed.

Lemma moves_to_snoc k s t u : moves_to k s t -> is_move t u -> moves_to (S k) s u.
Proof.
  induction 1 as [s|k s t' t Hm Hk IH]; intros Hu.
  - eapply moves_to_S; [done|constructor].
  - eapply moves_to_S; [done|by apply IH].
Qed.

Lemma moves_to_valid k s t : moves_to k s t -> valid_grid s -> valid_grid t.
Proof. induction 1; eauto using is_move_valid. Qed.

Lemma valid_manhattan s : valid_grid s -> exists hs, manhattan_distance s = Ok hs.
Proof.
  intros (a & b & c & d & e & f & g & h & i & -> & _)%valid_grid_shape.
  eexists. apply manhattan_distance_3x3.
Qed.

(** Consistency of the heuristic along a path. *)
Lemma manhattan_distance_path k s t hs ht :
  moves_to k s t -> valid_grid s ->
  manhattan_distance s = Ok hs -> manhattan_distance t = Ok ht ->
  hs <= Z.of_nat k + ht.
Proof.
  intros Hpath. revert hs. induction Hpath as [s|k s t u Hm Hk IH]; intros hs Hs Hhs Hht.
  - assert (hs = ht) by congruence. lia.
  - pose proof Hs as (Hlen & Hrows & _).
    destruct (manhattan_distance_move s t Hlen Hrows Hm) as (hs' & ht' & H1 & H2 & Habs).
    assert (hs' = hs) as -> by congruence.
    specialize (IH ht' (is_move_valid _ _ Hs Hm) H2 Hht). lia.
Qed.

Section NodeFacts.
Variable init : grid.
Hypothesis init_valid : valid_grid init.

Lemma node_ok_valid n : node_ok init n -> valid_grid (state n).
Proof. induction 1; simpl; eauto using is_move_valid. Qed.

Lemma node_ok_h n : node_ok init n -> manhattan_distance (state n) = Ok (h n).
Proof. by destruct 1. Qed.

Lemma node_ok_g n : node_ok init n -> 0 <= g n.
Proof. induction 1; simpl; lia. Qed.

Lemma node_ok_moves n : node_ok init n -> moves_to (Z.to_nat (g n)) init (state n).
Proof.
  induction 1 as [h0 _|p t ht Hp IH Hm _]; simpl; [constructor|].
  pose proof (node_ok_g p Hp).
  replace (Z.to_nat (g p + 1)) with (S (Z.to_nat (g p))) by lia.
  by eapply moves_to_snoc.
Qed.

Lemma legal_path_snoc l s t :
  legal_path (l ++ [s]) -> is_move s t -> legal_path ((l ++ [s]) ++ [t]).
Proof.
  induction l as [|x l IH]; intros Hl Hm; [done|].
  destruct l as [|y l]; simpl in *; [tauto|].
  destruct Hl as [Hxy Hl]. split; [done|]. by apply IH.
Qed.

(** The list [solve_puzzle] returns for node [n]. *)
Lemma node_ok_path n :
  node_ok init n ->
  exists l, reverse (path_to_root n) = l ++ [state n] /\
    head (l ++ [state n]) = Some init /\
    legal_path (l ++ [state n]) /\
    Z.of_nat (length l) = g n.
Proof.
  induction 1 as [h0 _|p t ht Hp (l & Hl & Hhead & Hlegal & Hlen) Hm _].
  - exists []. done.
  - exists (l ++ [state p]). cbn [path_to_root state parent g].
    rewrite reverse_cons, Hl. split; [done|]. split.
    + rewrite <- app_assoc. destruct l; done.
    + split; [by apply legal_path_snoc|].
      rewrite length_app. simpl. lia.
Qed.
End NodeFacts.

Lemma push_neighbor_eq (closed_list : gset grid) n open_list t :
  push_neighbor closed_list n open_list t =
  if bool_decide (t ∉ closed_list) then
    hn ← manhattan_distance t;
    Ok (heappush node_lt open_list (mkNode t (Some n) (g n + 1) hn))
  else Ok open_list.
Proof. reflexivity. Qed.

Lemma push_neighbors_spec (closed_list : gset grid) (n : PuzzleNode) :
  forall ns open_list,
    heap_ok node_f open_list ->
    (forall t, t ∈ ns -> exists ht, manhattan_distance t = Ok ht) ->
    exists open_list' kids,
      for_fold (push_neighbor closed_list n) open_list ns = Ok open_list' /\
      heap_ok node_f open_list' /\
      open_list' ≡ₚ kids ++ open_list /\
      (forall k, k ∈ kids ->
         parent k = Some n /\ g k = g n + 1 /\ (state k ∈ ns) /\
         (state k ∉ closed_list) /\ manhattan_distance (state k) = Ok (h k)) /\
      (forall t, t ∈ ns -> t ∉ closed_list -> exists k, k ∈ kids /\ state k = t).
Proof.
  induction ns as [|t ns IH]; intros open_list Hheap Hmd.
  - exists open_list, []. split_and!; try done.
    + intros k Hk. by apply elem_of_nil in Hk.
    + intros t Ht. by apply elem_of_nil in Ht.
  - cbn [for_fold]. rewrite push_neighbor_eq.
    destruct (Hmd t ltac:(left)) as [ht Hht].
    case_bool_decide as Hcl.
    + rewrite Hht. cbn [mbind result_bind].
      set (k := mkNode t (Some n) (g n + 1) ht).
      destruct (IH (heappush node_lt open_list k)) as (open' & kids & Hrun & Hh & Hperm & Hkids & Hall).
      { by apply (heappush_heap node_lt node_f node_lt_key). }
      { intros t' Ht'. apply Hmd. by right. }
      exists open', (kids ++ [k]). split_and!; try done.
      * rewrite Hperm, (heappush_perm node_lt). rewrite <- app_assoc. done.
      * intros k' [Hk'|Hk']%elem_of_app.
        -- destruct (Hkids k' Hk') as (? & ? & ? & ? & ?). split_and!; try done. by right.
        -- apply list_elem_of_singleton in Hk' as ->. subst k. simpl.
           split_and!; try done. by left.
      * intros t' [->|Ht']%elem_of_cons Hncl.
        -- exists k. split; [|done]. apply elem_of_app. right. by left.
        -- destruct (Hall t' Ht' Hncl) as (k' & Hk' & Hst). exists k'.
           split; [|done]. apply elem_of_app. by left.
    + cbn [mbind result_bind].
      destruct (IH open_list Hheap) as (open' & kids & Hrun & Hh & Hperm & Hkids & Hall).
      { intros t' Ht'. apply Hmd. by right. }
      exists open', kids. split_and!; try done.
      * intros k' Hk'. destruct (Hkids k' Hk') as (? & ? & ? & ? & ?).
        split_and!; try done. by right.
      * intros t' [->|Ht']%elem_of_cons Hncl; [done|]. by apply Hall.
Qed.

(** One iteration of the loop, on a non-empty heap of nodes of the search. *)
Lemma step_spec (init : grid) (open_list : list PuzzleNode) (closed_list : gset grid) :
  valid_grid init ->
  heap_ok node_f open_list ->
  (forall n, n ∈ open_list -> node_ok init n) ->
  open_list ≠ [] ->
  exists n rest,
    heappop node_lt open_list = Ok (n, rest) /\
    open_list ≡ₚ n :: rest /\
    (forall m, m ∈ open_list -> node_f n <= node_f m) /\
    ((state n = goal_state /\
      step open_list closed_list = Ok (Done (reverse (path_to_root n)))) \/
     (state n ≠ goal_state /\
      exists open_list' kids,
        step open_list closed_list =
          Ok (Continue open_list' ({[state n]} ∪ closed_list)) /\
        heap_ok node_f open_list' /\
        open_list' ≡ₚ kids ++ rest /\
        (forall k, k ∈ kids ->
           node_ok init k /\ g k = g n + 1 /\ is_move (state n) (state k) /\
           (state k ∉ {[state n]} ∪ closed_list) /\ parent k = Some n) /\
        (forall t, is_move (state n) t -> t ∉ {[state n]} ∪ closed_list ->
           exists k, k ∈ kids /\ state k = t))).
Proof.
  intros Hinit Hheap Hnodes Hne.
  destruct (heappop_spec node_lt node_f node_lt_key open_list Hheap Hne)
    as (n & rest & Hpop & Hperm & Hrest & Hmin).
  exists n, rest. split_and!; try done.
  unfold step. rewrite Hpop. cbn [mbind result_bind].
  case_bool_decide as Hgoal; [by left|right]. split; [done|].
  assert (node_ok init n) as Hn.
  { apply Hnodes. rewrite Hperm. by left. }
  pose proof (node_ok_valid init Hinit n Hn) as Hvalid.
  destruct (get_neighbors_spec (state n) Hvalid) as (ns & bi & bj & Hns & _ & _ & _ & Hmem).
  rewrite Hns. cbn [mbind result_bind].
  destruct (push_neighbors_spec ({[state n]} ∪ closed_list) n ns rest Hrest)
    as (open' & kids & Hrun & Hh & Hperm' & Hkids & Hall).
  { intros t Ht. apply valid_manhattan. eapply is_move_valid; [done|]. by apply Hmem. }
  rewrite Hrun. cbn [mbind result_bind].
  exists open', kids. split_and!; try done.
  - intros k Hk. destruct (Hkids k Hk) as (Hpar & Hg & Hin & Hncl & Hmd).
    apply Hmem in Hin. split_and!; try done.
    destruct k as [ks kp kg kh]. simpl in *. subst kp kg.
    by apply node_ok_child.
  - intros t Ht Hncl. apply Hall; [|done]. by apply Hmem.
Qed.

Section SearchFacts.
Variable init : grid.
Hypothesis init_valid : valid_grid init.

Lemma search_inv_start h0 :
  manhattan_distance init = Ok h0 ->
  search_inv init [mkNode init None 0 h0] ∅.
Proof.
  intros Hh0. split.
  - intros i x p Hi Hx. destruct i as [|i]; [lia|done].
  - intros n ->%list_elem_of_singleton. by constructor.
  - intros c Hc. by apply not_elem_of_empty in Hc.
  - apply not_elem_of_empty.
  - right. eexists. split; [by left|done].
  - intros c k t Hc. by apply not_elem_of_empty in Hc.
Qed.

(** Some frontier node lies on every path from [init] to a state that
    is not explored yet, with a cost no larger than the path prefix. *)
Lemma frontier_on_path_from open_list closed_list :
  search_inv init open_list closed_list ->
  forall j c s, moves_to j c s ->
  forall i, moves_to i init c -> c ∈ closed_list -> s ∉ closed_list ->
  exists m i' j', m ∈ open_list /\ (i' + j' = i + j)%nat /\
    g m <= Z.of_nat i' /\ moves_to j' (state m) s.
Proof.
  intros Hinv j c s Hpath.
  induction Hpath as [s|j c t s Hm Hpath IH]; intros i Hi Hc Hs; [done|].
  destruct (inv_front _ _ _ Hinv c i t Hc Hi Hm) as [Ht|(m & Hmo & Hst & Hg)].
  - destruct (IH (S i) (moves_to_snoc _ _ _ _ Hi Hm) Ht Hs)
      as (m & i' & j' & Hmo & Hsum & Hg & Hrest).
    exists m, i', j'. split_and!; try done. lia.
  - exists m, (S i), j. split_and!; [done|lia|lia|by rewrite Hst].
Qed.

Lemma frontier_on_path open_list closed_list k s :
  search_inv init open_list closed_list ->
  moves_to k init s -> s ∉ closed_list ->
  exists m i' j', m ∈ open_list /\ (i' + j' = k)%nat /\
    g m <= Z.of_nat i' /\ moves_to j' (state m) s.
Proof.
  intros Hinv Hpath Hs.
  destruct (inv_init _ _ _ Hinv) as [Hi|(m & Hmo & Hst & Hg)].
  - destruct (frontier_on_path_from _ _ Hinv k init s Hpath 0%nat (moves_to_O _) Hi Hs)
      as (m & i' & j' & ? & ? & ? & ?).
    exists m, i', j'. split_and!; try done.
  - exists m, 0%nat, k. split_and!; [done|lia|lia|by rewrite Hst].
Qed.

(** A node of minimal [f] whose state is not explored has an optimal [g]. *)
Lemma pop_optimal open_list closed_list n k :
  search_inv init open_list closed_list ->
  n ∈ open_list ->
  (forall m, m ∈ open_list -> node_f n <= node_f m) ->
  state n ∉ closed_list ->
  moves_to k init (state n) ->
  g n <= Z.of_nat k.
Proof.
  intros Hinv Hn Hmin Hncl Hpath.
  destruct (frontier_on_path _ _ _ _ Hinv Hpath Hncl)
    as (m & i' & j' & Hm & Hsum & Hg & Hrest).
  pose proof (inv_nodes _ _ _ Hinv m Hm) as Hmok.
  pose proof (inv_nodes _ _ _ Hinv n Hn) as Hnok.
  pose proof (manhattan_distance_path _ _ _ _ _ Hrest
                (node_ok_valid init init_valid m Hmok)
                (node_ok_h init m Hmok) (node_ok_h init n Hnok)) as Hcons.
  specialize (Hmin m Hm). unfold node_f in Hmin. lia.
Qed.

Lemma search_inv_step open_list closed_list open_list' closed_list' :
  search_inv init open_list closed_list ->
  open_list ≠ [] ->
  step open_list closed_list = Ok (Continue open_list' closed_list') ->
  search_inv init open_list' closed_list'.
Proof.
  intros Hinv Hne Hstep.
  destruct (step_spec init open_list closed_list init_valid
              (inv_heap _ _ _ Hinv) (inv_nodes _ _ _ Hinv) Hne)
    as (n & rest & Hpop & Hperm & Hmin & [[Hgoal Hdone]|(Hgoal & open2 & kids & Hcont & Hheap & Hperm2 & Hkids & Hall)]).
  { rewrite Hdone in Hstep. discriminate. }
  rewrite Hcont in Hstep. injection Hstep as <- <-.
  assert (n ∈ open_list) as Hn by (rewrite Hperm; by left).
  pose proof (inv_nodes _ _ _ Hinv n Hn) as Hnok.
  assert (forall m, m ∈ open_list -> m = n \/ m ∈ open2) as Hkeep.
  { intros m Hm. rewrite Hperm in Hm. apply elem_of_cons in Hm as [->|Hm]; [by left|].
    right. rewrite Hperm2. apply elem_of_app. by right. }
  split.
  - done.
  - intros m Hm. rewrite Hperm2 in Hm. apply elem_of_app in Hm as [Hm|Hm].
    + by apply Hkids.
    + apply (inv_nodes _ _ _ Hinv). rewrite Hperm. by right.
  - intros c [->%elem_of_singleton|Hc]%elem_of_union.
    + eexists. by apply node_ok_moves.
    + by apply (inv_closed _ _ _ Hinv).
  - intros [Hg%elem_of_singleton|Hg]%elem_of_union; [done|].
    by apply (inv_goal _ _ _ Hinv).
  - destruct (inv_init _ _ _ Hinv) as [Hi|(m & Hm & Hst & Hg)].
    + left. apply elem_of_union. by right.
    + destruct (Hkeep m Hm) as [->|Hm2].
      * left. apply elem_of_union. left. by apply elem_of_singleton.
      * right. by exists m.
  - intros c k t Hc Hk Ht.
    destruct (decide (t ∈ {[state n]} ∪ closed_list)) as [Hin|Hnin]; [by left|right].
    destruct (decide (c ∈ closed_list)) as [Hcold|Hcnew].
    + destruct (inv_front _ _ _ Hinv c k t Hcold Hk Ht) as [Htc|(m & Hm & Hst & Hg)].
      { exfalso. apply Hnin. apply elem_of_union. by right. }
      destruct (Hkeep m Hm) as [->|Hm2].
      * exfalso. apply Hnin. apply elem_of_union. left. by apply elem_of_singleton.
      * by exists m.
    + assert (c = state n) as ->.
      { apply elem_of_union in Hc as [Hc%elem_of_singleton|Hc]; done. }
      destruct (Hall t Ht Hnin) as (kid & Hkid & Hst).
      destruct (Hkids kid Hkid) as (_ & Hg & _).
      exists kid. split; [rewrite Hperm2; apply elem_of_app; by left|].
      split; [done|].
      pose proof (pop_optimal _ _ n k Hinv Hn Hmin Hcnew Hk). lia.
Qed.
End SearchFacts.

Lemma valid_grid_all_grids s : valid_grid s -> s ∈ all_grids.
Proof.
  intros (a & b & c & d & e & f & g & h & i & -> & Hperm)%valid_grid_shape.
  unfold all_grids. apply elem_of_list_to_set, list_elem_of_fmap.
  exists [a; b; c; d; e; f; g; h; i]. split; [done|].
  by apply permutations_Permutation.
Qed.

Lemma size_difference_add (U closed_list : gset grid) s :
  s ∈ U -> s ∉ closed_list ->
  (size (U ∖ ({[s]} ∪ closed_list)) < size (U ∖ closed_list))%nat.
Proof.
  intros Hs Hncl. apply subset_size. split.
  - intros x. rewrite !elem_of_difference, elem_of_union. tauto.
  - intros Hsub. specialize (Hsub s).
    rewrite !elem_of_difference, elem_of_union, elem_of_singleton in Hsub. tauto.
Qed.

Lemma unexplored_add s closed_list :
  s ∈ all_grids -> s ∉ closed_list ->
  (unexplored ({[s]} ∪ closed_list) < unexplored closed_list)%nat.
Proof.
  intros Hs Hncl. unfold unexplored.
  exact (size_difference_add all_grids closed_list s Hs Hncl).
Qed.

Lemma stale_perm o1 o2 closed_list :
  o1 ≡ₚ o2 -> stale o1 closed_list = stale o2 closed_list.
Proof. intros Hp. unfold stale. by rewrite Hp. Qed.

Lemma stale_fresh kids closed_list :
  (forall k, k ∈ kids -> state k ∉ closed_list) -> stale kids closed_list = 0%nat.
Proof.
  intros Hk. unfold stale.
  induction kids as [|k kids IH]; [done|].
  rewrite filter_cons_False; [|apply Hk; by left].
  apply IH. intros k' Hk'. apply Hk. by right.
Qed.

Lemma stale_app o1 o2 closed_list :
  stale (o1 ++ o2) closed_list = (stale o1 closed_list + stale o2 closed_list)%nat.
Proof. unfold stale. by rewrite filter_app, length_app. Qed.

Section Termination.
Variable init : grid.
Hypothesis init_valid : valid_grid init.

Lemma solve_loop_terminates :
  forall u d open_list closed_list,
    unexplored closed_list = u -> stale open_list closed_list = d ->
    search_inv init open_list closed_list ->
    exists fuel r, solve_loop fuel open_list closed_list = Returned r.
Proof.
  induction u as [u IHu] using lt_wf_ind.
  induction d as [d IHd] using lt_wf_ind.
  intros open_list closed_list Hu Hd Hinv.
  destruct (decide (open_list = [])) as [->|Hne].
  { exists 0%nat, None. done. }
  destruct (step_spec init open_list closed_list init_valid
              (inv_heap _ _ _ Hinv) (inv_nodes _ _ _ Hinv) Hne)
    as (n & rest & Hpop & Hperm & Hmin & [[Hgoal Hdone]|(Hgoal & open2 & kids & Hcont & Hheap & Hperm2 & Hkids & Hall)]).
  { exists 1%nat, (Some (reverse (path_to_root n))).
    destruct open_list; [done|]. cbn [solve_loop]. by rewrite Hdone. }
  pose proof (search_inv_step init init_valid _ _ _ _ Hinv Hne Hcont) as Hinv2.
  assert (n ∈ open_list) as Hn by (rewrite Hperm; by left).
  assert (exists fuel r, solve_loop fuel open2 ({[state n]} ∪ closed_list) = Returned r)
    as (fuel & r & Hrun).
  { destruct (decide (state n ∈ closed_list)) as [Hcl|Hncl].
    - assert ({[state n]} ∪ closed_list = closed_list) as Heq.
      { apply subseteq_union_1_L. by apply singleton_subseteq_l. }
      rewrite Heq in *.
      assert (stale open2 closed_list < d)%nat as Hlt.
      { subst d. rewrite (stale_perm _ _ _ Hperm2), (stale_perm _ _ _ Hperm).
        rewrite stale_app, stale_fresh by (intros k Hk; by apply Hkids).
        unfold stale. rewrite filter_cons_True by done. simpl. lia. }
      exact (IHd _ Hlt open2 closed_list Hu eq_refl Hinv2).
    - assert (unexplored ({[state n]} ∪ closed_list) < u)%nat as Hlt.
      { subst u. apply unexplored_add; [|done].
        apply valid_grid_all_grids, (node_ok_valid init init_valid).
        by apply (inv_nodes _ _ _ Hinv). }
      exact (IHu _ Hlt _ open2 _ eq_refl eq_refl Hinv2). }
  exists (S fuel), r. destruct open_list; [done|].
  cbn [solve_loop]. by rewrite Hcont.
Qed.

Lemma solve_loop_fuel_mono fuel open_list closed_list r :
  solve_loop fuel open_list closed_list = Returned r ->
  forall fuel', (fuel <= fuel')%nat ->
    solve_loop fuel' open_list closed_list = Returned r.
Proof.
  revert open_list closed_list.
  induction fuel as [|fuel IH]; intros open_list closed_list Hrun fuel' Hle.
  - destruct open_list; [|done]. by destruct fuel'.
  - destruct fuel' as [|fuel']; [lia|].
    destruct open_list as [|x open_list]; [done|].
    cbn [solve_loop] in *.
    destruct (step (x :: open_list) closed_list) as [[path|o c]|e]; try done.
    apply IH; [done|lia].
Qed.

Lemma solve_loop_result fuel :
  forall open_list closed_list r,
    search_inv init open_list closed_list ->
    solve_loop fuel open_list closed_list = Returned r ->
    result_ok init r.
Proof.
  induction fuel as [|fuel IH]; intros open_list closed_list r Hinv Hrun.
  - destruct open_list as [|x open_list]; [|done].
    injection Hrun as <-. intros k Hk.
    destruct (frontier_on_path init [] closed_list k goal_state Hinv Hk
                (inv_goal _ _ _ Hinv)) as (m & _ & _ & Hm & _).
    by apply elem_of_nil in Hm.
  - destruct open_list as [|x open_list].
    { injection Hrun as <-. intros k Hk.
      destruct (frontier_on_path init [] closed_list k goal_state Hinv Hk
                  (inv_goal _ _ _ Hinv)) as (m & _ & _ & Hm & _).
      by apply elem_of_nil in Hm. }
    cbn [solve_loop] in Hrun.
    destruct (step_spec init (x :: open_list) closed_list init_valid
                (inv_heap _ _ _ Hinv) (inv_nodes _ _ _ Hinv) ltac:(done))
      as (n & rest & Hpop & Hperm & Hmin & [[Hgoal Hdone]|(Hgoal & open2 & kids & Hcont & _)]).
    + rewrite Hdone in Hrun. injection Hrun as <-.
      assert (n ∈ x :: open_list) as Hn by (rewrite Hperm; by left).
      exists n. split_and!; try done.
      * by apply (inv_nodes _ _ _ Hinv).
      * intros k Hk. eapply pop_optimal; try done.
        -- rewrite Hgoal. by apply (inv_goal _ _ _ Hinv).
        -- by rewrite Hgoal.
    + rewrite Hcont in Hrun.
      eapply IH; [|done].
      by eapply search_inv_step.
Qed.
End Termination.

(** ** Moves keep the inversion parity *)

Lemma ltb_flip x y : x ≠ y -> (x <? y) = negb (y <? x).
Proof. intros Hne. destruct (Z.ltb_spec x y), (Z.ltb_spec y x); simpl; lia. Qed.

Lemma smaller_parity_swap (z x y : Z) (pre post : list Z) :
  foldr (fun w acc => xorb (w <? z) acc) false (pre ++ x :: y :: post) =
  foldr (fun w acc => xorb (w <? z) acc) false (pre ++ y :: x :: post).
Proof.
  induction pre as [|w pre IH]; simpl; [btauto|]. by rewrite IH.
Qed.

(** Exchanging two adjacent, different elements flips the parity. *)
Lemma inv_parity_swap (x y : Z) (pre post : list Z) :
  x ≠ y ->
  inv_parity (pre ++ x :: y :: post) = negb (inv_parity (pre ++ y :: x :: post)).
Proof.
  intros Hxy. induction pre as [|z pre IH].
  - simpl. rewrite (ltb_flip x y Hxy). btauto.
  - cbn [app inv_parity]. rewrite IH, smaller_parity_swap. btauto.
Qed.

(** A tile that jumps over two others keeps the parity. *)
Lemma inv_parity_jump (v p q : Z) (pre post : list Z) :
  v ≠ p -> v ≠ q ->
  inv_parity (pre ++ v :: p :: q :: post) = inv_parity (pre ++ p :: q :: v :: post).
Proof.
  intros Hp Hq.
  rewrite (inv_parity_swap v p pre (q :: post) Hp).
  replace (pre ++ p :: v :: q :: post) with ((pre ++ [p]) ++ v :: q :: post)
    by (by rewrite <- app_assoc).
  rewrite (inv_parity_swap v q (pre ++ [p]) post Hq).
  rewrite <- app_assoc. simpl. by rewrite negb_involutive.
Qed.

Ltac neq_hyp := first [assumption | apply not_eq_sym; assumption].

Ltac filter_tiles :=
  repeat (rewrite filter_cons;
          first [rewrite decide_True by neq_hyp
                |rewrite decide_False by (intros Hne; by apply Hne)]);
  rewrite filter_nil.

Ltac parity_jump :=
  first [ apply (inv_parity_jump _ _ _ [])
        | apply (inv_parity_jump _ _ _ [_])
        | apply (inv_parity_jump _ _ _ [_; _])
        | apply (inv_parity_jump _ _ _ [_; _; _])
        | apply (inv_parity_jump _ _ _ [_; _; _; _])
        | apply (inv_parity_jump _ _ _ [_; _; _; _; _]) ]; neq_hyp.

Lemma is_move_parity s t :
  valid_grid s -> is_move s t -> grid_parity t = grid_parity s.
Proof.
  intros Hs Hmove. pose proof Hs as (Hlen & Hrows & _).
  apply is_move_swap in Hmove as (bi & bj & ni & nj & v & Hb & Hn & Hadj & H0 & Hv & Hv0 & Hswap);
    [|done..].
  apply valid_grid_shape in Hs as (a & b & c & d & e & f & g & h & i & -> & Hperm).
  assert (NoDup [a; b; c; d; e; f; g; h; i]) as Hnd.
  { rewrite Hperm. compute_done. }
  apply NoDup_9 in Hnd. destruct_and!.
  board_cases Hb Hn Hadj;
    vm_compute in Hswap; injection Hswap as <-;
    cbv in H0; injection H0 as ->;
    cbv in Hv; injection Hv as ->;
    unfold grid_parity, tiles; cbn [concat app];
    filter_tiles;
    first [reflexivity | parity_jump | symmetry; parity_jump].
Qed.

(** ** Top-level facts about [solve_puzzle] *)

Lemma run_loop_inv init :
  valid_grid init ->
  forall k open_list closed_list open_list' closed_list',
    search_inv init open_list closed_list ->
    run_loop k open_list closed_list = Some (open_list', closed_list') ->
    search_inv init open_list' closed_list'.
Proof.
  intros Hinit. induction k as [|k IH]; intros o c o' c' Hinv Hrun.
  - by injection Hrun as <- <-.
  - cbn [run_loop] in Hrun. destruct o as [|x o]; [done|].
    destruct (step (x :: o) c) as [[path|o2 c2]|e] eqn:Hstep; try done.
    eapply IH; [|done]. by eapply search_inv_step.
Qed.

Lemma loop_state_inv init k open_list closed_list :
  valid_grid init ->
  loop_state k init = Some (open_list, closed_list) ->
  search_inv init open_list closed_list.
Proof.
  intros Hinit Hrun. unfold loop_state in Hrun.
  destruct (manhattan_distance init) as [h0|e] eqn:Hh0; [|done].
  eapply run_loop_inv; [done| |done]. by apply search_inv_start.
Qed.

Lemma push_neighbors_heap (closed_list : gset grid) (n : PuzzleNode) :
  forall ns open_list open_list',
    heap_ok node_f open_list ->
    for_fold (push_neighbor closed_list n) open_list ns = Ok open_list' ->
    heap_ok node_f open_list'.
Proof.
  induction ns as [|t ns IH]; intros o o' Hheap Hrun.
  - by injection Hrun as <-.
  - cbn [for_fold] in Hrun. rewrite push_neighbor_eq in Hrun.
    case_bool_decide.
    + destruct (manhattan_distance t) as [ht|e]; [|done].
      cbn [mbind result_bind] in Hrun.
      eapply IH; [|done]. by apply (heappush_heap node_lt node_f node_lt_key).
    + cbn [mbind result_bind] in Hrun. by eapply IH.
Qed.

Lemma step_heap open_list closed_list open_list' closed_list' :
  heap_ok node_f open_list -> open_list ≠ [] ->
  step open_list closed_list = Ok (Continue open_list' closed_list') ->
  heap_ok node_f open_list'.
Proof.
  intros Hheap Hne Hstep.
  destruct (heappop_spec node_lt node_f node_lt_key open_list Hheap Hne)
    as (n & rest & Hpop & _ & Hrest & _).
  unfold step in Hstep. rewrite Hpop in Hstep. cbn [mbind result_bind] in Hstep.
  case_bool_decide; [done|].
  destruct (get_neighbors (state n)) as [ns|e]; [|done].
  cbn [mbind result_bind] in Hstep.
  destruct (for_fold _ rest ns) as [o2|e] eqn:Hpush; [|done].
  cbn [mbind result_bind] in Hstep. injection Hstep as <- <-.
  by eapply push_neighbors_heap.
Qed.

Lemma run_loop_heap k :
  forall open_list closed_list open_list' closed_list',
    heap_ok node_f open_list ->
    run_loop k open_list closed_list = Some (open_list', closed_list') ->
    heap_ok node_f open_list'.
Proof.
  induction k as [|k IH]; intros o c o' c' Hheap Hrun.
  - by injection Hrun as <- <-.
  - cbn [run_loop] in Hrun. destruct o as [|x o]; [done|].
    destruct (step (x :: o) c) as [[path|o2 c2]|e] eqn:Hstep; try done.
    eapply IH; [|done]. by eapply step_heap.
Qed.

Lemma loop_state_heap init k open_list closed_list :
  loop_state k init = Some (open_list, closed_list) ->
  heap_ok node_f open_list.
Proof.
  intros Hrun. unfold loop_state in Hrun.
  destruct (manhattan_distance init) as [h0|e]; [|done].
  eapply run_loop_heap; [|done].
  intros i x p Hi Hx. destruct i as [|i]; [lia|done].
Qed.

Lemma solve_loop_no_raise init fuel :
  valid_grid init ->
  forall open_list closed_list e,
    search_inv init open_list closed_list ->
    solve_loop fuel open_list closed_list ≠ Raised e.
Proof.
  intros Hinit. induction fuel as [|fuel IH]; intros o c e Hinv.
  - by destruct o.
  - destruct o as [|x o]; [done|]. cbn [solve_loop].
    destruct (step_spec init (x :: o) c Hinit (inv_heap _ _ _ Hinv)
                (inv_nodes _ _ _ Hinv) ltac:(done))
      as (n & rest & _ & _ & _ & [[_ Hdone]|(_ & o2 & kids & Hcont & _)]).
    + by rewrite Hdone.
    + rewrite Hcont. apply IH. by eapply search_inv_step.
Qed.

(** [solve_puzzle] returns on every valid grid, and what it returns
    satisfies [result_ok]. *)
Lemma solve_puzzle_returns init :
  valid_grid init ->
  exists fuel r,
    (forall fuel', (fuel <= fuel')%nat -> solve_puzzle fuel' init = Returned r) /\
    result_ok init r.
Proof.
  intros Hinit. destruct (valid_manhattan init Hinit) as [h0 Hh0].
  pose proof (search_inv_start init h0 Hh0) as Hinv.
  destruct (solve_loop_terminates init Hinit _ _ _ _ eq_refl eq_refl Hinv)
    as (fuel & r & Hrun).
  exists fuel, r. split.
  - intros fuel' Hle. unfold solve_puzzle. rewrite Hh0.
    by eapply solve_loop_fuel_mono.
  - by eapply solve_loop_result.
Qed.

(** When the goal cannot be reached, what [solve_puzzle] returns is
    [None]. *)
Lemma solve_puzzle_returns_none init :
  valid_grid init ->
  exists fuel r,
    (forall fuel', (fuel <= fuel')%nat -> solve_puzzle fuel' init = Returned r) /\
    ((forall k, ~ moves_to k init goal_state) -> r = None).
Proof.
  intros Hinit.
  destruct (solve_puzzle_returns init Hinit) as (fuel & r & Hrun & Hres).
  exists fuel, r. split; [done|]. intros Hno.
  destruct r as [path|]; [|done].
  destruct Hres as (n & Hn & Hgoal & _ & _).
  destruct (Hno (Z.to_nat (g n))). rewrite <- Hgoal. by apply node_ok_moves.
Qed.

Lemma solve_puzzle_deterministic init fuel fuel' r r' :
  solve_puzzle fuel init = Returned r ->
  solve_puzzle fuel' init = Returned r' -> r = r'.
Proof.
  unfold solve_puzzle. destruct (manhattan_distance init) as [h0|e]; [|done].
  intros H1 H2.
  pose proof (solve_loop_fuel_mono _ _ _ _ H1 (fuel `max` fuel')%nat ltac:(lia)) as H1'.
  pose proof (solve_loop_fuel_mono _ _ _ _ H2 (fuel `max` fuel')%nat ltac:(lia)) as H2'.
  congruence.
Qed.

Lemma legal_path_moves l s :
  legal_path (l ++ [s]) ->
  forall s0, head (l ++ [s]) = Some s0 -> moves_to (length l) s0 s.
Proof.
  induction l as [|x l IH]; intros Hl s0 Hhead.
  - injection Hhead as <-. constructor.
  - injection Hhead as <-. destruct l as [|y l].
    + simpl in Hl. eapply moves_to_S; [apply Hl|constructor].
    + destruct Hl as [Hxy Hl]. eapply moves_to_S; [done|]. by apply IH.
Qed.

Lemma last_cons_default {A : Type} (l : list A) : forall x d1 d2,
  List.last (x :: l) d1 = List.last (x :: l) d2.
Proof.
  induction l as [|y l IH]; intros x d1 d2; [done|].
  change (List.last (y :: l) d1 = List.last (y :: l) d2). apply IH.
Qed.

Lemma check_path_moves rest : forall s,
  valid_grid s -> check_path s rest = true ->
  moves_to (length rest) s (List.last rest s).
Proof.
  induction rest as [|t rest IH]; intros s Hs Hcheck; [constructor|].
  cbn [check_path] in Hcheck.
  destruct (get_neighbors_spec s Hs) as (l & bi & bj & Hl & _ & _ & _ & Hmem).
  rewrite Hl in Hcheck. apply andb_prop in Hcheck as [Hin Hrest].
  apply bool_decide_eq_true in Hin. apply Hmem in Hin.
  eapply moves_to_S; [done|].
  replace (List.last (t :: rest) s) with (List.last rest t).
  - apply IH; [by eapply is_move_valid|done].
  - destruct rest as [|u rest]; [done|].
    change (List.last (u :: rest) t = List.last (u :: rest) s).
    apply last_cons_default.
Qed.

(** ** Concrete grids *)

Lemma valid_initial_state : valid_grid initial_state.
Proof. split_and!; [done|repeat constructor|compute_done]. Qed.

Lemma valid_goal_state : valid_grid goal_state.
Proof. split_and!; [done|repeat constructor|compute_done]. Qed.

Lemma valid_unsolvable_state : valid_grid unsolvable_state.
Proof. split_and!; [done|repeat constructor|compute_done]. Qed.

Lemma valid_duplicate_start : valid_grid duplicate_start.
Proof. split_and!; [done|repeat constructor|compute_done]. Qed.

Lemma initial_state_solvable : moves_to 18 initial_state goal_state.
Proof.
  apply (check_path_moves initial_to_goal initial_state valid_initial_state).
  by vm_compute.
Qed.

Lemma moves_to_parity k s t :
  moves_to k s t -> valid_grid s -> grid_parity t = grid_parity s.
Proof.
  induction 1 as [s|k s t u Hm _ IH]; intros Hs; [done|].
  rewrite IH by (by eapply is_move_valid). by apply is_move_parity.
Qed.

Lemma unsolvable_state_unsolvable k : ~ moves_to k unsolvable_state goal_state.
Proof.
  intros Hk. apply moves_to_parity in Hk; [|apply valid_unsolvable_state].
  by vm_compute in Hk.
Qed.

Lemma step_done_nonempty open_list closed_list path :
  step open_list closed_list = Ok (Done path) -> path ≠ [].
Proof.
  unfold step. destruct (heappop node_lt open_list) as [[n rest]|e]; [|done].
  cbn [mbind result_bind]. case_bool_decide.
  - intros [= <-]. destruct n as [s p gn hn]. cbn [path_to_root state].
    rewrite reverse_cons. by destruct (reverse _).
  - destruct (get_neighbors (state n)) as [ns|e]; [|done].
    cbn [mbind result_bind]. by destruct (for_fold _ rest ns).
Qed.

Lemma solve_puzzle_path_nonempty fuel init path :
  solve_puzzle fuel init = Returned (Some path) -> path ≠ [].
Proof.
  unfold solve_puzzle. destruct (manhattan_distance init) as [h0|e]; [|done].
  generalize [mkNode init None 0 h0] (∅ : gset grid).
  induction fuel as [|fuel IH]; intros o c Hrun.
  - by destruct o.
  - destruct o as [|x o]; [done|]. cbn [solve_loop] in Hrun.
    destruct (step (x :: o) c) as [[p|o2 c2]|e] eqn:Hstep; try done.
    + injection Hrun as <-. by eapply step_done_nonempty.
    + by eapply IH.
Qed.

Lemma md_term_nonneg v i j : 0 <= md_term v i j.
Proof. unfold md_term. case_bool_decide; lia. Qed.

(** The heuristic is defined and not negative on every valid grid. *)
Lemma manhattan_distance_nonneg s :
  valid_grid s -> exists hs, manhattan_distance s = Ok hs /\ 0 <= hs.
Proof.
  intros (a & b & c & d & e & f & g & h & i & -> & _)%valid_grid_shape.
  eexists. split; [apply manhattan_distance_3x3|].
  pose proof (md_term_nonneg a 0 0). pose proof (md_term_nonneg b 0 1).
  pose proof (md_term_nonneg c 0 2). pose proof (md_term_nonneg d 1 0).
  pose proof (md_term_nonneg e 1 1). pose proof (md_term_nonneg f 1 2).
  pose proof (md_term_nonneg g 2 0). pose proof (md_term_nonneg h 2 1).
  pose proof (md_term_nonneg i 2 2). lia.
Qed.

Lemma md_term_standard v i j :
  0 <= v <= 8 -> md_term v i j = l1_term standard_goal v i j.
Proof.
  intros Hv.
  assert (v = 0 \/ v = 1 \/ v = 2 \/ v = 3 \/ v = 4 \/ v = 5 \/ v = 6 \/ v = 7 \/ v = 8)
    as [->|[->|[->|[->|[->|[->|[->|[->| ->]]]]]]]] by lia; reflexivity.
Qed.

Lemma valid_grid_range (a b c d e f g h i : Z) :
  [a; b; c; d; e; f; g; h; i] ≡ₚ [0; 1; 2; 3; 4; 5; 6; 7; 8] ->
  Forall (fun v => 0 <= v <= 8) [a; b; c; d; e; f; g; h; i].
Proof. intros ->. repeat constructor; lia. Qed.

(** ** The reachable grids are at most 181440 *)

Lemma count_parity_length p ls :
  Z.of_nat (length (filter (fun l => inv_parity (filter (fun x => x ≠ 0) l) = p) ls)) =
  count_parity p ls.
Proof.
  induction ls as [|l ls IH]; [done|].
  rewrite filter_cons. cbn [count_parity foldr]. fold (count_parity p ls).
  case_bool_decide.
  - rewrite decide_True by done. cbn [length]. lia.
  - rewrite decide_False by done. done.
Qed.

Lemma grids_of_parity_length p :
  Z.of_nat (length (grids_of_parity p)) = 181440.
Proof.
  unfold grids_of_parity, lists_of_parity.
  rewrite length_fmap, count_parity_length.
  destruct p; vm_compute; reflexivity.
Qed.

Lemma valid_grid_parity s : valid_grid s -> s ∈ grids_of_parity (grid_parity s).
Proof.
  intros (a & b & c & d & e & f & g & h & i & -> & Hperm)%valid_grid_shape.
  unfold grids_of_parity, lists_of_parity. apply list_elem_of_fmap.
  exists [a; b; c; d; e; f; g; h; i]. split; [done|].
  apply list_elem_of_filter. split; [done|].
  by apply permutations_Permutation.
Qed.

(** Every grid that moves can reach from a valid grid is one of the 181440
    grids of its parity. *)
Lemma moves_to_grids_of_parity k init t :
  valid_grid init -> moves_to k init t -> t ∈ grids_of_parity (grid_parity init).
Proof.
  intros Hinit Hk.
  rewrite <- (moves_to_parity _ _ _ Hk Hinit).
  apply valid_grid_parity. by eapply moves_to_valid.
Qed.

Lemma explored_bound init k open_list closed_list :
  valid_grid init ->
  loop_state k init = Some (open_list, closed_list) ->
  Z.of_nat (size closed_list) <= 181440.
Proof.
  intros Hinit Hstate.
  pose proof (loop_state_inv _ _ _ _ Hinit Hstate) as Hinv.
  rewrite <- (grids_of_parity_length (grid_parity init)).
  apply inj_le, submseteq_length, NoDup_submseteq; [apply NoDup_elements|].
  intros c Hc%elem_of_elements.
  destruct (inv_closed _ _ _ Hinv c Hc) as [j Hj].
  by eapply moves_to_grids_of_parity.
Qed.

(** ** Observed runs *)

Lemma loop_state_observed k init :
  is_Some (loop_state k init) ->
  loop_state k init = Some (frontier_at k init, explored_at k init).
Proof.
  unfold frontier_at, explored_at. by intros [[o c] ->].
Qed.

Lemma popped_at_heappop k init n rest :
  popped_at k init = Some (n, rest) ->
  heappop node_lt (frontier_at k init) = Ok (n, rest).
Proof.
  unfold popped_at. destruct (heappop _ _) as [p|e]; [|done]. by intros [= ->].
Qed.

(** * Further facts about the functions *)

(** ** get_blank_position on 3x3 grids of any content *)

Ltac first_blank x :=
  destruct (decide (x = 0)) as [->|?];
  [ rewrite ?(bool_decide_true (0 = 0)) by done
  | rewrite (bool_decide_false (x = 0)) by done; cbn [mbind result_bind] ].

Ltac blank_found :=
  left; do 2 eexists; split; [reflexivity|]; split; [unfold on_board; lia|];
  split; [reflexivity|];
  let r := fresh "r" in let k := fresh "k" in let Hrk := fresh in let Hlt := fresh in
  intros r k Hrk Hlt; revert Hlt;
  match goal with Hall : forall P : Z -> Z -> Prop, _ |- _ =>
    apply (Hall (fun r k => 3 * r + k < _ -> cell _ r k ≠ Ok 0) r k Hrk)
  end;
  intros Hlt; first [lia | cbv [cell py_getitem py_norm_index]; simpl; congruence].

Lemma get_blank_position_3x3 (a b c d e f g h i : Z) :
  let s := [[a; b; c]; [d; e; f]; [g; h; i]] in
  (exists bi bj, get_blank_position s = Ok (Some (bi, bj)) /\
     on_board bi bj /\ cell s bi bj = Ok 0 /\
     forall r k, on_board r k -> 3 * r + k < 3 * bi + bj -> cell s r k ≠ Ok 0) \/
  (get_blank_position s = Ok None /\
   forall r k, on_board r k -> cell s r k ≠ Ok 0).
Proof.
  intros s. subst s.
  unfold get_blank_position. cbn [blank_in_rows blank_in_row range3].
  rewrite cell_00, cell_01, cell_02, cell_10, cell_11, cell_12,
    cell_20, cell_21, cell_22.
  cbn [mbind result_bind].
  assert (forall (P : Z -> Z -> Prop) r k, on_board r k ->
            P 0 0 -> P 0 1 -> P 0 2 -> P 1 0 -> P 1 1 -> P 1 2 ->
            P 2 0 -> P 2 1 -> P 2 2 -> P r k) as Hall.
  { intros P r k Hrk. apply on_board_cases in Hrk as [[-> | [-> | ->]] [-> | [-> | ->]]]; tauto. }
  first_blank a; [blank_found|]. first_blank b; [blank_found|]. first_blank c; [blank_found|].
  first_blank d; [blank_found|]. first_blank e; [blank_found|]. first_blank f; [blank_found|].
  first_blank g; [blank_found|]. first_blank h; [blank_found|]. first_blank i; [blank_found|].
  right. split; [reflexivity|]. intros r k Hrk.
  apply (Hall (fun r k => cell _ r k ≠ Ok 0) r k Hrk);
    cbv [cell py_getitem py_norm_index]; simpl; congruence.
Qed.

(** ** get_neighbors, move by move *)

Lemma moves_unit m : m ∈ moves -> Z.abs m.1 + Z.abs m.2 = 1.
Proof.
  unfold moves. intros Hm. set_unfold in Hm.
  destruct Hm as [-> | [-> | [-> | [-> | []]]]]; done.
Qed.

Lemma move_in_bounds_on_board bi bj m :
  move_in_bounds bi bj m = true -> on_board (bi + m.1) (bj + m.2).
Proof. unfold move_in_bounds, in_bounds, on_board. lia. Qed.

(** The grids appended by the loop of [get_neighbors] are the swaps for the
    moves that stay on the board, in the order of the moves. *)
Lemma neighbor_fold_order (s : grid) bi bj :
  length s = 3%nat -> Forall (fun row => length row = 3%nat) s ->
  on_board bi bj ->
  forall ms acc,
    (forall m, m ∈ ms -> Z.abs m.1 + Z.abs m.2 = 1) ->
    exists l, for_fold (neighbor_step s bi bj) acc ms = Ok (acc ++ l) /\
      Forall2 (fun m t => swap_cells s bi bj (bi + m.1) (bj + m.2) = Ok t)
              (filter (fun m => move_in_bounds bi bj m = true) ms) l.
Proof.
  intros Hlen Hrows Hb.
  destruct (shape_3x3 s Hlen Hrows) as (a & b & c & d & e & f & g & h & i & ->).
  induction ms as [|m ms IH]; intros acc Hms.
  - exists []. rewrite app_nil_r. split; [done|]. constructor.
  - cbn [for_fold]. rewrite neighbor_step_eq, filter_cons.
    destruct (move_in_bounds bi bj m) eqn:Hin.
    + rewrite decide_True by done.
      pose proof (move_in_bounds_on_board _ _ _ Hin) as Hn.
      assert (adjacent bi bj (bi + m.1) (bj + m.2)) as Hadj.
      { unfold adjacent. specialize (Hms m ltac:(left)). lia. }
      destruct (swap_cells_spec a b c d e f g h i _ _ _ _ Hb Hn Hadj)
        as (a2 & b2 & c2 & d2 & e2 & f2 & g2 & h2 & i2 & Hswap & _ & _).
      rewrite Hswap. cbn [mbind result_bind].
      destruct (IH (acc ++ [[[a2; b2; c2]; [d2; e2; f2]; [g2; h2; i2]]]))
        as (l & Hl & Hall).
      { intros m' Hm'. apply Hms. by right. }
      exists ([[a2; b2; c2]; [d2; e2; f2]; [g2; h2; i2]] :: l).
      rewrite Hl. split; [by rewrite <- app_assoc|]. by constructor.
    + rewrite decide_False by done. cbn [mbind result_bind].
      apply IH. intros m' Hm'. apply Hms. by right.
Qed.

Lemma in_bounds_moves_count bi bj :
  on_board bi bj ->
  (2 <= length (filter (fun m => move_in_bounds bi bj m = true) moves) <= 4)%nat.
Proof.
  intros Hb.
  apply on_board_cases in Hb as [[-> | [-> | ->]] [-> | [-> | ->]]];
    vm_compute; lia.
Qed.

Lemma cells_3x3_concat (a b c d e f g h i : Z) v :
  v ∈ [a; b; c; d; e; f; g; h; i] <->
  exists r k, on_board r k /\ cell [[a; b; c]; [d; e; f]; [g; h; i]] r k = Ok v.
Proof.
  split.
  - intros Hv. set_unfold in Hv.
    destruct Hv as [->|[->|[->|[->|[->|[->|[->|[->|[->|[]]]]]]]]]].
    + exists 0, 0. split; [unfold on_board; lia|done].
    + exists 0, 1. split; [unfold on_board; lia|done].
    + exists 0, 2. split; [unfold on_board; lia|done].
    + exists 1, 0. split; [unfold on_board; lia|done].
    + exists 1, 1. split; [unfold on_board; lia|done].
    + exists 1, 2. split; [unfold on_board; lia|done].
    + exists 2, 0. split; [unfold on_board; lia|done].
    + exists 2, 1. split; [unfold on_board; lia|done].
    + exists 2, 2. split; [unfold on_board; lia|done].
  - intros (r & k & Hrk & Hv). apply cell_3x3_elem in Hv; [|done].
    by eapply list_elem_of_lookup_2.
Qed.

(** [get_neighbors] on a 3x3 grid of any content. *)
Lemma get_neighbors_3x3 (s : grid) :
  length s = 3%nat -> Forall (fun row => length row = 3%nat) s ->
  (exists bi bj l, get_blank_position s = Ok (Some (bi, bj)) /\
     on_board bi bj /\ cell s bi bj = Ok 0 /\
     get_neighbors s = Ok l /\
     Forall2 (fun m t => swap_cells s bi bj (bi + m.1) (bj + m.2) = Ok t)
             (filter (fun m => move_in_bounds bi bj m = true) moves) l) \/
  (get_neighbors s = Raise TypeError /\ 0 ∉ concat s).
Proof.
  intros Hlen Hrows.
  destruct (shape_3x3 s Hlen Hrows) as (a & b & c & d & e & f & g & h & i & ->).
  destruct (get_blank_position_3x3 a b c d e f g h i)
    as [(bi & bj & Hpos & Hb & H0 & _)|[Hpos Hnone]].
  - left. unfold get_neighbors. rewrite Hpos. cbn [mbind result_bind].
    destruct (neighbor_fold_order _ bi bj Hlen Hrows Hb moves []) as (l & Hl & Hall).
    { apply moves_unit. }
    exists bi, bj, l. done.
  - right. unfold get_neighbors. rewrite Hpos. split; [done|].
    intros Hin. change (0 ∈ [a; b; c; d; e; f; g; h; i]) in Hin.
    apply cells_3x3_concat in Hin as (r & k & Hrk & Hv). by apply (Hnone r k).
Qed.

Lemma adjacent_ne bi bj ni nj : adjacent bi bj ni nj -> (ni, nj) ≠ (bi, bj).
Proof. unfold adjacent. intros Hadj [= -> ->]. lia. Qed.

(** The swap of [get_neighbors], when [(bi, bj)] holds the blank. *)
Lemma swap_cells_blank (s t : grid) bi bj ni nj :
  length s = 3%nat -> Forall (fun row => length row = 3%nat) s ->
  on_board bi bj -> on_board ni nj -> adjacent bi bj ni nj ->
  cell s bi bj = Ok 0 -> swap_cells s bi bj ni nj = Ok t ->
  length t = 3%nat /\ Forall (fun row => length row = 3%nat) t /\
  concat t ≡ₚ concat s /\ cell t ni nj = Ok 0 /\ cell t bi bj = cell s ni nj.
Proof.
  intros Hlen Hrows Hb Hn Hadj H0 Hswap.
  destruct (shape_3x3 s Hlen Hrows) as (a & b & c & d & e & f & g & h & i & ->).
  destruct (swap_cells_spec a b c d e f g h i bi bj ni nj Hb Hn Hadj)
    as (a2 & b2 & c2 & d2 & e2 & f2 & g2 & h2 & i2 & Hswap2 & Hperm & Hcells).
  rewrite Hswap in Hswap2. injection Hswap2 as ->.
  split_and!; [done|repeat constructor|exact Hperm|..].
  - rewrite (Hcells ni nj Hn).
    rewrite bool_decide_false by (by apply adjacent_ne).
    by rewrite bool_decide_true.
  - rewrite (Hcells bi bj Hb). by rewrite bool_decide_true.
Qed.

Lemma Forall2_impl_elem {A B : Type} (P Q : A -> B -> Prop) (l : list A) (k : list B) :
  Forall2 P l k -> (forall x y, x ∈ l -> P x y -> Q x y) -> Forall2 Q l k.
Proof.
  induction 1 as [|x y l k Hxy Hlk IH]; intros Himp; [constructor|].
  constructor.
  - apply Himp; [by left|done].
  - apply IH. intros x' y' Hx'. apply Himp. by right.
Qed.

Lemma valid_grid_blank s : valid_grid s -> 0 ∈ concat s.
Proof. intros (_ & _ & ->). set_solver. Qed.

(** On a valid grid: each grid of [get_neighbors], with the move that
    made it. *)
Lemma get_neighbors_moves (s : grid) :
  valid_grid s ->
  exists bi bj l, get_blank_position s = Ok (Some (bi, bj)) /\
    on_board bi bj /\ cell s bi bj = Ok 0 /\
    get_neighbors s = Ok l /\
    Forall2 (fun m t => valid_grid t /\ is_move s t /\
                        get_blank_position t = Ok (Some (bi + m.1, bj + m.2)))
            (filter (fun m => move_in_bounds bi bj m = true) moves) l.
Proof.
  intros Hs. pose proof Hs as (Hlen & Hrows & Hperm).
  destruct (get_neighbors_3x3 s Hlen Hrows)
    as [(bi & bj & l & Hpos & Hb & H0 & Hl & Hall)|[_ Hno]].
  2:{ destruct Hno. by apply valid_grid_blank. }
  exists bi, bj, l. split_and!; try done.
  eapply Forall2_impl_elem; [exact Hall|].
  intros m t [Hin Hm]%list_elem_of_filter Hswap.
  pose proof (move_in_bounds_on_board _ _ _ Hin) as Hn.
  assert (adjacent bi bj (bi + m.1) (bj + m.2)) as Hadj.
  { unfold adjacent. pose proof (moves_unit m Hm). lia. }
  destruct (swap_cells_blank s t _ _ _ _ Hlen Hrows Hb Hn Hadj H0 Hswap)
    as (Htl & Htr & Htp & Ht0 & Htv).
  assert (valid_grid t) as Ht.
  { split_and!; [done..|]. by rewrite Htp. }
  split; [done|].
  destruct (shape_3x3 s Hlen Hrows) as (a & b & c & d & e & f & g & h & i & Hshape).
  destruct (cell_3x3_total a b c d e f g h i _ _ Hn) as [v Hv].
  rewrite <- Hshape in Hv.
  split.
  - apply is_move_swap; [done..|].
    exists bi, bj, (bi + m.1), (bj + m.2), v. split_and!; try done.
    intros ->. destruct (blank_unique s _ _ _ _ Hs Hb Hn H0 Hv).
    unfold adjacent in Hadj. lia.
  - destruct (get_blank_position_spec t Ht) as (bi' & bj' & Hpos' & Hb' & H0').
    destruct (blank_unique t _ _ _ _ Ht Hb' Hn H0' Ht0) as [-> ->]. done.
Qed.

Lemma Forall2_fmap_eq {A B C : Type} (f : A -> C) (g : B -> C) (l : list A) (k : list B) :
  Forall2 (fun x y => f x = g y) l k -> f <$> l = g <$> k.
Proof. induction 1; [done|]. cbn [fmap list_fmap]. by f_equal. Qed.

(** One legal move can be taken back. *)
Lemma is_move_sym s t : valid_grid s -> is_move s t -> is_move t s.
Proof.
  intros (Hlen & Hrows & _) (i & j & ni & nj & v & Hb & Hn & Hadj & H0 & Hv & Hv0 & Htl & Htr & Hcells).
  exists ni, nj, i, j, v. split_and!; try done.
  - unfold adjacent in *. lia.
  - rewrite (Hcells ni nj Hn).
    rewrite bool_decide_false by (by apply adjacent_ne).
    by rewrite bool_decide_true.
  - rewrite (Hcells i j Hb). by rewrite bool_decide_true.
  - intros r c Hrc. rewrite (Hcells r c Hrc).
    destruct (decide ((r, c) = (ni, nj))) as [[= -> ->]|Hne1].
    + by rewrite bool_decide_true.
    + rewrite !(bool_decide_false _ Hne1).
      destruct (decide ((r, c) = (i, j))) as [[= -> ->]|Hne2].
      * by rewrite !bool_decide_true.
      * by rewrite !(bool_decide_false _ Hne2).
Qed.

Lemma md_term_adjacent_exact v i j ni nj :
  v ≠ 0 -> adjacent i j ni nj -> Z.abs (md_term v i j - md_term v ni nj) = 1.
Proof.
  intros Hv. unfold adjacent, md_term. rewrite bool_decide_true by done. lia.
Qed.

(** One move changes the heuristic by exactly one. *)
Lemma manhattan_distance_move_exact s t :
  length s = 3%nat -> Forall (fun row => length row = 3%nat) s ->
  is_move s t ->
  exists hs ht, manhattan_distance s = Ok hs /\ manhattan_distance t = Ok ht /\
    Z.abs (hs - ht) = 1.
Proof.
  intros Hlen Hrows Hmove.
  apply is_move_swap in Hmove as (bi & bj & ni & nj & v & Hb & Hn & Hadj & H0 & Hv & Hv0 & Hswap);
    [|done..].
  destruct (shape_3x3 s Hlen Hrows) as (a & b & c & d & e & f & g & h & i & ->).
  board_cases Hb Hn Hadj;
    vm_compute in Hswap; injection Hswap as <-;
    cbv in H0; injection H0 as ->;
    cbv in Hv; injection Hv as ->;
    (do 2 eexists; split; [apply manhattan_distance_3x3|];
     split; [apply manhattan_distance_3x3|]);
    rewrite !md_term_0;
    match goal with
    | |- context [md_term v ?i ?j] =>
        match goal with
        | |- context [md_term v ?i' ?j'] =>
            assert_fails (constr_eq i i'; constr_eq j j');
            pose proof (md_term_adjacent_exact v i j i' j' Hv0 ltac:(unfold adjacent; lia))
        end
    end; lia.
Qed.

(** ** One child for each neighbor that is not explored *)

(** The grids of [get_neighbors] are pairwise different, and different from
    the grid given. *)
Lemma get_neighbors_NoDup (s : grid) (l : list grid) :
  valid_grid s -> get_neighbors s = Ok l -> NoDup (s :: l).
Proof.
  intros Hs Hl.
  destruct (get_neighbors_moves s Hs) as (bi & bj & l0 & Hpos & Hb & _ & Hl0 & Hall).
  assert (l0 = l) as -> by congruence.
  apply (NoDup_fmap_1 get_blank_position). cbn [fmap list_fmap].
  assert (get_blank_position <$> l =
          (fun m : Z * Z => Ok (Some (bi + m.1, bj + m.2))) <$>
            filter (fun m => move_in_bounds bi bj m = true) moves) as ->.
  { apply Forall2_fmap_eq, Forall2_flip.
    eapply Forall2_impl; [exact Hall|]. by intros m t (_ & _ & ->). }
  rewrite Hpos. apply NoDup_cons. split.
  - intros (m & Heq & [_ Hm]%list_elem_of_filter)%list_elem_of_fmap.
    injection Heq as H1 H2. pose proof (moves_unit m Hm). lia.
  - apply NoDup_fmap_2.
    + intros [x y] [x' y'] [= ? ?]. simpl in *. f_equal; lia.
    + apply NoDup_filter. unfold moves. compute_done.
Qed.

(** The loop over the neighbors pushes one node for each neighbor that is
    not explored, and nothing else: the grids of the nodes pushed are those
    neighbors, last first. *)
Lemma push_neighbors_kids (closed_list : gset grid) (n : PuzzleNode) :
  forall ns open_list,
    (forall t, t ∈ ns -> exists ht, manhattan_distance t = Ok ht) ->
    exists open_list' kids,
      for_fold (push_neighbor closed_list n) open_list ns = Ok open_list' /\
      open_list' ≡ₚ kids ++ open_list /\
      state <$> kids = reverse (filter (fun t => t ∉ closed_list) ns) /\
      Forall (fun k => parent k = Some n /\ g k = g n + 1 /\
                       manhattan_distance (state k) = Ok (h k)) kids.
Proof.
  induction ns as [|t ns IH]; intros open_list Hmd.
  - exists open_list, []. split_and!; try done.
  - cbn [for_fold]. rewrite push_neighbor_eq, filter_cons.
    destruct (Hmd t ltac:(left)) as [ht Hht].
    case_bool_decide as Hcl.
    + rewrite decide_True by exact Hcl.
      rewrite Hht. cbn [mbind result_bind].
      set (k := mkNode t (Some n) (g n + 1) ht).
      destruct (IH (heappush node_lt open_list k)) as (open' & kids & Hrun & Hperm & Hst & Hkids).
      { intros t' Ht'. apply Hmd. by right. }
      exists open', (kids ++ [k]). split_and!; try done.
      * rewrite Hperm, (heappush_perm node_lt). rewrite <- app_assoc. done.
      * rewrite fmap_app, Hst, reverse_cons. done.
      * apply Forall_app. split; [done|]. by repeat constructor.
    + rewrite decide_False by (intros Hn; by apply Hn).
      cbn [mbind result_bind].
      destruct (IH open_list) as (open' & kids & Hrun & Hperm & Hst & Hkids).
      { intros t' Ht'. apply Hmd. by right. }
      by exists open', kids.
Qed.

(** One iteration that goes on: the nodes pushed, one for each legal move
    from the popped grid to a grid that is not explored. *)
Lemma step_kids (init : grid) (open_list : list PuzzleNode) (closed_list : gset grid)
    (n : PuzzleNode) (rest : list PuzzleNode) :
  valid_grid init ->
  heap_ok node_f open_list ->
  (forall m, m ∈ open_list -> node_ok init m) ->
  heappop node_lt open_list = Ok (n, rest) ->
  state n ≠ goal_state ->
  exists open_list' kids,
    step open_list closed_list =
      Ok (Continue open_list' ({[state n]} ∪ closed_list)) /\
    open_list' ≡ₚ kids ++ rest /\
    NoDup (state <$> kids) /\
    (forall t, t ∈ (state <$> kids) <->
       is_move (state n) t /\ t ∉ {[state n]} ∪ closed_list) /\
    Forall (fun k => parent k = Some n /\ g k = g n + 1 /\
                     manhattan_distance (state k) = Ok (h k)) kids.
Proof.
  intros Hinit Hheap Hnodes Hpop Hgoal.
  destruct (decide (open_list = [])) as [->|Hne]; [done|].
  destruct (heappop_spec node_lt node_f node_lt_key open_list Hheap Hne)
    as (n' & rest' & Hpop' & Hperm & _ & _).
  rewrite Hpop in Hpop'. injection Hpop' as <- <-.
  assert (node_ok init n) as Hn.
  { apply Hnodes. rewrite Hperm. by left. }
  pose proof (node_ok_valid init Hinit n Hn) as Hvalid.
  destruct (get_neighbors_spec (state n) Hvalid) as (ns & bi & bj & Hns & _ & _ & _ & Hmem).
  pose proof (get_neighbors_NoDup _ _ Hvalid Hns) as [_ Hnd]%NoDup_cons.
  destruct (push_neighbors_kids ({[state n]} ∪ closed_list) n ns rest)
    as (open' & kids & Hrun & Hperm' & Hst & Hkids).
  { intros t Ht. apply valid_manhattan. eapply is_move_valid; [done|]. by apply Hmem. }
  exists open', kids. split_and!; try done.
  - unfold step. rewrite Hpop. cbn [mbind result_bind].
    rewrite bool_decide_false by done. rewrite Hns. cbn [mbind result_bind].
    by rewrite Hrun.
  - rewrite Hst, reverse_Permutation. by apply NoDup_filter.
  - intros t. rewrite Hst, elem_of_reverse, list_elem_of_filter, Hmem. tauto.
Qed.

(** ** Reading cells of a grid of any shape *)

Lemma py_getitem_nonneg {A : Type} (l : list A) (i : Z) :
  0 <= i ->
  py_getitem l i =
  match l !! Z.to_nat i with Some x => Ok x | None => Raise IndexError end.
Proof.
  intros Hi. unfold py_getitem, py_norm_index.
  destruct (Z.ltb_spec i 0) as [?|_]; [lia|].
  destruct (Z.ltb_spec i 0) as [?|_]; [lia|].
  destruct (Z.leb_spec (Z.of_nat (length l)) i) as [Hge|Hlt]; simpl.
  - rewrite (proj2 (lookup_ge_None l (Z.to_nat i))) by lia. done.
  - done.
Qed.

Lemma cell_lookup (s : grid) (i j : Z) :
  0 <= i -> 0 <= j ->
  cell s i j =
  match s !! Z.to_nat i ≫= (fun row => row !! Z.to_nat j) with
  | Some v => Ok v
  | None => Raise IndexError
  end.
Proof.
  intros Hi Hj. unfold cell. rewrite py_getitem_nonneg by done.
  destruct (s !! Z.to_nat i) as [row|]; [|done].
  cbn [mbind result_bind option_bind]. by rewrite py_getitem_nonneg.
Qed.

(** The grids on which all nine cells can be read: at least three rows,
    the first three of at least three entries. *)
Lemma cells_readable (s : grid) :
  (forall i j, on_board i j -> exists v, cell s i j = Ok v) <->
  (3 <= length s)%nat /\ Forall (fun row => (3 <= length row)%nat) (take 3 s).
Proof.
  split.
  - intros Hcells.
    assert (forall i, 0 <= i < 3 -> exists row, s !! Z.to_nat i = Some row /\
              (3 <= length row)%nat) as Hrow.
    { intros i Hi. destruct (Hcells i 2 ltac:(unfold on_board; lia)) as [v Hv].
      rewrite cell_lookup in Hv by lia.
      destruct (s !! Z.to_nat i) as [row|]; [|done]. cbn in Hv.
      destruct (row !! Z.to_nat 2) as [w|] eqn:Hw; [|done].
      exists row. split; [done|]. apply lookup_lt_Some in Hw. lia. }
    split.
    + destruct (Hrow 2 ltac:(lia)) as (row & Hr & _).
      apply lookup_lt_Some in Hr. lia.
    + apply Forall_lookup. intros n row Hn.
      apply lookup_take_Some in Hn as [Hn Hlt].
      destruct (Hrow (Z.of_nat n) ltac:(lia)) as (row' & Hr & Hlen).
      rewrite Nat2Z.id in Hr. congruence.
  - intros [Hlen Hrows] i j [Hi Hj]. rewrite cell_lookup by lia.
    destruct (lookup_lt_is_Some_2 s (Z.to_nat i) ltac:(lia)) as [row Hr].
    rewrite Hr. cbn.
    assert ((3 <= length row)%nat) as Hrow.
    { apply (Forall_lookup_1 (fun row => (3 <= length row)%nat) (take 3 s)
               (Z.to_nat i) row Hrows).
      apply lookup_take_Some. split; [done|lia]. }
    destruct (lookup_lt_is_Some_2 row (Z.to_nat j) ltac:(lia)) as [v Hv].
    rewrite Hv. by exists v.
Qed.

Lemma cell_raise (s : grid) (i j : Z) e : cell s i j = Raise e -> e = IndexError.
Proof.
  unfold cell, py_getitem.
  destruct (py_norm_index s i) as [k|]; [|by intros [= <-]].
  destruct (s !! k) as [row|]; [|by intros [= <-]].
  cbn [mbind result_bind].
  destruct (py_norm_index row j) as [k'|]; [|by intros [= <-]].
  destruct (row !! k') as [v|]; [done|by intros [= <-]].
Qed.

(** Rows and entries past the third are never read. *)
Lemma cell_take (s : grid) (i j : Z) :
  on_board i j -> cell (take 3 (take 3 <$> s)) i j = cell s i j.
Proof.
  intros [Hi Hj]. rewrite !cell_lookup by lia.
  rewrite lookup_take_lt by lia. rewrite list_lookup_fmap.
  destruct (s !! Z.to_nat i) as [row|]; [|done]. cbn.
  by rewrite lookup_take_lt by lia.
Qed.

(** ** manhattan_distance, cell by cell *)

Lemma manhattan_cell_eq (s : grid) (i j acc : Z) :
  manhattan_cell s i j acc =
  match cell s i j with
  | Ok v => Ok (acc + md_term v i j)
  | Raise e => Raise e
  end.
Proof.
  unfold manhattan_cell, md_term. destruct (cell s i j) as [v|e]; [|done].
  cbn [mbind result_bind]. case_bool_decide; [done|]. f_equal. lia.
Qed.

Lemma manhattan_distance_eq (s : grid) :
  manhattan_distance s =
  (d ← manhattan_cell s 0 0 0; d ← manhattan_cell s 0 1 d; d ← manhattan_cell s 0 2 d;
   d ← manhattan_cell s 1 0 d; d ← manhattan_cell s 1 1 d; d ← manhattan_cell s 1 2 d;
   d ← manhattan_cell s 2 0 d; d ← manhattan_cell s 2 1 d; manhattan_cell s 2 2 d).
Proof.
  unfold manhattan_distance, range3. cbn [for_fold].
  destruct (manhattan_cell s 0 0 0) as [d1|]; [|done]. cbn [mbind result_bind].
  destruct (manhattan_cell s 0 1 d1) as [d2|]; [|done]. cbn [mbind result_bind].
  destruct (manhattan_cell s 0 2 d2) as [d3|]; [|done]. cbn [mbind result_bind].
  destruct (manhattan_cell s 1 0 d3) as [d4|]; [|done]. cbn [mbind result_bind].
  destruct (manhattan_cell s 1 1 d4) as [d5|]; [|done]. cbn [mbind result_bind].
  destruct (manhattan_cell s 1 2 d5) as [d6|]; [|done]. cbn [mbind result_bind].
  destruct (manhattan_cell s 2 0 d6) as [d7|]; [|done]. cbn [mbind result_bind].
  destruct (manhattan_cell s 2 1 d7) as [d8|]; [|done]. cbn [mbind result_bind].
  by destruct (manhattan_cell s 2 2 d8).
Qed.

Lemma manhattan_distance_ext (s s' : grid) :
  (forall i j, on_board i j -> cell s i j = cell s' i j) ->
  manhattan_distance s = manhattan_distance s'.
Proof.
  intros Hcells. rewrite !manhattan_distance_eq, !manhattan_cell_eq.
  rewrite (Hcells 0 0) by (unfold on_board; lia).
  destruct (cell s' 0 0) as [v1|]; [|done]. cbn [mbind result_bind].
  rewrite !manhattan_cell_eq. rewrite (Hcells 0 1) by (unfold on_board; lia).
  destruct (cell s' 0 1) as [v2|]; [|done]. cbn [mbind result_bind].
  rewrite !manhattan_cell_eq. rewrite (Hcells 0 2) by (unfold on_board; lia).
  destruct (cell s' 0 2) as [v3|]; [|done]. cbn [mbind result_bind].
  rewrite !manhattan_cell_eq. rewrite (Hcells 1 0) by (unfold on_board; lia).
  destruct (cell s' 1 0) as [v4|]; [|done]. cbn [mbind result_bind].
  rewrite !manhattan_cell_eq. rewrite (Hcells 1 1) by (unfold on_board; lia).
  destruct (cell s' 1 1) as [v5|]; [|done]. cbn [mbind result_bind].
  rewrite !manhattan_cell_eq. rewrite (Hcells 1 2) by (unfold on_board; lia).
  destruct (cell s' 1 2) as [v6|]; [|done]. cbn [mbind result_bind].
  rewrite !manhattan_cell_eq. rewrite (Hcells 2 0) by (unfold on_board; lia).
  destruct (cell s' 2 0) as [v7|]; [|done]. cbn [mbind result_bind].
  rewrite !manhattan_cell_eq. rewrite (Hcells 2 1) by (unfold on_board; lia).
  destruct (cell s' 2 1) as [v8|]; [|done]. cbn [mbind result_bind].
  rewrite !manhattan_cell_eq. rewrite (Hcells 2 2) by (unfold on_board; lia).
  done.
Qed.

Ltac next_cell s r k :=
  rewrite (manhattan_cell_eq s r k);
  let v := fresh "v" in let e := fresh "e" in let H := fresh "Hcell" in
  destruct (cell s r k) as [v|e] eqn:H;
  [ cbn [mbind result_bind]; pose proof (md_term_nonneg v r k)
  | apply cell_raise in H as Heq; subst e;
    split; [reflexivity|]; exists r, k; split; [unfold on_board; lia|exact H] ].

(** [manhattan_distance] succeeds when the nine cells can be read, and
    raises [IndexError] when one of them cannot. *)
Lemma manhattan_distance_cells (s : grid) :
  match manhattan_distance s with
  | Ok d => 0 <= d /\ forall i j, on_board i j -> exists v, cell s i j = Ok v
  | Raise e => e = IndexError /\ exists i j, on_board i j /\ cell s i j = Raise IndexError
  end.
Proof.
  rewrite manhattan_distance_eq.
  next_cell s 0 0. next_cell s 0 1. next_cell s 0 2.
  next_cell s 1 0. next_cell s 1 1. next_cell s 1 2.
  next_cell s 2 0. next_cell s 2 1. next_cell s 2 2.
  split; [lia|]. intros i j Hij.
  apply on_board_cases in Hij as [[-> | [-> | ->]] [-> | [-> | ->]]]; by eexists.
Qed.

Lemma manhattan_distance_raise (s : grid) :
  ~ ((3 <= length s)%nat /\ Forall (fun row => (3 <= length row)%nat) (take 3 s)) ->
  manhattan_distance s = Raise IndexError.
Proof.
  intros Hshape. pose proof (manhattan_distance_cells s) as Hmd.
  destruct (manhattan_distance s) as [d|e].
  - destruct Hshape. apply cells_readable, Hmd.
  - by destruct Hmd as [-> _].
Qed.

Lemma md_term_zero v i j : md_term v i j = 0 -> v = 0 \/ v = 3 * i + j + 1.
Proof.
  unfold md_term. case_bool_decide as Hv; [|lia]. intros Hsum. right.
  pose proof (Z.div_mod (v - 1) 3 ltac:(lia)). lia.
Qed.

Lemma manhattan_distance_zero_standard (s : grid) :
  valid_grid s -> manhattan_distance s = Ok 0 -> s = standard_goal.
Proof.
  intros (a & b & c & d & e & f & g & h & i & -> & Hperm)%valid_grid_shape.
  rewrite manhattan_distance_3x3. intros [= Hsum].
  pose proof (md_term_nonneg a 0 0). pose proof (md_term_nonneg b 0 1).
  pose proof (md_term_nonneg c 0 2). pose proof (md_term_nonneg d 1 0).
  pose proof (md_term_nonneg e 1 1). pose proof (md_term_nonneg f 1 2).
  pose proof (md_term_nonneg g 2 0). pose proof (md_term_nonneg h 2 1).
  pose proof (md_term_nonneg i 2 2).
  assert (md_term a 0 0 = 0) as Ha%md_term_zero by lia.
  assert (md_term b 0 1 = 0) as Hb%md_term_zero by lia.
  assert (md_term c 0 2 = 0) as Hc%md_term_zero by lia.
  assert (md_term d 1 0 = 0) as Hd%md_term_zero by lia.
  assert (md_term e 1 1 = 0) as He%md_term_zero by lia.
  assert (md_term f 1 2 = 0) as Hf%md_term_zero by lia.
  assert (md_term g 2 0 = 0) as Hg%md_term_zero by lia.
  assert (md_term h 2 1 = 0) as Hh%md_term_zero by lia.
  assert (md_term i 2 2 = 0) as Hi%md_term_zero by lia.
  clear Hsum.
  assert (NoDup [a; b; c; d; e; f; g; h; i]) as Hnd.
  { rewrite Hperm. compute_done. }
  apply NoDup_9 in Hnd.
  apply valid_grid_range in Hperm.
  assert (i = 0) as ->.
  { apply Forall_lookup_1 with (i := 8%nat) (x := i) in Hperm; [|done].
    clear -Hperm Hi. lia. }
  destruct_and!.
  destruct Ha as [->| ->]; [done|]. destruct Hb as [->| ->]; [done|].
  destruct Hc as [->| ->]; [done|]. destruct Hd as [->| ->]; [done|].
  destruct He as [->| ->]; [done|]. destruct Hf as [->| ->]; [done|].
  destruct Hg as [->| ->]; [done|]. destruct Hh as [->| ->]; [done|].
  reflexivity.
Qed.

(** The heuristic along a sequence of moves: every move changes it by one. *)
Lemma manhattan_distance_walk (k : nat) (s t : grid) :
  moves_to k s t -> valid_grid s ->
  exists hs ht q, manhattan_distance s = Ok hs /\ manhattan_distance t = Ok ht /\
    Z.abs (hs - ht) <= Z.of_nat k /\ Z.of_nat k = hs - ht + 2 * q.
Proof.
  induction 1 as [s|k s t u Hm Hk IH]; intros Hs.
  - destruct (valid_manhattan s Hs) as [hs Hhs].
    exists hs, hs, 0. split_and!; try done; lia.
  - pose proof Hs as (Hlen & Hrows & _).
    destruct (manhattan_distance_move_exact s t Hlen Hrows Hm) as (hs & ht & H1 & H2 & Habs).
    destruct (IH (is_move_valid _ _ Hs Hm)) as (ht' & hu & q & H3 & H4 & Hle & Hq).
    assert (ht' = ht) as -> by congruence.
    assert (hs - ht = 1 \/ hs - ht = -1) as [Hd|Hd] by lia.
    + exists hs, hu, q. split_and!; try done; lia.
    + exists hs, hu, (q + 1). split_and!; try done; lia.
Qed.

(** ** Runs of the loop *)

Lemma run_loop_add k j : forall open_list closed_list,
  run_loop (k + j) open_list closed_list =
  match run_loop k open_list closed_list with
  | Some (open_list', closed_list') => run_loop j open_list' closed_list'
  | None => None
  end.
Proof.
  induction k as [|k IH]; intros o c; [done|].
  cbn [Nat.add run_loop]. destruct o as [|x o]; [done|].
  destruct (step (x :: o) c) as [[path|o2 c2]|e]; [done|apply IH|done].
Qed.

Lemma loop_state_add k j init :
  loop_state (k + j) init =
  match loop_state k init with
  | Some (open_list, closed_list) => run_loop j open_list closed_list
  | None => None
  end.
Proof.
  unfold loop_state. destruct (manhattan_distance init) as [h0|e]; [|done].
  apply run_loop_add.
Qed.

Lemma popped_at_state k init n rest :
  popped_at k init = Some (n, rest) ->
  loop_state k init = Some (frontier_at k init, explored_at k init) /\
  heappop node_lt (frontier_at k init) = Ok (n, rest).
Proof.
  intros Hpop. split; [|by apply popped_at_heappop].
  apply loop_state_observed. unfold popped_at, frontier_at in Hpop.
  destruct (loop_state k init) as [[o c]|]; [done|]. discriminate Hpop.
Qed.

(** A child's [f] is its parent's, or two more. *)
Lemma child_f (init : grid) (n k : PuzzleNode) :
  valid_grid init -> node_ok init n -> node_ok init k ->
  g k = g n + 1 -> is_move (state n) (state k) ->
  node_f k = node_f n \/ node_f k = node_f n + 2.
Proof.
  intros Hinit Hn Hk Hg Hm.
  pose proof (node_ok_valid init Hinit n Hn) as (Hlen & Hrows & _).
  destruct (manhattan_distance_move_exact _ _ Hlen Hrows Hm) as (hs & ht & H1 & H2 & Habs).
  rewrite (node_ok_h init n Hn) in H1. rewrite (node_ok_h init k Hk) in H2.
  injection H1 as <-. injection H2 as <-. unfold node_f. lia.
Qed.

Lemma step_frontier_bound (init : grid) open_list closed_list open_list' closed_list' B :
  valid_grid init -> search_inv init open_list closed_list -> open_list ≠ [] ->
  step open_list closed_list = Ok (Continue open_list' closed_list') ->
  (forall m, m ∈ open_list -> B <= node_f m) ->
  forall m, m ∈ open_list' -> B <= node_f m.
Proof.
  intros Hinit Hinv Hne Hstep Hbound m Hm.
  destruct (step_spec init open_list closed_list Hinit
              (inv_heap _ _ _ Hinv) (inv_nodes _ _ _ Hinv) Hne)
    as (n & rest & Hpop & Hperm & Hmin & [[Hgoal Hdone]|(Hgoal & open2 & kids & Hcont & Hheap & Hperm2 & Hkids & Hall)]).
  { rewrite Hdone in Hstep. discriminate. }
  rewrite Hcont in Hstep. injection Hstep as <- <-.
  assert (n ∈ open_list) as Hn by (rewrite Hperm; by left).
  rewrite Hperm2 in Hm. apply elem_of_app in Hm as [Hm|Hm].
  - destruct (Hkids m Hm) as (Hmok & Hg & Hmove & _ & _).
    pose proof (child_f init n m Hinit (inv_nodes _ _ _ Hinv n Hn) Hmok Hg Hmove).
    specialize (Hbound n Hn). lia.
  - apply Hbound. rewrite Hperm. by right.
Qed.

Lemma run_loop_frontier_bound (init : grid) B :
  valid_grid init ->
  forall j open_list closed_list open_list' closed_list',
    search_inv init open_list closed_list ->
    run_loop j open_list closed_list = Some (open_list', closed_list') ->
    (forall m, m ∈ open_list -> B <= node_f m) ->
    forall m, m ∈ open_list' -> B <= node_f m.
Proof.
  intros Hinit. induction j as [|j IH]; intros o c o' c' Hinv Hrun Hbound.
  - by injection Hrun as <- <-.
  - cbn [run_loop] in Hrun. destruct o as [|x o]; [done|].
    destruct (step (x :: o) c) as [[path|o2 c2]|e] eqn:Hstep; try done.
    eapply IH; [|exact Hrun|].
    + by eapply search_inv_step.
    + by eapply step_frontier_bound.
Qed.

(** ** Paths *)

Lemma moves_to_trans a b s t u :
  moves_to a s t -> moves_to b t u -> moves_to (a + b) s u.
Proof.
  induction 1 as [s|a s s' t Hm Ha IH]; intros Hb; [done|].
  cbn [Nat.add]. eapply moves_to_S; [done|]. by apply IH.
Qed.

Lemma legal_path_tail x path : legal_path (x :: path) -> legal_path path.
Proof. destruct path as [|y path]; [done|]. by intros [_ ?]. Qed.

Lemma legal_path_from_head path : forall x j y,
  legal_path (x :: path) -> (x :: path) !! j = Some y -> moves_to j x y.
Proof.
  induction path as [|z path IH]; intros x j y Hl Hj.
  - destruct j as [|j]; [|done]. injection Hj as <-. constructor.
  - destruct j as [|j].
    + injection Hj as <-. constructor.
    + destruct Hl as [Hxz Hl]. eapply moves_to_S; [done|]. by apply IH.
Qed.

Lemma legal_path_lookup path : forall i j x y,
  legal_path path -> path !! i = Some x -> path !! j = Some y -> (i <= j)%nat ->
  moves_to (j - i) x y.
Proof.
  induction path as [|z path IH]; intros i j x y Hl Hi Hj Hle; [done|].
  destruct i as [|i].
  - injection Hi as <-. rewrite Nat.sub_0_r. by apply (legal_path_from_head path).
  - destruct j as [|j]; [lia|]. cbn [Nat.sub].
    apply (IH i j); [by eapply legal_path_tail|done|done|lia].
Qed.

(** What [solve_puzzle] returns, whatever the fuel. *)
Lemma solve_puzzle_result (init : grid) (fuel : nat) (r : option (list grid)) :
  valid_grid init -> solve_puzzle fuel init = Returned r -> result_ok init r.
Proof.
  intros Hinit Hrun.
  destruct (solve_puzzle_returns init Hinit) as (fuel0 & r0 & Hrun0 & Hres).
  by rewrite (solve_puzzle_deterministic _ _ _ _ _ Hrun (Hrun0 fuel0 ltac:(lia))).
Qed.

(** ** Grids the search rejects or accepts *)

Lemma heappop_singleton {A : Type} (lt : A -> A -> bool) (x : A) :
  heappop lt [x] = Ok (x, []).
Proof. reflexivity. Qed.

Lemma goal_state_blank : 0 ∈ concat goal_state.
Proof. unfold goal_state. set_solver. Qed.

(** ** The run that ends with an empty frontier *)

(** A run that returns [None] has reached the head of the loop with an
    empty frontier. *)
Lemma solve_loop_none_run fuel : forall open_list closed_list,
  solve_loop fuel open_list closed_list = Returned None ->
  exists k closed_list', run_loop k open_list closed_list = Some ([], closed_list').
Proof.
  induction fuel as [|fuel IH]; intros o c Hrun.
  - destruct o; [|done]. by exists 0%nat, c.
  - destruct o as [|x o]; [by exists 0%nat, c|].
    cbn [solve_loop] in Hrun.
    destruct (step (x :: o) c) as [[path|o2 c2]|e] eqn:Hstep; try done.
    destruct (IH _ _ Hrun) as (k & c' & Hk).
    exists (S k), c'. cbn [run_loop]. by rewrite Hstep.
Qed.

(** While the loop is running, fewer iterations than it has made do not
    let [solve_loop] return. *)
Lemma run_loop_out_of_fuel k : forall open_list closed_list open_list' closed_list' fuel,
  run_loop k open_list closed_list = Some (open_list', closed_list') ->
  (fuel < k)%nat -> solve_loop fuel open_list closed_list = OutOfFuel.
Proof.
  induction k as [|k IH]; intros o c o' c' fuel Hrun Hlt; [lia|].
  cbn [run_loop] in Hrun. destruct o as [|x o]; [done|].
  destruct (step (x :: o) c) as [[path|o2 c2]|e] eqn:Hstep; try done.
  destruct fuel as [|fuel]; [done|].
  cbn [solve_loop]. rewrite Hstep. eapply IH; [done|lia].
Qed.

(** After the iterations of a run, [solve_loop] goes on from the state
    reached. *)
Lemma run_loop_solve_loop k : forall open_list closed_list open_list' closed_list' fuel,
  run_loop k open_list closed_list = Some (open_list', closed_list') ->
  solve_loop (k + fuel) open_list closed_list = solve_loop fuel open_list' closed_list'.
Proof.
  induction k as [|k IH]; intros o c o' c' fuel Hrun.
  - by injection Hrun as <- <-.
  - cbn [run_loop] in Hrun. destruct o as [|x o]; [done|].
    destruct (step (x :: o) c) as [[path|o2 c2]|e] eqn:Hstep; try done.
    cbn [Nat.add solve_loop]. rewrite Hstep. by apply IH.
Qed.

(** The run on a grid from which the goal cannot be reached: it ends, after
    some number [k] of iterations, with an empty frontier and with every
    grid that can be reached in the explored set. *)
Lemma unsolvable_run_exhausts (init : grid) :
  valid_grid init -> (forall k, ~ moves_to k init goal_state) ->
  exists k closed_list,
    loop_state k init = Some ([], closed_list) /\
    (forall fuel, (fuel < k)%nat -> solve_puzzle fuel init = OutOfFuel) /\
    (forall fuel, (k <= fuel)%nat -> solve_puzzle fuel init = Returned None) /\
    (forall t, t ∈ closed_list <-> exists j, moves_to j init t).
Proof.
  intros Hinit Hno.
  destruct (solve_puzzle_returns_none init Hinit) as (fuel0 & r & Hrun & Hnone).
  rewrite (Hnone Hno) in Hrun. specialize (Hrun fuel0 ltac:(lia)).
  destruct (valid_manhattan init Hinit) as [h0 Hh0].
  unfold solve_puzzle in Hrun. rewrite Hh0 in Hrun.
  destruct (solve_loop_none_run _ _ _ Hrun) as (k & c & Hk).
  assert (loop_state k init = Some ([], c)) as Hstate.
  { unfold loop_state. by rewrite Hh0. }
  pose proof (loop_state_inv _ _ _ _ Hinit Hstate) as Hinv.
  exists k, c. split_and!; [done|..].
  - intros fuel Hlt. unfold solve_puzzle. rewrite Hh0.
    by eapply run_loop_out_of_fuel.
  - intros fuel Hle. unfold solve_puzzle. rewrite Hh0.
    replace fuel with (k + (fuel - k))%nat by lia.
    rewrite (run_loop_solve_loop _ _ _ _ _ _ Hk). by destruct (fuel - k)%nat.
  - intros t. split; [by apply (inv_closed _ _ _ Hinv)|].
    intros [j Hj]. destruct (decide (t ∈ c)) as [Ht|Ht]; [done|].
    destruct (frontier_on_path init [] c j t Hinv Hj Ht) as (m & _ & _ & Hm & _).
    by apply elem_of_nil in Hm.
Qed.

(** ** The search on 3x3 grids of any content *)

Lemma rearranged_refl (s : grid) :
  length s = 3%nat -> Forall (fun row => length row = 3%nat) s -> rearranged s s.
Proof. by intros Hlen Hrows. Qed.

Lemma rearranged_rearrangements init t : rearranged init t -> t ∈ rearrangements init.
Proof.
  intros (Hlen & Hrows & Hperm).
  destruct (shape_3x3 t Hlen Hrows) as (a & b & c & d & e & f & g & h & i & ->).
  unfold rearrangements. apply elem_of_list_to_set, list_elem_of_fmap.
  exists [a; b; c; d; e; f; g; h; i]. split; [done|].
  apply permutations_Permutation. by symmetry.
Qed.

Lemma rearranged_manhattan init t :
  rearranged init t -> exists ht, manhattan_distance t = Ok ht.
Proof.
  intros (Hlen & Hrows & _).
  destruct (shape_3x3 t Hlen Hrows) as (a & b & c & d & e & f & g & h & i & ->).
  eexists. apply manhattan_distance_3x3.
Qed.

(** With a blank among the cells, [get_neighbors] returns rearrangements. *)
Lemma get_neighbors_rearranged init s :
  0 ∈ concat init -> rearranged init s ->
  exists l, get_neighbors s = Ok l /\ forall t, t ∈ l -> rearranged init t.
Proof.
  intros Hblank (Hlen & Hrows & Hperm).
  destruct (get_neighbors_3x3 s Hlen Hrows)
    as [(bi & bj & l & _ & Hb & H0 & Hl & Hall)|[_ Hno]].
  2:{ destruct Hno. by rewrite Hperm. }
  exists l. split; [done|]. intros t Ht.
  apply list_elem_of_lookup in Ht as [idx Hidx].
  destruct (Forall2_lookup_r _ _ _ _ _ Hall Hidx) as (m & Hm & Hswap).
  apply list_elem_of_lookup_2, list_elem_of_filter in Hm as [Hin Hm].
  pose proof (move_in_bounds_on_board _ _ _ Hin) as Hn.
  assert (adjacent bi bj (bi + m.1) (bj + m.2)) as Hadj.
  { unfold adjacent. pose proof (moves_unit m Hm). lia. }
  destruct (swap_cells_blank s t _ _ _ _ Hlen Hrows Hb Hn Hadj H0 Hswap)
    as (Htl & Htr & Htp & _).
  split_and!; [done..|]. by rewrite Htp.
Qed.

(** One iteration of the loop on a heap of rearrangements of a grid with a
    blank. *)
Lemma step_rearranged (init : grid) (open_list : list PuzzleNode)
    (closed_list : gset grid) :
  0 ∈ concat init ->
  heap_ok node_f open_list ->
  (forall n, n ∈ open_list -> rearranged init (state n)) ->
  open_list ≠ [] ->
  exists n rest,
    open_list ≡ₚ n :: rest /\
    ((state n = goal_state /\
      step open_list closed_list = Ok (Done (reverse (path_to_root n)))) \/
     (state n ≠ goal_state /\
      exists open_list' kids,
        step open_list closed_list =
          Ok (Continue open_list' ({[state n]} ∪ closed_list)) /\
        heap_ok node_f open_list' /\
        open_list' ≡ₚ kids ++ rest /\
        forall k, k ∈ kids ->
          rearranged init (state k) /\ (state k ∉ {[state n]} ∪ closed_list))).
Proof.
  intros Hblank Hheap Hnodes Hne.
  destruct (heappop_spec node_lt node_f node_lt_key open_list Hheap Hne)
    as (n & rest & Hpop & Hperm & Hrest & _).
  exists n, rest. split; [done|].
  unfold step. rewrite Hpop. cbn [mbind result_bind].
  case_bool_decide as Hgoal; [by left|right]. split; [done|].
  assert (rearranged init (state n)) as Hn.
  { apply Hnodes. rewrite Hperm. by left. }
  destruct (get_neighbors_rearranged init (state n) Hblank Hn) as (ns & Hns & Hall).
  rewrite Hns. cbn [mbind result_bind].
  destruct (push_neighbors_spec ({[state n]} ∪ closed_list) n ns rest Hrest)
    as (open' & kids & Hrun & Hh & Hperm' & Hkids & _).
  { intros t Ht. eapply rearranged_manhattan. by apply Hall. }
  rewrite Hrun. cbn [mbind result_bind].
  exists open', kids. split_and!; try done.
  intros k Hk. destruct (Hkids k Hk) as (_ & _ & Hin & Hncl & _).
  split; [by apply Hall|done].
Qed.

Lemma solve_loop_rearranged_terminates (init : grid) :
  0 ∈ concat init ->
  forall u d open_list closed_list,
    size (rearrangements init ∖ closed_list) = u ->
    stale open_list closed_list = d ->
    heap_ok node_f open_list ->
    (forall n, n ∈ open_list -> rearranged init (state n)) ->
    exists fuel r, solve_loop fuel open_list closed_list = Returned r.
Proof.
  intros Hblank.
  induction u as [u IHu] using lt_wf_ind.
  induction d as [d IHd] using lt_wf_ind.
  intros open_list closed_list Hu Hd Hheap Hnodes.
  destruct (decide (open_list = [])) as [->|Hne].
  { exists 0%nat, None. done. }
  destruct (step_rearranged init open_list closed_list Hblank Hheap Hnodes Hne)
    as (n & rest & Hperm & [[Hgoal Hdone]|(Hgoal & open2 & kids & Hcont & Hheap2 & Hperm2 & Hkids)]).
  { exists 1%nat, (Some (reverse (path_to_root n))).
    destruct open_list; [done|]. cbn [solve_loop]. by rewrite Hdone. }
  assert (n ∈ open_list) as Hn by (rewrite Hperm; by left).
  assert (forall m, m ∈ open2 -> rearranged init (state m)) as Hnodes2.
  { intros m Hm. rewrite Hperm2 in Hm. apply elem_of_app in Hm as [Hm|Hm].
    - by apply Hkids.
    - apply Hnodes. rewrite Hperm. by right. }
  assert (exists fuel r, solve_loop fuel open2 ({[state n]} ∪ closed_list) = Returned r)
    as (fuel & r & Hrun).
  { destruct (decide (state n ∈ closed_list)) as [Hcl|Hncl].
    - assert ({[state n]} ∪ closed_list = closed_list) as Heq.
      { apply subseteq_union_1_L. by apply singleton_subseteq_l. }
      rewrite Heq in *.
      assert (stale open2 closed_list < d)%nat as Hlt.
      { subst d. rewrite (stale_perm _ _ _ Hperm2), (stale_perm _ _ _ Hperm).
        rewrite stale_app, stale_fresh by (intros k Hk; by apply Hkids).
        unfold stale. rewrite filter_cons_True by done. simpl. lia. }
      exact (IHd _ Hlt open2 closed_list Hu eq_refl Hheap2 Hnodes2).
    - assert (size (rearrangements init ∖ ({[state n]} ∪ closed_list)) < u)%nat as Hlt.
      { subst u.
        exact (size_difference_add (rearrangements init) closed_list (state n)
                 (rearranged_rearrangements _ _ (Hnodes n Hn)) Hncl). }
      exact (IHu _ Hlt _ open2 _ eq_refl eq_refl Hheap2 Hnodes2). }
  exists (S fuel), r. destruct open_list; [done|].
  cbn [solve_loop]. by rewrite Hcont.
Qed.

Lemma solve_loop_rearranged_no_raise (init : grid) :
  0 ∈ concat init ->
  forall fuel open_list closed_list e,
    heap_ok node_f open_list ->
    (forall n, n ∈ open_list -> rearranged init (state n)) ->
    solve_loop fuel open_list closed_list ≠ Raised e.
Proof.
  intros Hblank. induction fuel as [|fuel IH]; intros o c e Hheap Hnodes.
  - by destruct o.
  - destruct o as [|x o]; [done|]. cbn [solve_loop].
    destruct (step_rearranged init (x :: o) c Hblank Hheap Hnodes ltac:(done))
      as (n & rest & Hperm & [[_ Hdone]|(_ & o2 & kids & Hcont & Hheap2 & Hperm2 & Hkids)]).
    + by rewrite Hdone.
    + rewrite Hcont. apply IH; [done|].
      intros m Hm. rewrite Hperm2 in Hm. apply elem_of_app in Hm as [Hm|Hm].
      * by apply Hkids.
      * apply Hnodes. rewrite Hperm. by right.
Qed.

Lemma heap_ok_singleton {A : Type} (key : A -> Z) (x : A) : heap_ok key [x].
Proof. intros i y p Hi Hy. destruct i as [|i]; [lia|done]. Qed.

(** ** Sizes of the frontier and of the explored set *)

Lemma push_neighbors_length (closed_list : gset grid) (n : PuzzleNode) :
  forall ns open_list open_list',
    for_fold (push_neighbor closed_list n) open_list ns = Ok open_list' ->
    length open_list' =
    (length open_list + length (filter (fun t => t ∉ closed_list) ns))%nat.
Proof.
  induction ns as [|t ns IH]; intros o o' Hrun.
  - injection Hrun as <-. simpl. lia.
  - cbn [for_fold] in Hrun. rewrite push_neighbor_eq in Hrun.
    rewrite filter_cons. case_bool_decide as Hcl.
    + rewrite decide_True by exact Hcl.
      destruct (manhattan_distance t) as [ht|e]; [|done].
      cbn [mbind result_bind] in Hrun.
      rewrite (IH _ _ Hrun), (Permutation_length (heappush_perm node_lt o _)).
      simpl. lia.
    + rewrite decide_False by (intros Hn; by apply Hn). cbn [mbind result_bind] in Hrun.
      by apply IH.
Qed.

Lemma expected_neighbors_le bi bj : (expected_neighbors bi bj <= 4)%nat.
Proof. unfold expected_neighbors. repeat case_bool_decide; lia. Qed.

Lemma loop_state_S k init open_list' closed_list' :
  loop_state (S k) init = Some (open_list', closed_list') ->
  exists open_list closed_list,
    loop_state k init = Some (open_list, closed_list) /\ open_list ≠ [] /\
    step open_list closed_list = Ok (Continue open_list' closed_list').
Proof.
  replace (S k) with (k + 1)%nat by lia. rewrite loop_state_add.
  destruct (loop_state k init) as [[o c]|]; [|done].
  cbn [run_loop]. destruct o as [|x o]; [done|].
  destruct (step (x :: o) c) as [[path|o2 c2]|e] eqn:Hstep; try done.
  intros [= <- <-]. by exists (x :: o), c.
Qed.

(** The length of the frontier after one iteration. *)
Lemma step_length (init : grid) open_list closed_list open_list' closed_list' :
  valid_grid init -> search_inv init open_list closed_list -> open_list ≠ [] ->
  step open_list closed_list = Ok (Continue open_list' closed_list') ->
  exists n rest ns,
    open_list ≡ₚ n :: rest /\ closed_list' = {[state n]} ∪ closed_list /\
    (length ns <= 4)%nat /\ (forall t, t ∈ ns <-> is_move (state n) t) /\
    length open_list' =
    (length rest + length (filter (fun t => t ∉ closed_list') ns))%nat.
Proof.
  intros Hinit Hinv Hne Hstep.
  destruct (heappop_spec node_lt node_f node_lt_key open_list (inv_heap _ _ _ Hinv) Hne)
    as (n & rest & Hpop & Hperm & _ & _).
  assert (n ∈ open_list) as Hn by (rewrite Hperm; by left).
  pose proof (node_ok_valid init Hinit n (inv_nodes _ _ _ Hinv n Hn)) as Hvalid.
  destruct (get_neighbors_spec (state n) Hvalid) as (ns & bi & bj & Hns & _ & _ & Hlen & Hmem).
  unfold step in Hstep. rewrite Hpop in Hstep. cbn [mbind result_bind] in Hstep.
  case_bool_decide; [done|]. rewrite Hns in Hstep. cbn [mbind result_bind] in Hstep.
  destruct (for_fold _ rest ns) as [o2|e] eqn:Hpush; [|done].
  cbn [mbind result_bind] in Hstep. injection Hstep as <- <-.
  exists n, rest, ns. split_and!; try done.
  - rewrite Hlen. apply expected_neighbors_le.
  - by apply push_neighbors_length in Hpush.
Qed.

Lemma size_add_le (c : gset grid) (s : grid) : (size ({[s]} ∪ c) <= S (size c))%nat.
Proof.
  rewrite size_union_alt, size_singleton.
  assert (c ∖ {[s]} ⊆ c) as Hsub.
  { intros x Hx. by apply elem_of_difference in Hx as [Hx _]. }
  pose proof (subseteq_size _ _ Hsub). lia.
Qed.

(** After [k] iterations: at most [k] explored grids, at most [2 k + 2]
    frontier nodes, and, once the root is expanded, every frontier node is
    one move away from a parent whose grid is explored. *)
Lemma loop_state_bounds (init : grid) :
  valid_grid init ->
  forall k open_list closed_list,
    loop_state k init = Some (open_list, closed_list) ->
    (size closed_list <= k)%nat /\ (length open_list <= 2 * k + 2)%nat /\
    (k = 0%nat -> length open_list = 1%nat) /\
    ((0 < k)%nat -> forall n, n ∈ open_list ->
       exists p, parent n = Some p /\ (state p ∈ closed_list) /\
         is_move (state p) (state n)).
Proof.
  intros Hinit. induction k as [|k IH]; intros o' c' Hstate.
  - unfold loop_state in Hstate.
    destruct (manhattan_distance init) as [h0|e]; [|done].
    injection Hstate as <- <-. rewrite size_empty. simpl.
    split_and!; [lia|lia|done|lia].
  - apply loop_state_S in Hstate as (o & c & Hstate & Hne & Hstep).
    destruct (IH o c Hstate) as (Hsize & Hlen & Hroot & Hpar).
    pose proof (loop_state_inv _ _ _ _ Hinit Hstate) as Hinv.
    destruct (step_length init o c o' c' Hinit Hinv Hne Hstep)
      as (n & rest & ns & Hperm & Hc' & Hns & Hmem & Hlen').
    destruct (step_spec init o c Hinit (inv_heap _ _ _ Hinv) (inv_nodes _ _ _ Hinv) Hne)
      as (n1 & rest1 & _ & Hperm1 & _ & [[_ Hdone]|(_ & o2 & kids & Hcont & _ & Hperm2 & Hkids & _)]).
    { rewrite Hdone in Hstep. discriminate Hstep. }
    rewrite Hcont in Hstep. injection Hstep as -> Hc1.
    assert (n ∈ o) as Hn by (rewrite Hperm; by left).
    pose proof (Permutation_length Hperm) as Hlo. cbn [length] in Hlo.
    pose proof (length_filter (fun t => t ∉ c') ns) as Hfl.
    split_and!.
    + rewrite Hc'. pose proof (size_add_le c (state n)). lia.
    + destruct k as [|k].
      * specialize (Hroot eq_refl). lia.
      * destruct (Hpar ltac:(lia) n Hn) as (p & _ & Hpc & Hmove).
        assert (valid_grid (state p)) as Hvp.
        { destruct (inv_closed _ _ _ Hinv _ Hpc) as [j Hj]. by eapply moves_to_valid. }
        assert (length (filter (fun t => t ∉ c') ns) < length ns)%nat.
        { apply (length_filter_lt _ _ (state p)).
          - apply Hmem. by apply is_move_sym.
          - intros Hnot. apply Hnot. rewrite Hc'. apply elem_of_union. by right. }
        lia.
    + lia.
    + intros _ m Hm. rewrite Hperm2 in Hm. apply elem_of_app in Hm as [Hm|Hm].
      * destruct (Hkids m Hm) as (_ & _ & Hmove & _ & Hparent).
        exists n1. split; [done|]. split; [|done].
        rewrite <- Hc1. apply elem_of_union. left. by apply elem_of_singleton.
      * assert (m ∈ o) as Hmo by (rewrite Hperm1; by right).
        destruct k as [|k].
        -- specialize (Hroot eq_refl). rewrite Hperm1 in Hroot. simpl in Hroot.
           destruct rest1; [|simpl in Hroot; lia]. by apply elem_of_nil in Hm.
        -- destruct (Hpar ltac:(lia) m Hmo) as (p & Hp & Hpc & Hmove).
           exists p. split; [done|]. split; [|done].
           rewrite <- Hc1. apply elem_of_union. by right.
Qed.

(** Every node of the search starts from [h (init)]: its [f] is that value
    plus an even number. *)
Lemma node_ok_f (init : grid) (n : PuzzleNode) (h0 : Z) :
  valid_grid init -> manhattan_distance init = Ok h0 -> node_ok init n ->
  exists q, 0 <= q /\ node_f n = h0 + 2 * q.
Proof.
  intros Hinit Hh0 Hn.
  destruct (manhattan_distance_walk _ _ _ (node_ok_moves init n Hn) Hinit)
    as (hs & ht & q & H1 & H2 & Habs & Hq).
  rewrite Hh0 in H1. rewrite (node_ok_h init n Hn) in H2.
  injection H1 as <-. injection H2 as <-.
  pose proof (node_ok_g init n Hn). rewrite Z2Nat.id in Habs, Hq by done.
  exists q. unfold node_f. lia.
Qed.

(** ** What the script prints *)



Lemma print_steps_snoc (l : list grid) (s : grid) :
  mjoin (imap print_step (l ++ [s])) =
  mjoin (imap print_step l) ++ print_step (length l) s.
Proof.
  rewrite imap_app, join_app. cbn [imap].
  change (mjoin [print_step (length l + 0) s]) with (print_step (length l + 0) s ++ []).
  rewrite app_nil_r. do 2 f_equal. lia.
Qed.





(** ** Every grid of the goal's parity reaches the goal *)

Lemma within_mono d d' t : (d <= d')%nat -> within d t -> within d' t.
Proof. intros Hle (Ht & k & Hk & Hm). split; [done|]. exists k. split; [lia|done]. Qed.

Lemma within_move d s t : within d s -> is_move s t -> within (S d) t.
Proof.
  intros (Hs & k & Hk & Hm) Hst. split; [by eapply is_move_valid|].
  exists (S k). split; [lia|]. by eapply moves_to_snoc.
Qed.

Lemma bfs_visit_within d acc t :
  within d t ->
  (forall s, s ∈ acc.1 -> within d s) ->
  (forall c s, acc.2 !! c = Some s -> within d s) ->
  (forall s, s ∈ (bfs_visit acc t).1 -> within d s) /\
  (forall c s, (bfs_visit acc t).2 !! c = Some s -> within d s).
Proof.
  intros Ht Hnext Hvis. unfold bfs_visit.
  destruct (acc.2 !! grid_code t) as [t'|] eqn:Hlook; [done|]. cbn [fst snd]. split.
  - intros s [->|Hs]%elem_of_cons; [done|by apply Hnext].
  - intros c s [[_ <-]|[_ Hs]]%lookup_insert_Some; [done|by eapply Hvis].
Qed.

Lemma bfs_visits_within d ns : forall acc,
  (forall t, t ∈ ns -> within d t) ->
  (forall s, s ∈ acc.1 -> within d s) ->
  (forall c s, acc.2 !! c = Some s -> within d s) ->
  (forall s, s ∈ (foldl bfs_visit acc ns).1 -> within d s) /\
  (forall c s, (foldl bfs_visit acc ns).2 !! c = Some s -> within d s).
Proof.
  induction ns as [|t ns IH]; intros acc Hns Hnext Hvis; [done|].
  cbn [foldl].
  destruct (bfs_visit_within d acc t (Hns t ltac:(left)) Hnext Hvis) as [H1 H2].
  apply IH; [|done..]. intros t' Ht'. apply Hns. by right.
Qed.

Lemma bfs_expand_within d acc s :
  within d s ->
  (forall t, t ∈ acc.1 -> within (S d) t) ->
  (forall c t, acc.2 !! c = Some t -> within (S d) t) ->
  (forall t, t ∈ (bfs_expand acc s).1 -> within (S d) t) /\
  (forall c t, (bfs_expand acc s).2 !! c = Some t -> within (S d) t).
Proof.
  intros Hs Hnext Hvis. unfold bfs_expand.
  destruct (get_neighbors_spec s (proj1 Hs)) as (ns & _ & _ & -> & _ & _ & _ & Hmem).
  apply bfs_visits_within; [|done..].
  intros t Ht. eapply within_move; [done|]. by apply Hmem.
Qed.

Lemma bfs_expands_within d frontier : forall acc,
  (forall s, s ∈ frontier -> within d s) ->
  (forall s, s ∈ acc.1 -> within (S d) s) ->
  (forall c s, acc.2 !! c = Some s -> within (S d) s) ->
  (forall s, s ∈ (foldl bfs_expand acc frontier).1 -> within (S d) s) /\
  (forall c s, (foldl bfs_expand acc frontier).2 !! c = Some s -> within (S d) s).
Proof.
  induction frontier as [|s frontier IH]; intros acc Hfr Hnext Hvis; [done|].
  cbn [foldl].
  destruct (bfs_expand_within d acc s (Hfr s ltac:(left)) Hnext Hvis) as [H1 H2].
  apply IH; [|done..]. intros s' Hs'. apply Hfr. by right.
Qed.

Lemma bfs_within fuel : forall d frontier visited,
  (forall s, s ∈ frontier -> within d s) ->
  (forall c s, visited !! c = Some s -> within d s) ->
  forall c s, bfs fuel frontier visited !! c = Some s -> within (d + fuel) s.
Proof.
  induction fuel as [|fuel IH]; intros d frontier visited Hfr Hvis c s Hs.
  - eapply within_mono; [|by eapply Hvis]. lia.
  - cbn [bfs] in Hs. destruct frontier as [|s0 frontier].
    { eapply within_mono; [|by eapply Hvis]. lia. }
    destruct (foldl bfs_expand ([], visited) (s0 :: frontier)) as [next visited'] eqn:Hfold.
    destruct (bfs_expands_within d (s0 :: frontier) ([], visited) Hfr) as [H1 H2].
    { by intros ? ?%elem_of_nil. }
    { intros c' s' Hs'. eapply within_mono; [|by eapply Hvis]. lia. }
    rewrite Hfold in H1, H2. cbn [fst snd] in H1, H2.
    replace (d + S fuel)%nat with (S d + fuel)%nat by lia.
    by eapply IH.
Qed.

Lemma covers_elem (visited : Pmap grid) (l : list grid) (s : grid) :
  covers visited l = true -> s ∈ l -> visited !! grid_code s = Some s.
Proof.
  unfold covers. intros Hcov Hs.
  induction l as [|t l IH]; [by apply elem_of_nil in Hs|].
  cbn [forallb] in Hcov. apply andb_prop in Hcov as [Ht Hl].
  apply elem_of_cons in Hs as [->|Hs]; [by apply bool_decide_eq_true in Ht|by apply IH].
Qed.

Lemma goal_reach_within c s : goal_reach !! c = Some s -> within 30 s.
Proof.
  unfold goal_reach. intros Hs.
  apply (bfs_within 30 0 [goal_state] {[grid_code goal_state := goal_state]}) in Hs; [done|..].
  - intros s' ->%list_elem_of_singleton. split; [apply valid_goal_state|].
    exists 0%nat. split; [lia|constructor].
  - intros c' s' [_ <-]%lookup_singleton_Some. split; [apply valid_goal_state|].
    exists 0%nat. split; [lia|constructor].
Qed.

(** The enumeration finds each of the 181440 grids of the goal's parity. *)
Lemma goal_reach_covers :
  covers goal_reach (grids_of_parity (grid_parity goal_state)) = true.
Proof. vm_compute. reflexivity. Qed.

Lemma moves_to_sym k s t : valid_grid s -> moves_to k s t -> moves_to k t s.
Proof.
  intros Hs Hk. induction Hk as [s|k s t u Hm Hk IH]; [constructor|].
  eapply moves_to_snoc; [apply IH; by eapply is_move_valid|by apply is_move_sym].
Qed.

(** A valid grid of the goal's parity is at most 30 moves from the goal. *)
Lemma same_parity_reaches_goal (init : grid) :
  valid_grid init -> grid_parity init = grid_parity goal_state ->
  exists k, (k <= 30)%nat /\ moves_to k init goal_state.
Proof.
  intros Hinit Hpar.
  pose proof (valid_grid_parity init Hinit) as Hin. rewrite Hpar in Hin.
  pose proof (covers_elem goal_reach (grids_of_parity (grid_parity goal_state)) init
                goal_reach_covers Hin) as Hlook.
  destruct (goal_reach_within _ _ Hlook) as (_ & k & Hk & Hm).
  exists k. split; [done|]. apply moves_to_sym; [apply valid_goal_state|done].
Qed.

(** * The claims *)

(** C1. The claim says that [manhattan_distance] sums the L1 distances to
    the positions of the tiles in the module's [goal_state], so that it is 0
    on [goal_state].  On the code it is 12 there, while the distance of
    [goal_state] to itself, computed as the claim words it, is 0. *)
Theorem manhattan_distance_goal_state :
  manhattan_distance goal_state = Ok 12 /\
  l1_distance_to goal_state goal_state = 0.
Proof. split; reflexivity. Qed.

(** C10. On every valid grid [manhattan_distance] is the sum over the
    non-blank cells of the L1 distance to the position of the value in the
    fixed grid [[1,2,3],[4,5,6],[7,8,0]], where value [v] sits at
    [divmod(v - 1, 3)]; this grid is not the module's [goal_state], on which
    the result is 12. *)
Theorem manhattan_distance_standard_goal (s : grid) :
  valid_grid s ->
  manhattan_distance s = Ok (l1_distance_to standard_goal s) /\
  (forall v, 1 <= v <= 8 ->
     position_in standard_goal v = Some ((v - 1) `div` 3, (v - 1) `mod` 3)) /\
  standard_goal ≠ goal_state /\
  manhattan_distance goal_state = Ok 12.
Proof.
  intros (a & b & c & d & e & f & g & h & i & -> & Hperm)%valid_grid_shape.
  split; [|split; [|split; [done|reflexivity]]].
  - rewrite manhattan_distance_3x3.
    apply valid_grid_range in Hperm.
    repeat match goal with
           | H : Forall _ (_ :: _) |- _ => apply Forall_cons in H as [? H]
           end.
    rewrite !md_term_standard by done.
    unfold l1_distance_to. cbn -[l1_term Z.add cell].
    rewrite cell_00, cell_01, cell_02, cell_10, cell_11, cell_12,
      cell_20, cell_21, cell_22.
    f_equal. lia.
  - intros v Hv.
    assert (v = 1 \/ v = 2 \/ v = 3 \/ v = 4 \/ v = 5 \/ v = 6 \/ v = 7 \/ v = 8)
      as [->|[->|[->|[->|[->|[->|[->| ->]]]]]]] by lia; reflexivity.
Qed.

(** On the module's [initial_state]. *)
Lemma manhattan_distance_standard_goal_witness :
  valid_grid initial_state /\
  manhattan_distance initial_state = Ok (l1_distance_to standard_goal initial_state).
Proof.
  split; [apply valid_initial_state|].
  apply (manhattan_distance_standard_goal initial_state valid_initial_state).
Defined.

(** C8. On a valid grid [get_neighbors] returns 2 grids when the blank is
    in a corner, 3 when it is on an edge and 4 when it is in the centre, and
    each of them is a valid grid one legal move away. *)
Theorem get_neighbors_count (s : grid) (bi bj : Z) :
  valid_grid s -> on_board bi bj -> cell s bi bj = Ok 0 ->
  exists l, get_neighbors s = Ok l /\
    length l = expected_neighbors bi bj /\
    Forall (fun t => valid_grid t /\ is_move s t) l.
Proof.
  intros Hs Hb H0.
  destruct (get_neighbors_spec s Hs) as (l & bi' & bj' & Hl & Hb' & H0' & Hlen & Hmem).
  destruct (blank_unique s _ _ _ _ Hs Hb Hb' H0 H0') as [-> ->].
  exists l. split; [done|]. split; [done|].
  apply Forall_forall. intros t Ht. apply Hmem in Ht.
  split; [by eapply is_move_valid|done].
Qed.

(** On the module's [initial_state], whose blank is in the centre. *)
Lemma get_neighbors_count_witness :
  valid_grid initial_state /\ on_board 1 1 /\ cell initial_state 1 1 = Ok 0 /\
  exists l, get_neighbors initial_state = Ok l /\ length l = 4%nat /\
    Forall (fun t => valid_grid t /\ is_move initial_state t) l.
Proof.
  split; [apply valid_initial_state|].
  split; [unfold on_board; lia|]. split; [reflexivity|].
  apply (get_neighbors_count initial_state 1 1 valid_initial_state);
    [unfold on_board; lia|reflexivity].
Defined.

(** C4. For every valid grid from which the goal can be reached,
    [solve_puzzle] returns a sequence that starts with the initial grid, ends
    with the goal grid, and in which every two consecutive grids are one
    legal move apart. *)
Theorem solve_puzzle_path_legal (init : grid) :
  valid_grid init -> (exists k, moves_to k init goal_state) ->
  exists fuel path,
    (forall fuel', (fuel <= fuel')%nat ->
       solve_puzzle fuel' init = Returned (Some path)) /\
    head path = Some init /\ last path = Some goal_state /\ legal_path path.
Proof.
  intros Hinit [k Hk].
  destruct (solve_puzzle_returns init Hinit) as (fuel & [path|] & Hrun & Hres).
  2:{ by destruct (Hres k). }
  destruct Hres as (n & Hn & Hgoal & -> & _).
  destruct (node_ok_path init n Hn) as (l & Hl & Hhead & Hlegal & _).
  exists fuel, (reverse (path_to_root n)). split; [done|].
  rewrite Hl. split; [done|]. split; [|done].
  by rewrite last_snoc, Hgoal.
Qed.

(** On the module's [initial_state]. *)
Lemma solve_puzzle_path_legal_witness :
  valid_grid initial_state /\ (exists k, moves_to k initial_state goal_state) /\
  exists fuel path,
    (forall fuel', (fuel <= fuel')%nat ->
       solve_puzzle fuel' initial_state = Returned (Some path)) /\
    head path = Some initial_state /\ last path = Some goal_state /\
    legal_path path.
Proof.
  split; [apply valid_initial_state|].
  split; [exists 18%nat; apply initial_state_solvable|].
  apply (solve_puzzle_path_legal initial_state valid_initial_state).
  exists 18%nat. apply initial_state_solvable.
Defined.

(** C2. For every valid grid from which the goal can be reached, the
    sequence [solve_puzzle] returns has one grid more than the least number
    of legal moves that lead from the initial grid to the goal: its moves
    reach the goal, and no sequence of moves reaching the goal is shorter. *)
Theorem solve_puzzle_optimal (init : grid) :
  valid_grid init -> (exists k, moves_to k init goal_state) ->
  exists fuel path,
    (forall fuel', (fuel <= fuel')%nat ->
       solve_puzzle fuel' init = Returned (Some path)) /\
    moves_to (length path - 1) init goal_state /\
    forall k, moves_to k init goal_state -> (length path - 1 <= k)%nat.
Proof.
  intros Hinit [k Hk].
  destruct (solve_puzzle_returns init Hinit) as (fuel & [path|] & Hrun & Hres).
  2:{ by destruct (Hres k). }
  destruct Hres as (n & Hn & Hgoal & -> & Hopt).
  destruct (node_ok_path init n Hn) as (l & Hl & Hhead & Hlegal & Hlen).
  exists fuel, (reverse (path_to_root n)). split; [done|].
  rewrite Hl, length_app. cbn [length].
  replace (length l + 1 - 1)%nat with (length l) by lia. split.
  - rewrite <- Hgoal. by apply legal_path_moves.
  - intros k' Hk'. specialize (Hopt k' Hk'). lia.
Qed.

(** The module's instance: [initial_state] is valid and 18 moves lead from
    it to [goal_state], so the path returned has at most 18 moves, and no
    sequence of moves to the goal has fewer. *)
Lemma solve_puzzle_optimal_witness :
  valid_grid initial_state /\ (exists k, moves_to k initial_state goal_state) /\
  exists fuel path,
    (forall fuel', (fuel <= fuel')%nat ->
       solve_puzzle fuel' initial_state = Returned (Some path)) /\
    moves_to (length path - 1) initial_state goal_state /\
    (forall k, moves_to k initial_state goal_state -> (length path - 1 <= k)%nat) /\
    (length path - 1 <= 18)%nat.
Proof.
  split; [apply valid_initial_state|].
  split; [exists 18%nat; apply initial_state_solvable|].
  destruct (solve_puzzle_optimal initial_state valid_initial_state
              (ex_intro _ 18%nat initial_state_solvable))
    as (fuel & path & Hrun & Hreach & Hmin).
  exists fuel, path. split; [exact Hrun|]. split; [exact Hreach|].
  split; [exact Hmin|]. exact (Hmin 18%nat initial_state_solvable).
Defined.

(** C9. [solve_puzzle] terminates on every valid grid: with enough
    iterations allowed the loop ends and returns, and when no sequence of
    moves leads to the goal what it returns is [None].  The grids that can
    be reached from the initial grid all lie in a list of 181440 grids, and
    the explored set never holds more than 181440 grids.  A run on a grid
    from which the goal cannot be reached exhausts the grids that can be
    reached: it returns [None] after some number [k] of iterations and not
    before, with an empty frontier, and its explored set is then the set of
    the grids that can be reached from the initial grid. *)
Theorem solve_puzzle_terminates (init : grid) :
  valid_grid init ->
  (exists fuel r,
     (forall fuel', (fuel <= fuel')%nat -> solve_puzzle fuel' init = Returned r) /\
     ((forall k, ~ moves_to k init goal_state) -> r = None)) /\
  (forall k t, moves_to k init t -> t ∈ grids_of_parity (grid_parity init)) /\
  Z.of_nat (length (grids_of_parity (grid_parity init))) = 181440 /\
  (forall k open_list closed_list,
     loop_state k init = Some (open_list, closed_list) ->
     Z.of_nat (size closed_list) <= 181440) /\
  ((forall k, ~ moves_to k init goal_state) ->
   exists k closed_list,
     loop_state k init = Some ([], closed_list) /\
     (forall fuel, (fuel < k)%nat -> solve_puzzle fuel init = OutOfFuel) /\
     (forall fuel, (k <= fuel)%nat -> solve_puzzle fuel init = Returned None) /\
     (forall t, t ∈ closed_list <-> exists j, moves_to j init t)).
Proof.
  intros Hinit. split; [|split; [|split; [|split]]].
  - by apply solve_puzzle_returns_none.
  - intros k t Hk. by eapply moves_to_grids_of_parity.
  - apply grids_of_parity_length.
  - intros k o c Hstate. by eapply explored_bound.
  - by apply unsolvable_run_exhausts.
Qed.

(** On [unsolvable_state], where the search ends with [None] and with
    every grid that can be reached explored. *)
Lemma solve_puzzle_terminates_witness :
  valid_grid unsolvable_state /\
  (exists fuel, forall fuel', (fuel <= fuel')%nat ->
     solve_puzzle fuel' unsolvable_state = Returned None) /\
  exists k closed_list,
    loop_state k unsolvable_state = Some ([], closed_list) /\
    forall t, t ∈ closed_list <-> exists j, moves_to j unsolvable_state t.
Proof.
  split; [apply valid_unsolvable_state|].
  destruct (solve_puzzle_terminates unsolvable_state valid_unsolvable_state)
    as [(fuel & r & Hrun & Hnone) (_ & _ & _ & Hex)].
  split.
  - exists fuel. intros fuel' Hle.
    rewrite (Hrun fuel' Hle). f_equal. apply Hnone, unsolvable_state_unsolvable.
  - destruct (Hex unsolvable_state_unsolvable) as (k & c & Hstate & _ & _ & Hmem).
    exists k, c. split; [exact Hstate|exact Hmem].
Defined.

(** C5, as the code has it. When no sequence of moves leads from a valid
    grid to the goal, [solve_puzzle] returns [None], by an ordinary return.
    A path it returns, on whatever input, is a non-empty list, so [None]
    stands for no empty path and the module's test [if solution:] tells the
    two outcomes apart. *)
Theorem solve_puzzle_no_solution (init : grid) :
  valid_grid init -> (forall k, ~ moves_to k init goal_state) ->
  (exists fuel, forall fuel', (fuel <= fuel')%nat ->
     solve_puzzle fuel' init = Returned None) /\
  (forall fuel r, solve_puzzle fuel init = Returned r -> r = None) /\
  py_truthy None = false /\
  (forall init' fuel path,
     solve_puzzle fuel init' = Returned (Some path) ->
     path ≠ [] /\ py_truthy (Some path) = true).
Proof.
  intros Hinit Hno.
  destruct (solve_puzzle_returns_none init Hinit) as (fuel & r & Hrun & Hnone).
  rewrite (Hnone Hno) in Hrun.
  split; [by exists fuel|]. split; [|split; [done|]].
  - intros fuel' r' Hr'.
    by rewrite (solve_puzzle_deterministic _ _ _ _ _ Hr' (Hrun fuel ltac:(lia))).
  - intros init' fuel' path Hpath.
    apply solve_puzzle_path_nonempty in Hpath. by destruct path.
Qed.

(** On [unsolvable_state], whose parity differs from the goal's. *)
Lemma solve_puzzle_no_solution_witness :
  valid_grid unsolvable_state /\
  (forall k, ~ moves_to k unsolvable_state goal_state) /\
  exists fuel, forall fuel', (fuel <= fuel')%nat ->
    solve_puzzle fuel' unsolvable_state = Returned None.
Proof.
  split; [apply valid_unsolvable_state|].
  split; [apply unsolvable_state_unsolvable|].
  apply (solve_puzzle_no_solution unsolvable_state valid_unsolvable_state
           unsolvable_state_unsolvable).
Defined.

(** C5 fails as stated: the result for "no solution" is [None], Python's
    null value, and the module's test [if solution:] takes [None] and the
    empty list alike. *)
Lemma no_solution_is_null :
  (exists fuel, solve_puzzle fuel unsolvable_state = Returned None) /\
  py_truthy None = py_truthy (Some []).
Proof.
  split; [|reflexivity].
  destruct (solve_puzzle_returns_none unsolvable_state valid_unsolvable_state)
    as (fuel & r & Hrun & Hnone).
  exists fuel. rewrite (Hrun fuel ltac:(lia)). f_equal.
  apply Hnone, unsolvable_state_unsolvable.
Qed.

(** C6, as the code has it. [solve_puzzle] does not validate its input
    and has no validation error to raise: on a valid grid it raises nothing,
    however many iterations are allowed. *)
Theorem solve_puzzle_valid_no_exception (init : grid) :
  valid_grid init -> forall fuel e, solve_puzzle fuel init ≠ Raised e.
Proof.
  intros Hinit fuel e. unfold solve_puzzle.
  destruct (valid_manhattan init Hinit) as [h0 Hh0]. rewrite Hh0.
  apply (solve_loop_no_raise init fuel Hinit). by apply search_inv_start.
Qed.

(** On the module's [initial_state]. *)
Lemma solve_puzzle_valid_no_exception_witness :
  valid_grid initial_state /\
  forall fuel e, solve_puzzle fuel initial_state ≠ Raised e.
Proof.
  split; [apply valid_initial_state|].
  apply (solve_puzzle_valid_no_exception initial_state valid_initial_state).
Defined.

(** C6 fails as stated: the grid [[1,1,1],[1,0,1],[1,1,1]] is not a
    permutation of 0..8, yet [solve_puzzle] raises nothing on it: it searches
    the nine grids it can reach and returns [None]. *)
Lemma invalid_grid_not_rejected :
  ~ valid_grid repeated_tiles /\
  solve_puzzle 100 repeated_tiles = Returned None.
Proof.
  split; [|by vm_compute].
  intros (_ & _ & Hperm). revert Hperm.
  change (~ concat repeated_tiles ≡ₚ [0; 1; 2; 3; 4; 5; 6; 7; 8]). compute_done.
Qed.

(** Other grids that are not valid fail with Python's own exceptions, where
    a cell is read or the blank position is unpacked: a grid without a blank
    raises [TypeError] in the first iteration, a grid with two rows raises
    [IndexError] when the heuristic of the root is computed. *)
Lemma no_blank_raises_TypeError :
  solve_puzzle 1 [[1; 2; 3]; [4; 5; 6]; [7; 8; 9]] = Raised TypeError.
Proof. reflexivity. Qed.

Lemma two_rows_raise_IndexError :
  forall fuel, solve_puzzle fuel [[1; 2; 3]; [4; 5; 0]] = Raised IndexError.
Proof. reflexivity. Qed.

(** C7, as the code has it. In every iteration the node [heappop]
    returns is a frontier node whose [f = g + h] is least among the frontier
    nodes. *)
Theorem heappop_minimal_f (init : grid) (k : nat)
    (open_list : list PuzzleNode) (closed_list : gset grid)
    (n : PuzzleNode) (rest : list PuzzleNode) :
  loop_state k init = Some (open_list, closed_list) ->
  heappop node_lt open_list = Ok (n, rest) ->
  n ∈ open_list /\ Forall (fun m => node_f n <= node_f m) open_list.
Proof.
  intros Hstate Hpop.
  pose proof (loop_state_heap _ _ _ _ Hstate) as Hheap.
  destruct (decide (open_list = [])) as [->|Hne]; [done|].
  destruct (heappop_spec node_lt node_f node_lt_key open_list Hheap Hne)
    as (n' & rest' & Hpop' & Hperm & _ & Hmin).
  rewrite Hpop in Hpop'. injection Hpop' as <- <-.
  split; [rewrite Hperm; by left|]. by apply Forall_forall.
Qed.

(** The 12th iteration of the run on the module's [initial_state]. *)
Lemma heappop_minimal_f_witness :
  exists n rest,
    loop_state 11 initial_state =
      Some (frontier_at 11 initial_state, explored_at 11 initial_state) /\
    heappop node_lt (frontier_at 11 initial_state) = Ok (n, rest) /\
    n ∈ frontier_at 11 initial_state /\
    Forall (fun m => node_f n <= node_f m) (frontier_at 11 initial_state).
Proof.
  assert (is_Some (loop_state 11 initial_state)) as Hstate by compute_done.
  apply loop_state_observed in Hstate.
  assert (is_Some (popped_at 11 initial_state)) as [[n rest] Hpop] by compute_done.
  apply popped_at_heappop in Hpop.
  exists n, rest. split; [exact Hstate|]. split; [exact Hpop|].
  exact (heappop_minimal_f initial_state 11 _ _ n rest Hstate Hpop).
Defined.

(** C7 fails as stated: ties are not broken by insertion order.  In the
    run on the module's initial grid, node [m] (grid
    [[2,1,7],[4,3,6],[8,0,5]]) is in the frontier after 9 iterations, when
    node [n] (grid [[2,1,7],[0,3,6],[4,8,5]]) is not there yet; after 11
    iterations both are in the frontier with [f = 16], and the 12th
    iteration pops [n], leaving [m]. *)
Lemma heappop_ties_not_stable :
  exists m n rest,
    frontier_at 9 initial_state !! 3%nat = Some m /\
    (state n ∉ state <$> frontier_at 9 initial_state) /\
    heappop node_lt (frontier_at 11 initial_state) = Ok (n, rest) /\
    rest !! 0%nat = Some m /\
    state m = [[2; 1; 7]; [4; 3; 6]; [8; 0; 5]] /\
    state n = [[2; 1; 7]; [0; 3; 6]; [4; 8; 5]] /\
    node_f m = 16 /\ node_f n = 16.
Proof.
  assert (is_Some (popped_at 11 initial_state)) as [[n rest] Hpop] by compute_done.
  assert (is_Some (frontier_at 9 initial_state !! 3%nat)) as [m Hm] by compute_done.
  assert ((p ← popped_at 11 initial_state; p.2 !! 0%nat) =
          frontier_at 9 initial_state !! 3%nat) as Hrest
    by (vm_compute; reflexivity).
  assert ((fun p => (state p.1, node_f p.1)) <$> popped_at 11 initial_state =
          Some ([[2; 1; 7]; [0; 3; 6]; [4; 8; 5]], 16)) as Hn
    by (vm_compute; reflexivity).
  assert ((fun x => (state x, node_f x)) <$> frontier_at 9 initial_state !! 3%nat =
          Some ([[2; 1; 7]; [4; 3; 6]; [8; 0; 5]], 16)) as Hm'
    by (vm_compute; reflexivity).
  rewrite Hpop in Hrest, Hn. rewrite Hm in Hrest, Hm'.
  cbn in Hrest, Hn, Hm'. injection Hn as Hn Hfn. injection Hm' as Hm' Hfm.
  exists m, n, rest. split; [exact Hm|].
  split; [rewrite Hn; compute_done|].
  split; [exact (popped_at_heappop _ _ _ _ Hpop)|].
  split; [exact Hrest|]. split; [exact Hm'|]. split; [exact Hn|].
  split; [exact Hfm|exact Hfn].
Qed.

(** C3, as the code has it. A popped node whose grid is in the explored
    set already is not discarded: the iteration goes on as for any other
    node, the explored set stays as it is, and the new frontier is what the
    pop left together with the child nodes pushed: exactly one for every
    legal move to a grid that is not explored (the grids of the children
    are pairwise different), and no other. *)
Theorem explored_node_children (init : grid) (k : nat)
    (open_list : list PuzzleNode) (closed_list : gset grid)
    (n : PuzzleNode) (rest : list PuzzleNode) :
  valid_grid init ->
  loop_state k init = Some (open_list, closed_list) ->
  heappop node_lt open_list = Ok (n, rest) ->
  state n ∈ closed_list ->
  exists open_list' kids,
    step open_list closed_list = Ok (Continue open_list' closed_list) /\
    open_list' ≡ₚ kids ++ rest /\
    Forall (fun kid => parent kid = Some n /\ is_move (state n) (state kid) /\
                       state kid ∉ closed_list) kids /\
    (forall t, is_move (state n) t -> t ∉ closed_list ->
       exists kid, kid ∈ kids /\ state kid = t) /\
    NoDup (state <$> kids).
Proof.
  intros Hinit Hstate Hpop Hcl.
  pose proof (loop_state_inv _ _ _ _ Hinit Hstate) as Hinv.
  assert (state n ≠ goal_state) as Hgoal.
  { intros Heq. destruct (inv_goal _ _ _ Hinv). by rewrite <- Heq. }
  destruct (step_kids init open_list closed_list n rest Hinit
              (inv_heap _ _ _ Hinv) (inv_nodes _ _ _ Hinv) Hpop Hgoal)
    as (o2 & kids & Hstep & Hperm & Hnd & Hmem & Hkids).
  assert ({[state n]} ∪ closed_list = closed_list) as Heq.
  { apply subseteq_union_1_L. by apply singleton_subseteq_l. }
  rewrite Heq in *.
  exists o2, kids. split; [done|]. split; [done|]. split; [|split; [|done]].
  - apply Forall_forall. intros kid Hkid.
    destruct (proj1 (Forall_forall _ _) Hkids kid Hkid) as (Hpar & _ & _).
    destruct (proj1 (Hmem (state kid))) as [Hm Hncl].
    { apply list_elem_of_fmap. by exists kid. }
    done.
  - intros t Ht Hncl.
    pose proof (proj2 (Hmem t) (conj Ht Hncl)) as Hin.
    apply list_elem_of_fmap in Hin as (kid & -> & Hkid). by exists kid.
Qed.

(** The 13th iteration of the run on [duplicate_start]. *)
Lemma explored_node_children_witness :
  exists n rest,
    valid_grid duplicate_start /\
    loop_state 12 duplicate_start =
      Some (frontier_at 12 duplicate_start, explored_at 12 duplicate_start) /\
    heappop node_lt (frontier_at 12 duplicate_start) = Ok (n, rest) /\
    state n ∈ explored_at 12 duplicate_start /\
    exists open_list' kids,
      step (frontier_at 12 duplicate_start) (explored_at 12 duplicate_start) =
        Ok (Continue open_list' (explored_at 12 duplicate_start)) /\
      open_list' ≡ₚ kids ++ rest /\
      Forall (fun kid => parent kid = Some n /\ is_move (state n) (state kid) /\
                         state kid ∉ explored_at 12 duplicate_start) kids /\
      (forall t, is_move (state n) t -> t ∉ explored_at 12 duplicate_start ->
         exists kid, kid ∈ kids /\ state kid = t) /\
      NoDup (state <$> kids).
Proof.
  assert (is_Some (loop_state 12 duplicate_start)) as Hstate by compute_done.
  apply loop_state_observed in Hstate.
  assert (is_Some (popped_at 12 duplicate_start)) as [[n rest] Hpop] by compute_done.
  assert (from_option (fun p => bool_decide (state p.1 ∈ explored_at 12 duplicate_start))
            false (popped_at 12 duplicate_start) = true) as Hcl
    by (vm_compute; reflexivity).
  rewrite Hpop in Hcl. cbn [from_option fst] in Hcl. apply bool_decide_eq_true in Hcl.
  apply popped_at_heappop in Hpop.
  exists n, rest. split; [apply valid_duplicate_start|]. split; [exact Hstate|].
  split; [exact Hpop|]. split; [exact Hcl|].
  exact (explored_node_children duplicate_start 12 _ _ n rest
           valid_duplicate_start Hstate Hpop Hcl).
Defined.

(** C3 fails as stated. In the run on [[0,4,3],[2,1,6],[7,8,5]] the 13th
    iteration pops a node whose grid [[1,2,3],[4,0,6],[7,8,5]] is in the
    explored set already; the node is expanded all the same, and the
    iteration pushes two nodes onto the frontier. *)
Lemma explored_node_expanded :
  exists n rest open_list' closed_list',
    loop_state 12 duplicate_start =
      Some (frontier_at 12 duplicate_start, explored_at 12 duplicate_start) /\
    heappop node_lt (frontier_at 12 duplicate_start) = Ok (n, rest) /\
    state n = [[1; 2; 3]; [4; 0; 6]; [7; 8; 5]] /\
    state n ∈ explored_at 12 duplicate_start /\
    step (frontier_at 12 duplicate_start) (explored_at 12 duplicate_start) =
      Ok (Continue open_list' closed_list') /\
    length rest = 12%nat /\ length open_list' = 14%nat.
Proof.
  assert (is_Some (loop_state 12 duplicate_start)) as Hstate by compute_done.
  apply loop_state_observed in Hstate.
  assert (is_Some (popped_at 12 duplicate_start)) as [[n rest] Hpop] by compute_done.
  assert ((fun p => (state p.1, length p.2)) <$> popped_at 12 duplicate_start =
          Some ([[1; 2; 3]; [4; 0; 6]; [7; 8; 5]], 12%nat)) as Hn
    by (vm_compute; reflexivity).
  assert (bool_decide ([[1; 2; 3]; [4; 0; 6]; [7; 8; 5]] ∈ explored_at 12 duplicate_start)
          = true) as Hcl by (vm_compute; reflexivity).
  assert (match step (frontier_at 12 duplicate_start) (explored_at 12 duplicate_start) with
          | Ok (Continue o _) => Some (length o)
          | _ => None
          end = Some 14%nat) as Hstep by (vm_compute; reflexivity).
  rewrite Hpop in Hn. cbn in Hn. injection Hn as Hn Hlen.
  apply bool_decide_eq_true in Hcl.
  destruct (step (frontier_at 12 duplicate_start) (explored_at 12 duplicate_start))
    as [[path|o c]|e] eqn:Hs; [discriminate Hstep| |discriminate Hstep].
  injection Hstep as Hlen'.
  exists n, rest, o, c. split; [exact Hstate|].
  split; [exact (popped_at_heappop _ _ _ _ Hpop)|]. split; [exact Hn|].
  split; [rewrite Hn; exact Hcl|]. split; [reflexivity|].
  split; [exact Hlen|exact Hlen'].
Qed.

(** * Further properties of the code *)

(** X1. On a 3x3 grid of any integers [get_blank_position] returns the
    first cell, in reading order, that holds 0; it returns [None] when no
    cell holds 0, and raises nothing. *)
Theorem get_blank_position_first (s : grid) :
  length s = 3%nat -> Forall (fun row => length row = 3%nat) s ->
  match get_blank_position s with
  | Ok (Some (i, j)) =>
      on_board i j /\ cell s i j = Ok 0 /\
      forall r c, on_board r c -> 3 * r + c < 3 * i + j -> cell s r c ≠ Ok 0
  | Ok None => forall r c, on_board r c -> cell s r c ≠ Ok 0
  | Raise _ => False
  end.
Proof.
  intros Hlen Hrows.
  destruct (shape_3x3 s Hlen Hrows) as (a & b & c & d & e & f & g & h & i & ->).
  destruct (get_blank_position_3x3 a b c d e f g h i)
    as [(bi & bj & -> & Hb & H0 & Hfirst)|[-> Hnone]]; done.
Qed.

(** A grid with three blanks: the one at row 0, column 1 is found. *)
Lemma get_blank_position_first_witness :
  on_board 0 1 /\ cell [[1; 0; 3]; [0; 5; 6]; [7; 8; 0]] 0 1 = Ok 0 /\
  forall r c, on_board r c -> 3 * r + c < 3 * 0 + 1 ->
    cell [[1; 0; 3]; [0; 5; 6]; [7; 8; 0]] r c ≠ Ok 0.
Proof.
  exact (get_blank_position_first [[1; 0; 3]; [0; 5; 6]; [7; 8; 0]] eq_refl
           ltac:(repeat constructor)).
Defined.

(** X2. On a valid grid with the blank at [(bi, bj)], [get_neighbors]
    lists its grids in the order of the moves down, up, right, left,
    leaving out the moves that leave the board: the blank of the n-th grid
    is where the n-th such move puts it. *)
Theorem get_neighbors_order (s : grid) (bi bj : Z) :
  valid_grid s -> on_board bi bj -> cell s bi bj = Ok 0 ->
  exists l, get_neighbors s = Ok l /\
    get_blank_position <$> l =
    (fun m : Z * Z => Ok (Some (bi + m.1, bj + m.2))) <$>
      filter (fun m => move_in_bounds bi bj m = true) moves.
Proof.
  intros Hs Hb H0.
  destruct (get_neighbors_moves s Hs) as (bi' & bj' & l & _ & Hb' & H0' & Hl & Hall).
  destruct (blank_unique s _ _ _ _ Hs Hb Hb' H0 H0') as [<- <-].
  exists l. split; [done|].
  apply Forall2_fmap_eq, Forall2_flip.
  eapply Forall2_impl; [exact Hall|]. by intros m t (_ & _ & ->).
Qed.

(** On the module's [initial_state]: blank at the centre, four grids with
    the blank below, above, right and left of the centre. *)
Lemma get_neighbors_order_witness :
  valid_grid initial_state /\
  exists l, get_neighbors initial_state = Ok l /\
    get_blank_position <$> l =
    [Ok (Some (2, 1)); Ok (Some (0, 1)); Ok (Some (1, 2)); Ok (Some (1, 0))].
Proof.
  split; [apply valid_initial_state|].
  apply (get_neighbors_order initial_state 1 1 valid_initial_state);
    [unfold on_board; lia|reflexivity].
Defined.

(** X3. On valid grids being a neighbor is symmetric: every grid that
    [get_neighbors] returns for [s] has [s] among its own neighbors. *)
Theorem get_neighbors_symmetric (s t : grid) (l : list grid) :
  valid_grid s -> get_neighbors s = Ok l -> t ∈ l ->
  exists l', get_neighbors t = Ok l' /\ s ∈ l'.
Proof.
  intros Hs Hl Ht.
  destruct (get_neighbors_spec s Hs) as (l0 & _ & _ & Hl0 & _ & _ & _ & Hmem).
  assert (l0 = l) as -> by congruence.
  apply Hmem in Ht.
  pose proof (is_move_valid s t Hs Ht) as Hvt.
  destruct (get_neighbors_spec t Hvt) as (l' & _ & _ & Hl' & _ & _ & _ & Hmem').
  exists l'. split; [done|]. apply Hmem'. by apply is_move_sym.
Qed.

Lemma get_neighbors_symmetric_witness :
  valid_grid initial_state /\
  get_neighbors initial_state =
    Ok [[[2; 1; 7]; [8; 4; 6]; [3; 0; 5]]; [[2; 0; 7]; [8; 1; 6]; [3; 4; 5]];
        [[2; 1; 7]; [8; 6; 0]; [3; 4; 5]]; [[2; 1; 7]; [0; 8; 6]; [3; 4; 5]]] /\
  exists l', get_neighbors [[2; 1; 7]; [8; 4; 6]; [3; 0; 5]] = Ok l' /\
    initial_state ∈ l'.
Proof.
  split; [apply valid_initial_state|]. split; [reflexivity|].
  apply (get_neighbors_symmetric initial_state _ _ valid_initial_state eq_refl).
  by left.
Defined.

(** X4. On a valid grid the grids [get_neighbors] returns are pairwise
    different, and none of them is the grid given. *)
Theorem get_neighbors_distinct (s : grid) (l : list grid) :
  valid_grid s -> get_neighbors s = Ok l -> NoDup (s :: l).
Proof. intros Hs Hl. by apply get_neighbors_NoDup. Qed.

Lemma get_neighbors_distinct_witness :
  valid_grid initial_state /\
  NoDup [initial_state;
         [[2; 1; 7]; [8; 4; 6]; [3; 0; 5]]; [[2; 0; 7]; [8; 1; 6]; [3; 4; 5]];
         [[2; 1; 7]; [8; 6; 0]; [3; 4; 5]]; [[2; 1; 7]; [0; 8; 6]; [3; 4; 5]]].
Proof.
  split; [apply valid_initial_state|].
  exact (get_neighbors_distinct initial_state _ valid_initial_state eq_refl).
Defined.

(** X5. Every grid [get_neighbors] returns for a valid grid has a
    [manhattan_distance] exactly one above or one below that of the grid
    given. *)
Theorem get_neighbors_heuristic_step (s : grid) (l : list grid) :
  valid_grid s -> get_neighbors s = Ok l ->
  exists hs, manhattan_distance s = Ok hs /\
    Forall (fun t => manhattan_distance t = Ok (hs + 1) \/
                     manhattan_distance t = Ok (hs - 1)) l.
Proof.
  intros Hs Hl. pose proof Hs as (Hlen & Hrows & _).
  destruct (get_neighbors_spec s Hs) as (l0 & _ & _ & Hl0 & _ & _ & _ & Hmem).
  assert (l0 = l) as -> by congruence.
  destruct (valid_manhattan s Hs) as [hs Hhs].
  exists hs. split; [done|]. apply Forall_forall. intros t Ht%Hmem.
  destruct (manhattan_distance_move_exact s t Hlen Hrows Ht) as (hs' & ht & H1 & H2 & Habs).
  assert (hs' = hs) as -> by congruence.
  rewrite H2. destruct (decide (ht = hs + 1)) as [->|Hne]; [by left|right].
  f_equal. lia.
Qed.

Lemma get_neighbors_heuristic_step_witness :
  valid_grid initial_state /\
  exists hs, manhattan_distance initial_state = Ok hs /\
    Forall (fun t => manhattan_distance t = Ok (hs + 1) \/
                     manhattan_distance t = Ok (hs - 1))
      [[[2; 1; 7]; [8; 4; 6]; [3; 0; 5]]; [[2; 0; 7]; [8; 1; 6]; [3; 4; 5]];
       [[2; 1; 7]; [8; 6; 0]; [3; 4; 5]]; [[2; 1; 7]; [0; 8; 6]; [3; 4; 5]]].
Proof.
  split; [apply valid_initial_state|].
  exact (get_neighbors_heuristic_step initial_state _ valid_initial_state eq_refl).
Defined.

(** X6. The grids [get_neighbors] returns for a valid grid have the
    inversion parity of the grid given. *)
Theorem get_neighbors_parity (s : grid) (l : list grid) :
  valid_grid s -> get_neighbors s = Ok l ->
  Forall (fun t => grid_parity t = grid_parity s) l.
Proof.
  intros Hs Hl.
  destruct (get_neighbors_spec s Hs) as (l0 & _ & _ & Hl0 & _ & _ & _ & Hmem).
  assert (l0 = l) as -> by congruence.
  apply Forall_forall. intros t Ht%Hmem. by apply is_move_parity.
Qed.

Lemma get_neighbors_parity_witness :
  valid_grid initial_state /\
  Forall (fun t => grid_parity t = grid_parity initial_state)
    [[[2; 1; 7]; [8; 4; 6]; [3; 0; 5]]; [[2; 0; 7]; [8; 1; 6]; [3; 4; 5]];
     [[2; 1; 7]; [8; 6; 0]; [3; 4; 5]]; [[2; 1; 7]; [0; 8; 6]; [3; 4; 5]]].
Proof.
  split; [apply valid_initial_state|].
  exact (get_neighbors_parity initial_state _ valid_initial_state eq_refl).
Defined.

(** X7. On a 3x3 grid of any integers whose rows are pairwise different,
    so that no two rows are one list object and the deep copy has rows of
    its own, [get_neighbors] raises [TypeError] exactly when no cell holds
    0; otherwise it returns between 2 and 4 grids, each a 3x3 grid with the
    same cells rearranged. *)
Theorem get_neighbors_any_content (s : grid) :
  length s = 3%nat -> Forall (fun row => length row = 3%nat) s -> NoDup s ->
  match get_neighbors s with
  | Ok l =>
      0 ∈ concat s /\ (2 <= length l <= 4)%nat /\
      Forall (fun t => length t = 3%nat /\
                       Forall (fun row => length row = 3%nat) t /\
                       concat t ≡ₚ concat s) l
  | Raise e => e = TypeError /\ 0 ∉ concat s
  end.
Proof.
  intros Hlen Hrows _.
  destruct (get_neighbors_3x3 s Hlen Hrows)
    as [(bi & bj & l & Hpos & Hb & H0 & -> & Hall)|[-> Hno]]; [|done].
  split_and!.
  - destruct (shape_3x3 s Hlen Hrows) as (a & b & c & d & e & f & g & h & i & ->).
    apply (cells_3x3_concat a b c d e f g h i 0). by exists bi, bj.
  - rewrite <- (Forall2_length _ _ _ Hall). by apply in_bounds_moves_count.
  - rewrite <- (Forall2_length _ _ _ Hall). by apply in_bounds_moves_count.
  - eapply Forall2_Forall_r; [exact Hall|].
    apply Forall_forall. intros m [Hin Hm]%list_elem_of_filter t Hswap.
    pose proof (move_in_bounds_on_board _ _ _ Hin) as Hn.
    assert (adjacent bi bj (bi + m.1) (bj + m.2)) as Hadj.
    { unfold adjacent. pose proof (moves_unit m Hm). lia. }
    destruct (swap_cells_blank s t _ _ _ _ Hlen Hrows Hb Hn Hadj H0 Hswap)
      as (Htl & Htr & Htp & _). done.
Qed.

(** A grid that is not a permutation of 0..8, with the blank in the
    centre: four grids are returned. *)
Lemma get_neighbors_any_content_witness :
  NoDup [[1; 1; 1]; [1; 0; 1]; [2; 2; 2]] /\
  exists l, get_neighbors [[1; 1; 1]; [1; 0; 1]; [2; 2; 2]] = Ok l /\
    length l = 4%nat /\
    0 ∈ concat [[1; 1; 1]; [1; 0; 1]; [2; 2; 2]] /\ (2 <= length l <= 4)%nat /\
    Forall (fun t => length t = 3%nat /\
                     Forall (fun row => length row = 3%nat) t /\
                     concat t ≡ₚ concat [[1; 1; 1]; [1; 0; 1]; [2; 2; 2]]) l.
Proof.
  assert (NoDup [[1; 1; 1]; [1; 0; 1]; [2; 2; 2]]) as Hnd by compute_done.
  split; [exact Hnd|].
  eexists. split; [reflexivity|]. split; [reflexivity|].
  exact (get_neighbors_any_content [[1; 1; 1]; [1; 0; 1]; [2; 2; 2]] eq_refl
           ltac:(repeat constructor) Hnd).
Defined.

(** X8. On a valid grid [manhattan_distance] is 0 on the grid
    [[1,2,3],[4,5,6],[7,8,0]] and on no other. *)
Theorem manhattan_distance_zero (s : grid) :
  valid_grid s -> (manhattan_distance s = Ok 0 <-> s = standard_goal).
Proof.
  intros Hs. split; [by apply manhattan_distance_zero_standard|]. by intros ->.
Qed.

(** On the module's [goal_state], where the heuristic is not 0. *)
Lemma manhattan_distance_zero_witness :
  valid_grid goal_state /\
  (manhattan_distance goal_state = Ok 0 <-> goal_state = standard_goal).
Proof.
  split; [apply valid_goal_state|].
  apply (manhattan_distance_zero goal_state valid_goal_state).
Defined.

(** X9. [manhattan_distance] reads the nine cells of the first three rows
    and columns and nothing else: it raises [IndexError] exactly when the
    grid has fewer than three rows or one of the first three rows has fewer
    than three entries; otherwise its result is not negative and is that of
    the grid cut down to its first three rows and columns. *)
Theorem manhattan_distance_shape (s : grid) :
  match manhattan_distance s with
  | Ok d =>
      (3 <= length s)%nat /\ Forall (fun row => (3 <= length row)%nat) (take 3 s) /\
      0 <= d /\ manhattan_distance (take 3 (take 3 <$> s)) = Ok d
  | Raise e =>
      e = IndexError /\
      ~ ((3 <= length s)%nat /\ Forall (fun row => (3 <= length row)%nat) (take 3 s))
  end.
Proof.
  pose proof (manhattan_distance_cells s) as Hmd.
  destruct (manhattan_distance s) as [d|e] eqn:Hd.
  - destruct Hmd as [Hnn Hcells].
    apply cells_readable in Hcells as [Hlen Hrows].
    split_and!; try done.
    rewrite <- Hd. apply manhattan_distance_ext. intros i j Hij. by apply cell_take.
  - destruct Hmd as (-> & i & j & Hij & Hcell). split; [done|].
    intros Hshape.
    destruct (proj2 (cells_readable s) Hshape i j Hij) as [v Hv]. congruence.
Qed.

(** X10. Along a sequence of [k] legal moves from a valid grid the value
    of [manhattan_distance] changes by at most [k], and by an amount of the
    parity of [k]. *)
Theorem manhattan_distance_moves (k : nat) (s t : grid) :
  valid_grid s -> moves_to k s t ->
  exists hs ht q, manhattan_distance s = Ok hs /\ manhattan_distance t = Ok ht /\
    Z.abs (hs - ht) <= Z.of_nat k /\ Z.of_nat k = hs - ht + 2 * q.
Proof. intros Hs Hk. by apply manhattan_distance_walk. Qed.

(** The 18 moves from the module's [initial_state] to its [goal_state]. *)
Lemma manhattan_distance_moves_witness :
  valid_grid initial_state /\ moves_to 18 initial_state goal_state /\
  exists hs ht q, manhattan_distance initial_state = Ok hs /\
    manhattan_distance goal_state = Ok ht /\
    Z.abs (hs - ht) <= 18 /\ 18 = hs - ht + 2 * q.
Proof.
  split; [apply valid_initial_state|]. split; [apply initial_state_solvable|].
  apply (manhattan_distance_moves 18 initial_state goal_state valid_initial_state
           initial_state_solvable).
Defined.

(** X11. Along a run of [solve_puzzle] on a valid grid the values
    [f = g + h] of the nodes popped never decrease: a node popped in a later
    iteration has an [f] at least that of every node popped before. *)
Theorem popped_f_monotone (init : grid) (k k' : nat) (n n' : PuzzleNode)
    (rest rest' : list PuzzleNode) :
  valid_grid init -> (k <= k')%nat ->
  popped_at k init = Some (n, rest) -> popped_at k' init = Some (n', rest') ->
  node_f n <= node_f n'.
Proof.
  intros Hinit Hle [Hs Hp]%popped_at_state [Hs' Hp']%popped_at_state.
  pose proof (loop_state_inv _ _ _ _ Hinit Hs) as Hinv.
  pose proof (loop_state_inv _ _ _ _ Hinit Hs') as Hinv'.
  pose proof Hs' as Hrun.
  replace k' with (k + (k' - k))%nat in Hrun at 1 by lia.
  rewrite loop_state_add, Hs in Hrun.
  destruct (decide (frontier_at k init = [])) as [He|Hne].
  { rewrite He in Hp. discriminate Hp. }
  destruct (decide (frontier_at k' init = [])) as [He'|Hne'].
  { rewrite He' in Hp'. discriminate Hp'. }
  destruct (heappop_spec node_lt node_f node_lt_key _ (inv_heap _ _ _ Hinv) Hne)
    as (n0 & rest0 & Hp0 & _ & _ & Hmin).
  rewrite Hp in Hp0. injection Hp0 as <- <-.
  destruct (heappop_spec node_lt node_f node_lt_key _ (inv_heap _ _ _ Hinv') Hne')
    as (n1 & rest1 & Hp1 & Hperm & _ & _).
  rewrite Hp' in Hp1. injection Hp1 as <- <-.
  apply (run_loop_frontier_bound init (node_f n) Hinit _ _ _ _ _ Hinv Hrun Hmin).
  rewrite Hperm. by left.
Qed.

(** The 4th and the 12th iteration of the run on the module's
    [initial_state]. *)
Lemma popped_f_monotone_witness :
  exists n rest n' rest',
    valid_grid initial_state /\
    popped_at 3 initial_state = Some (n, rest) /\
    popped_at 11 initial_state = Some (n', rest') /\
    node_f n <= node_f n'.
Proof.
  assert (is_Some (popped_at 3 initial_state)) as [[n rest] Hpop] by compute_done.
  assert (is_Some (popped_at 11 initial_state)) as [[n' rest'] Hpop'] by compute_done.
  exists n, rest, n', rest'. split; [apply valid_initial_state|].
  split; [exact Hpop|]. split; [exact Hpop'|].
  exact (popped_f_monotone initial_state 3 11 n n' rest rest' valid_initial_state
           ltac:(lia) Hpop Hpop').
Defined.

(** X12. A path [solve_puzzle] returns for a valid grid holds no grid
    twice, and it is the one-grid path exactly when the grid given is the
    goal. *)
Theorem solve_puzzle_path_simple (init : grid) (fuel : nat) (path : list grid) :
  valid_grid init -> solve_puzzle fuel init = Returned (Some path) ->
  NoDup path /\ (length path = 1%nat <-> init = goal_state).
Proof.
  intros Hinit Hrun.
  destruct (solve_puzzle_result init fuel _ Hinit Hrun) as (n & Hn & Hgoal & -> & Hopt).
  destruct (node_ok_path init n Hn) as (l & Hl & Hhead & Hlegal & Hlen).
  rewrite Hl.
  assert ((l ++ [state n]) !! 0%nat = Some init) as H0.
  { rewrite <- head_lookup. exact Hhead. }
  assert ((l ++ [state n]) !! length l = Some goal_state) as Hlast.
  { rewrite lookup_app_r by lia. rewrite Nat.sub_diag. by rewrite <- Hgoal. }
  assert (forall i j x, (i < j)%nat ->
            (l ++ [state n]) !! i = Some x -> (l ++ [state n]) !! j = Some x -> False)
    as Hdup.
  { intros i j x Hij Hi Hj.
    assert (j <= length l)%nat as Hjl.
    { apply lookup_lt_Some in Hj. rewrite length_app in Hj. simpl in Hj. lia. }
    pose proof (legal_path_lookup _ 0 i init x Hlegal H0 Hi ltac:(lia)) as H1.
    pose proof (legal_path_lookup _ j (length l) x goal_state Hlegal Hj Hlast Hjl) as H2.
    pose proof (Hopt _ (moves_to_trans _ _ _ _ _ H1 H2)). lia. }
  split.
  - apply NoDup_alt. intros i j x Hi Hj.
    destruct (Nat.lt_total i j) as [Hlt|[Heq|Hgt]]; [|done|].
    + destruct (Hdup i j x Hlt Hi Hj).
    + destruct (Hdup j i x Hgt Hj Hi).
  - rewrite length_app. cbn [length]. split.
    + intros Hone. destruct l as [|y l]; [|simpl in Hone; lia].
      simpl in Hhead. congruence.
    + intros ->. pose proof (Hopt 0%nat (moves_to_O _)). lia.
Qed.

(** On a grid two moves away from the goal. *)
Lemma solve_puzzle_path_simple_witness :
  valid_grid [[2; 3; 4]; [7; 5; 1]; [8; 6; 0]] /\
  solve_puzzle 50 [[2; 3; 4]; [7; 5; 1]; [8; 6; 0]] =
    Returned (Some [[[2; 3; 4]; [7; 5; 1]; [8; 6; 0]];
                    [[2; 3; 4]; [7; 5; 1]; [8; 0; 6]];
                    [[2; 3; 4]; [7; 0; 1]; [8; 5; 6]]]) /\
  NoDup [[[2; 3; 4]; [7; 5; 1]; [8; 6; 0]];
         [[2; 3; 4]; [7; 5; 1]; [8; 0; 6]];
         [[2; 3; 4]; [7; 0; 1]; [8; 5; 6]]].
Proof.
  assert (valid_grid [[2; 3; 4]; [7; 5; 1]; [8; 6; 0]]) as Hvalid.
  { split_and!; [done|repeat constructor|compute_done]. }
  assert (solve_puzzle 50 [[2; 3; 4]; [7; 5; 1]; [8; 6; 0]] =
            Returned (Some [[[2; 3; 4]; [7; 5; 1]; [8; 6; 0]];
                            [[2; 3; 4]; [7; 5; 1]; [8; 0; 6]];
                            [[2; 3; 4]; [7; 0; 1]; [8; 5; 6]]])) as Hrun
    by (vm_compute; reflexivity).
  split; [exact Hvalid|]. split; [exact Hrun|].
  exact (proj1 (solve_puzzle_path_simple _ 50 _ Hvalid Hrun)).
Defined.

(** X13. When the inversion parity of a valid grid differs from that of
    the goal, [solve_puzzle] returns [None]. *)
Theorem solve_puzzle_parity (init : grid) :
  valid_grid init -> grid_parity init ≠ grid_parity goal_state ->
  exists fuel, forall fuel', (fuel <= fuel')%nat ->
    solve_puzzle fuel' init = Returned None.
Proof.
  intros Hinit Hpar.
  destruct (solve_puzzle_returns_none init Hinit) as (fuel & r & Hrun & Hnone).
  exists fuel. intros fuel' Hle. rewrite (Hrun fuel' Hle). f_equal.
  apply Hnone. intros k Hk. apply Hpar. symmetry. by eapply moves_to_parity.
Qed.

(** On [unsolvable_state], the goal with two tiles exchanged. *)
Lemma solve_puzzle_parity_witness :
  valid_grid unsolvable_state /\
  grid_parity unsolvable_state ≠ grid_parity goal_state /\
  exists fuel, forall fuel', (fuel <= fuel')%nat ->
    solve_puzzle fuel' unsolvable_state = Returned None.
Proof.
  split; [apply valid_unsolvable_state|].
  assert (grid_parity unsolvable_state ≠ grid_parity goal_state) as Hpar
    by (vm_compute; discriminate).
  split; [exact Hpar|].
  exact (solve_puzzle_parity unsolvable_state valid_unsolvable_state Hpar).
Defined.

(** X14. On a grid with fewer than three rows, or with fewer than three
    entries in one of its first three rows, [solve_puzzle] raises
    [IndexError] before it searches: the heuristic of the root cannot be
    computed. *)
Theorem solve_puzzle_short_grid (s : grid) (fuel : nat) :
  ~ ((3 <= length s)%nat /\ Forall (fun row => (3 <= length row)%nat) (take 3 s)) ->
  solve_puzzle fuel s = Raised IndexError.
Proof.
  intros Hshape. unfold solve_puzzle.
  by rewrite (manhattan_distance_raise s Hshape).
Qed.

(** The goal without its last row. *)
Lemma solve_puzzle_short_grid_witness :
  solve_puzzle 0 [[2; 3; 4]; [7; 0; 1]] = Raised IndexError.
Proof.
  apply (solve_puzzle_short_grid [[2; 3; 4]; [7; 0; 1]] 0).
  intros [Hlen _]. simpl in Hlen. lia.
Defined.

(** X15. On a 3x3 grid in which no cell holds 0, [solve_puzzle] raises
    [TypeError] in its first iteration, where [get_neighbors] unpacks the
    blank position. *)
Theorem solve_puzzle_no_blank (s : grid) (fuel : nat) :
  length s = 3%nat -> Forall (fun row => length row = 3%nat) s -> 0 ∉ concat s ->
  solve_puzzle (S fuel) s = Raised TypeError.
Proof.
  intros Hlen Hrows Hno. unfold solve_puzzle.
  destruct (shape_3x3 s Hlen Hrows) as (a & b & c & d & e & f & g & h & i & Hs).
  assert (exists h0, manhattan_distance s = Ok h0) as [h0 ->].
  { rewrite Hs. eexists. apply manhattan_distance_3x3. }
  cbn [solve_loop]. unfold step. rewrite heappop_singleton.
  cbn [mbind result_bind state].
  rewrite bool_decide_false.
  2:{ intros ->. apply Hno, goal_state_blank. }
  destruct (get_neighbors_3x3 s Hlen Hrows)
    as [(bi & bj & l & _ & Hb & H0 & _)|[-> _]]; [|done].
  destruct Hno. rewrite Hs. apply (cells_3x3_concat a b c d e f g h i 0).
  exists bi, bj. by rewrite <- Hs.
Qed.

Lemma solve_puzzle_no_blank_witness :
  solve_puzzle 1 [[1; 2; 3]; [4; 5; 6]; [7; 8; 9]] = Raised TypeError.
Proof.
  apply (solve_puzzle_no_blank [[1; 2; 3]; [4; 5; 6]; [7; 8; 9]] 0);
    [reflexivity|repeat constructor|compute_done].
Defined.

(** X16. On every 3x3 grid of integers in which some cell holds 0,
    valid or not, [solve_puzzle] ends by returning (a path or [None]) and
    raises nothing, however many iterations are allowed. *)
Theorem solve_puzzle_any_board (s : grid) :
  length s = 3%nat -> Forall (fun row => length row = 3%nat) s -> 0 ∈ concat s ->
  (exists fuel r, forall fuel', (fuel <= fuel')%nat ->
     solve_puzzle fuel' s = Returned r) /\
  (forall fuel e, solve_puzzle fuel s ≠ Raised e).
Proof.
  intros Hlen Hrows Hblank.
  pose proof (rearranged_refl s Hlen Hrows) as Hs.
  destruct (rearranged_manhattan s s Hs) as [h0 Hh0].
  assert (forall n, n ∈ [mkNode s None 0 h0] -> rearranged s (state n)) as Hnodes.
  { by intros n ->%list_elem_of_singleton. }
  unfold solve_puzzle. rewrite Hh0. split.
  - destruct (solve_loop_rearranged_terminates s Hblank _ _ _ ∅ eq_refl eq_refl
                (heap_ok_singleton node_f _) Hnodes) as (fuel & r & Hrun).
    exists fuel, r. intros fuel' Hle. by eapply solve_loop_fuel_mono.
  - intros fuel e.
    apply (solve_loop_rearranged_no_raise s Hblank); [apply heap_ok_singleton|done].
Qed.

(** On [[1,1,1],[1,0,1],[1,1,1]]. *)
Lemma solve_puzzle_any_board_witness :
  0 ∈ concat repeated_tiles /\
  (exists fuel r, forall fuel', (fuel <= fuel')%nat ->
     solve_puzzle fuel' repeated_tiles = Returned r) /\
  (forall fuel e, solve_puzzle fuel repeated_tiles ≠ Raised e).
Proof.
  assert (0 ∈ concat repeated_tiles) as Hblank by compute_done.
  split; [exact Hblank|].
  exact (solve_puzzle_any_board repeated_tiles eq_refl ltac:(repeat constructor) Hblank).
Defined.

(** X17. At the head of every iteration of the loop, on a valid grid:
    each frontier node holds a valid grid, [h] is the heuristic of that grid,
    the chain of parents is a legal sequence of [g] moves from the initial
    grid to the node's grid, and [f = g + h] is the heuristic of the
    initial grid plus an even number that is not negative; each explored
    grid is valid, can be reached from the initial grid, and is not the
    goal. *)
Theorem loop_state_nodes (init : grid) (k : nat) (open_list : list PuzzleNode)
    (closed_list : gset grid) (h0 : Z) :
  valid_grid init -> manhattan_distance init = Ok h0 ->
  loop_state k init = Some (open_list, closed_list) ->
  Forall (fun n =>
            valid_grid (state n) /\ manhattan_distance (state n) = Ok (h n) /\
            Z.of_nat (length (path_to_root n)) = g n + 1 /\
            head (reverse (path_to_root n)) = Some init /\
            last (reverse (path_to_root n)) = Some (state n) /\
            legal_path (reverse (path_to_root n)) /\
            exists q, 0 <= q /\ g n + h n = h0 + 2 * q) open_list /\
  (forall s, s ∈ closed_list ->
     valid_grid s /\ s ≠ goal_state /\ exists j, moves_to j init s).
Proof.
  intros Hinit Hh0 Hstate.
  pose proof (loop_state_inv _ _ _ _ Hinit Hstate) as Hinv. split.
  - apply Forall_forall. intros n Hn. apply (inv_nodes _ _ _ Hinv) in Hn.
    destruct (node_ok_path init n Hn) as (l & Hl & Hhead & Hlegal & Hlen).
    split; [by apply (node_ok_valid init)|]. split; [by apply (node_ok_h init)|].
    split.
    { rewrite <- length_reverse, Hl, length_app. simpl. lia. }
    rewrite Hl. split; [done|]. split; [by rewrite last_snoc|]. split; [done|].
    by apply (node_ok_f init).
  - intros s Hs. destruct (inv_closed _ _ _ Hinv s Hs) as [j Hj].
    split; [by eapply moves_to_valid|]. split; [|by exists j].
    intros ->. by apply (inv_goal _ _ _ Hinv).
Qed.

(** After 11 iterations of the run on the module's [initial_state]. *)
Lemma loop_state_nodes_witness :
  exists h0,
    valid_grid initial_state /\ manhattan_distance initial_state = Ok h0 /\
    loop_state 11 initial_state =
      Some (frontier_at 11 initial_state, explored_at 11 initial_state) /\
    Forall (fun n =>
              valid_grid (state n) /\ manhattan_distance (state n) = Ok (h n) /\
              Z.of_nat (length (path_to_root n)) = g n + 1 /\
              head (reverse (path_to_root n)) = Some initial_state /\
              last (reverse (path_to_root n)) = Some (state n) /\
              legal_path (reverse (path_to_root n)) /\
              exists q, 0 <= q /\ g n + h n = h0 + 2 * q)
      (frontier_at 11 initial_state) /\
    (forall s, s ∈ explored_at 11 initial_state ->
       valid_grid s /\ s ≠ goal_state /\ exists j, moves_to j initial_state s).
Proof.
  assert (is_Some (loop_state 11 initial_state)) as Hstate by compute_done.
  apply loop_state_observed in Hstate.
  destruct (valid_manhattan initial_state valid_initial_state) as [h0 Hh0].
  exists h0. split; [apply valid_initial_state|]. split; [exact Hh0|].
  split; [exact Hstate|].
  exact (loop_state_nodes initial_state 11 _ _ h0 valid_initial_state Hh0 Hstate).
Defined.

(** X18. After [k] iterations of the loop on a valid grid the explored
    set holds at most [k] grids and the frontier at most [2 k + 2] nodes:
    an iteration pops one node and pushes at most four, and at most three
    once the root is expanded, since the grid of the popped node's parent is
    explored by then. *)
Theorem loop_state_sizes (init : grid) (k : nat) (open_list : list PuzzleNode)
    (closed_list : gset grid) :
  valid_grid init -> loop_state k init = Some (open_list, closed_list) ->
  (size closed_list <= k)%nat /\ (length open_list <= 2 * k + 2)%nat /\
  ((0 < k)%nat ->
   Forall (fun n => exists p, parent n = Some p /\ (state p ∈ closed_list) /\
                      is_move (state p) (state n)) open_list).
Proof.
  intros Hinit Hstate.
  destruct (loop_state_bounds init Hinit k _ _ Hstate) as (Hsize & Hlen & _ & Hpar).
  split; [done|]. split; [done|]. intros Hk. apply Forall_forall. by apply Hpar.
Qed.

(** After 11 iterations of the run on the module's [initial_state]. *)
Lemma loop_state_sizes_witness :
  valid_grid initial_state /\
  loop_state 11 initial_state =
    Some (frontier_at 11 initial_state, explored_at 11 initial_state) /\
  (size (explored_at 11 initial_state) <= 11)%nat /\
  (length (frontier_at 11 initial_state) <= 2 * 11 + 2)%nat.
Proof.
  assert (is_Some (loop_state 11 initial_state)) as Hstate by compute_done.
  apply loop_state_observed in Hstate.
  split; [apply valid_initial_state|]. split; [exact Hstate|].
  destruct (loop_state_sizes initial_state 11 _ _ valid_initial_state Hstate)
    as (Hsize & Hlen & _).
  split; [exact Hsize|exact Hlen].
Defined.

(** X19. [heapq.heappush], for elements compared by a key: pushing onto
    a list in heap order gives a list in heap order that holds the item
    pushed and the elements of the list, each as often as before. *)
Theorem heappush_heap_order {A : Type} (lt : A -> A -> bool) (key : A -> Z)
    (heap : list A) (item : A) :
  (forall a b, lt a b = bool_decide (key a < key b)) ->
  heap_ok key heap ->
  heap_ok key (heappush lt heap item) /\ heappush lt heap item ≡ₚ item :: heap.
Proof.
  intros Hlt Hheap. split.
  - by apply (heappush_heap lt key Hlt).
  - apply heappush_perm.
Qed.

(** Integers compared by [<]: pushing 1 onto the heap [2; 5; 3; 7]. *)
Lemma heappush_heap_order_witness :
  heap_ok id [2; 5; 3; 7] /\
  heappush Z.ltb [2; 5; 3; 7] 1 = [1; 2; 3; 7; 5] /\
  heap_ok id [1; 2; 3; 7; 5].
Proof.
  assert (forall a b : Z, (a <? b) = bool_decide (id a < id b)) as Hlt.
  { intros a b. unfold id. case_bool_decide; lia. }
  assert (heap_ok id [2; 5; 3; 7]) as Hheap.
  { intros i x p Hi Hx Hp.
    destruct i as [|[|[|[|i]]]]; [lia| | | |done];
      vm_compute in Hp; simplify_eq/=; unfold id; lia. }
  split; [exact Hheap|]. split; [reflexivity|].
  exact (proj1 (heappush_heap_order Z.ltb id [2; 5; 3; 7] 1 Hlt Hheap)).
Defined.

(** X20. [heapq.heappop], for elements compared by a key, on a list in
    heap order: on the empty list it raises [IndexError]; otherwise it
    returns an element of least key and leaves the other elements, in heap
    order. *)
Theorem heappop_least {A : Type} (lt : A -> A -> bool) (key : A -> Z)
    (heap : list A) :
  (forall a b, lt a b = bool_decide (key a < key b)) ->
  heap_ok key heap ->
  match heappop lt heap with
  | Ok (x, rest) =>
      heap ≡ₚ x :: rest /\ heap_ok key rest /\
      Forall (fun y => key x <= key y) heap
  | Raise e => e = IndexError /\ heap = []
  end.
Proof.
  intros Hlt Hheap. destruct (decide (heap = [])) as [->|Hne]; [done|].
  destruct (heappop_spec lt key Hlt heap Hheap Hne)
    as (x & rest & -> & Hperm & Hrest & Hmin).
  split; [done|]. split; [done|]. by apply Forall_forall.
Qed.

(** Integers compared by [<]: popping the heap [1; 2; 3; 7; 5]. *)
Lemma heappop_least_witness :
  heap_ok id [1; 2; 3; 7; 5] /\
  heappop Z.ltb [1; 2; 3; 7; 5] = Ok (1, [2; 5; 3; 7]) /\
  heap_ok id [2; 5; 3; 7] /\
  Forall (fun y => id 1 <= id y) [1; 2; 3; 7; 5].
Proof.
  assert (forall a b : Z, (a <? b) = bool_decide (id a < id b)) as Hlt.
  { intros a b. unfold id. case_bool_decide; lia. }
  assert (heap_ok id [1; 2; 3; 7; 5]) as Hheap.
  { intros i x p Hi Hx Hp.
    destruct i as [|[|[|[|[|i]]]]]; [lia| | | | |done];
      vm_compute in Hp; simplify_eq/=; unfold id; lia. }
  split; [exact Hheap|]. split; [reflexivity|].
  exact (proj2 (heappop_least Z.ltb id [1; 2; 3; 7; 5] Hlt Hheap)).
Defined.



(** X22. The number of moves of a path [solve_puzzle] returns for a
    valid grid can be read off the heuristic of that grid: it is at least
    the distance of the heuristic from 12, the heuristic of the goal, and
    exceeds it by an even number. *)
Theorem solve_puzzle_path_length (init : grid) (fuel : nat) (path : list grid) (h0 : Z) :
  valid_grid init -> manhattan_distance init = Ok h0 ->
  solve_puzzle fuel init = Returned (Some path) ->
  exists q, 0 <= q /\ Z.of_nat (length path) - 1 = Z.abs (h0 - 12) + 2 * q.
Proof.
  intros Hinit Hh0 Hrun.
  destruct (solve_puzzle_result init fuel _ Hinit Hrun) as (n & Hn & Hgoal & -> & _).
  destruct (node_ok_path init n Hn) as (l & Hl & _ & _ & Hlen).
  rewrite Hl, length_app. cbn [length].
  destruct (manhattan_distance_walk _ _ _ (node_ok_moves init n Hn) Hinit)
    as (hs & ht & q & H1 & H2 & Habs & Hq).
  rewrite Hh0 in H1. rewrite Hgoal in H2.
  injection H1 as <-. change (manhattan_distance goal_state) with (Ok 12) in H2.
  injection H2 as <-.
  pose proof (node_ok_g init n Hn). rewrite Z2Nat.id in Habs, Hq by done.
  destruct (decide (0 <= h0 - 12)) as [Hpos|Hneg].
  - exists q. lia.
  - exists (q + (h0 - 12)). lia.
Qed.

(** On a grid two moves away from the goal, of heuristic 12. *)
Lemma solve_puzzle_path_length_witness :
  valid_grid [[2; 3; 4]; [7; 5; 1]; [8; 6; 0]] /\
  manhattan_distance [[2; 3; 4]; [7; 5; 1]; [8; 6; 0]] = Ok 12 /\
  solve_puzzle 50 [[2; 3; 4]; [7; 5; 1]; [8; 6; 0]] =
    Returned (Some [[[2; 3; 4]; [7; 5; 1]; [8; 6; 0]];
                    [[2; 3; 4]; [7; 5; 1]; [8; 0; 6]];
                    [[2; 3; 4]; [7; 0; 1]; [8; 5; 6]]]) /\
  exists q, 0 <= q /\ 3 - 1 = Z.abs (12 - 12) + 2 * q.
Proof.
  assert (valid_grid [[2; 3; 4]; [7; 5; 1]; [8; 6; 0]]) as Hvalid.
  { split_and!; [done|repeat constructor|compute_done]. }
  assert (solve_puzzle 50 [[2; 3; 4]; [7; 5; 1]; [8; 6; 0]] =
            Returned (Some [[[2; 3; 4]; [7; 5; 1]; [8; 6; 0]];
                            [[2; 3; 4]; [7; 5; 1]; [8; 0; 6]];
                            [[2; 3; 4]; [7; 0; 1]; [8; 5; 6]]])) as Hrun
    by (vm_compute; reflexivity).
  split; [exact Hvalid|]. split; [reflexivity|]. split; [exact Hrun|].
  exact (solve_puzzle_path_length _ 50 _ 12 Hvalid eq_refl Hrun).
Defined.

(** X23. From every valid grid that has the inversion parity of the goal
    the goal can be reached, in at most 30 moves: [solve_puzzle] returns a
    path, of at most 31 grids. *)
Theorem solve_puzzle_solvable (init : grid) :
  valid_grid init -> grid_parity init = grid_parity goal_state ->
  exists fuel path,
    (forall fuel', (fuel <= fuel')%nat ->
       solve_puzzle fuel' init = Returned (Some path)) /\
    (length path <= 31)%nat.
Proof.
  intros Hinit Hpar.
  destruct (same_parity_reaches_goal init Hinit Hpar) as (k & Hk & Hm).
  destruct (solve_puzzle_returns init Hinit) as (fuel & [path|] & Hrun & Hres).
  2:{ by destruct (Hres k). }
  destruct Hres as (n & Hn & Hgoal & -> & Hopt).
  destruct (node_ok_path init n Hn) as (l & Hl & _ & _ & Hlen).
  exists fuel, (reverse (path_to_root n)). split; [done|].
  rewrite Hl, length_app. cbn [length]. specialize (Hopt k Hm). lia.
Qed.

(** On the module's [initial_state]. *)
Lemma solve_puzzle_solvable_witness :
  valid_grid initial_state /\ grid_parity initial_state = grid_parity goal_state /\
  exists fuel path,
    (forall fuel', (fuel <= fuel')%nat ->
       solve_puzzle fuel' initial_state = Returned (Some path)) /\
    (length path <= 31)%nat.
Proof.
  split; [apply valid_initial_state|]. split; [reflexivity|].
  exact (solve_puzzle_solvable initial_state valid_initial_state eq_refl).
Defined.
